(** * dosenv: the dispatch-and-retry engine of [dosenv.py]

    A shallow embedding of [LoadTester] from [src/dosenv.py]:
    the request executor [_make_request] with its retry policy, the
    statistics aggregator [_update_stats], the worker loop [_worker], the
    run controller [run] and the report arithmetic of [_print_results].

    Wall-clock values ([time.time()], sleep delays) are exact rationals
    in seconds.  Coroutines are resumable programs over the operations at
    which the Python code reads shared state or suspends. *)

From Stdlib Require Import QArith Qminmax Lqa.
From stdpp Require Import gmap strings list pretty.

Local Open Scope string_scope.
Local Open Scope list_scope.
Local Open Scope Z_scope.

(** ** Exceptions

    The [except] clauses of [_make_request] dispatch on the class of the
    raised exception.  The classes named are those of the Python builtins
    and of aiohttp's [client_exceptions] that the clauses can tell apart;
    any other class below [Exception] is [OtherException name bases], with
    its name and its direct bases: [BrokenPipeError] is
    [OtherException "BrokenPipeError" [ConnectionError]].  [mro] lists a
    class followed by all its ancestors below [BaseException]; for the
    named classes in the order of [cls.__mro__], for the others in some
    order, which [isinstance] does not look at.
    [asyncio.TimeoutError] is the builtin [TimeoutError], as it is since
    Python 3.11; no clause of [_make_request] names [OSError], so the older
    hierarchy dispatches the same way. *)

#[warnings="-register-all"]
Inductive exn_class : Type :=
| Exception
| OSError
| TimeoutError                 (* asyncio.TimeoutError *)
| ConnectionError
| ConnectionRefusedError
| ConnectionResetError
| ClientError
| ClientResponseError
| ClientHttpProxyError
| ClientConnectionError
| ClientOSError
| ClientConnectorError
| ClientProxyConnectionError
| ServerConnectionError
| ServerDisconnectedError
| ServerTimeoutError
| ClientPayloadError
| OtherException (name : string) (bases : list exn_class).

#[global] Instance exn_class_eq_dec : EqDecision exn_class.
Proof.
  unfold EqDecision, Decision. fix IH 1. intros c d.
  destruct c as [| | | | | | | | | | | | | | | | |name bases];
    destruct d as [| | | | | | | | | | | | | | | | |name' bases'];
    try (left; reflexivity); try (right; discriminate).
  destruct (decide (name = name')) as [->|Hn]; [|right; congruence].
  destruct (@list_eq_dec _ IH bases bases') as [->|Hb];
    [left; reflexivity|right; congruence].
Defined.

Fixpoint mro (c : exn_class) : list exn_class :=
  match c with
  | Exception => [Exception]
  | OSError => [OSError; Exception]
  | TimeoutError => [TimeoutError; OSError; Exception]
  | ConnectionError => [ConnectionError; OSError; Exception]
  | ConnectionRefusedError =>
      [ConnectionRefusedError; ConnectionError; OSError; Exception]
  | ConnectionResetError =>
      [ConnectionResetError; ConnectionError; OSError; Exception]
  | ClientError => [ClientError; Exception]
  | ClientResponseError => [ClientResponseError; ClientError; Exception]
  | ClientHttpProxyError =>
      [ClientHttpProxyError; ClientResponseError; ClientError; Exception]
  | ClientConnectionError => [ClientConnectionError; ClientError; Exception]
  | ClientOSError =>
      [ClientOSError; ClientConnectionError; ClientError; OSError; Exception]
  | ClientConnectorError =>
      [ClientConnectorError; ClientOSError; ClientConnectionError;
       ClientError; OSError; Exception]
  | ClientProxyConnectionError =>
      [ClientProxyConnectionError; ClientConnectorError; ClientOSError;
       ClientConnectionError; ClientError; OSError; Exception]
  | ServerConnectionError =>
      [ServerConnectionError; ClientConnectionError; ClientError; Exception]
  | ServerDisconnectedError =>
      [ServerDisconnectedError; ServerConnectionError; ClientConnectionError;
       ClientError; Exception]
  | ServerTimeoutError =>
      [ServerTimeoutError; ServerConnectionError; ClientConnectionError;
       ClientError; TimeoutError; OSError; Exception]
  | ClientPayloadError => [ClientPayloadError; ClientError; Exception]
  | OtherException name bases => c :: flat_map mro bases ++ [Exception]
  end.

(** [type(e).__name__] *)
Definition class_name (c : exn_class) : string :=
  match c with
  | Exception => "Exception"
  | OSError => "OSError"
  | TimeoutError => "TimeoutError"
  | ConnectionError => "ConnectionError"
  | ConnectionRefusedError => "ConnectionRefusedError"
  | ConnectionResetError => "ConnectionResetError"
  | ClientError => "ClientError"
  | ClientResponseError => "ClientResponseError"
  | ClientHttpProxyError => "ClientHttpProxyError"
  | ClientConnectionError => "ClientConnectionError"
  | ClientOSError => "ClientOSError"
  | ClientConnectorError => "ClientConnectorError"
  | ClientProxyConnectionError => "ClientProxyConnectionError"
  | ServerConnectionError => "ServerConnectionError"
  | ServerDisconnectedError => "ServerDisconnectedError"
  | ServerTimeoutError => "ServerTimeoutError"
  | ClientPayloadError => "ClientPayloadError"
  | OtherException name _ => name
  end.

(** A raised exception: its class, [str(e)], and the [status] and
    [message] attributes read by the [ClientResponseError] clause. *)
Record exn : Type := {
  exc_class : exn_class;
  exc_str : string;
  exc_status : Z;
  exc_message : string
}.

Definition isinstance (e : exn) (c : exn_class) : bool :=
  bool_decide (c ∈ mro (exc_class e)).

(** ** Results

    The dict returned by [_make_request].  [status_code] is an [int] or one
    of the strings ['TIMEOUT'], ['CONNECTION_ERROR'], ['PROXY_ERROR'],
    ['ERROR']; the keys ['error_type'] and ['error'] are present only in
    the dicts built by the [except] clauses. *)

Inductive status : Type :=
| Code (n : Z)
| Sentinel (s : string).

Record Result : Type := {
  request_id : Z;
  status_code : status;
  response_time : Q;
  success : bool;
  error_type : option string;
  error : option string
}.

(** [str(result['status_code'])] *)
Definition str_status (s : status) : string :=
  match s with
  | Code n => pretty n
  | Sentinel s => s
  end.

(** ** Coroutines

    A coroutine is a tree of the operations at which [LoadTester] code
    touches the world: reading [self.running], reading the clock, and the
    three awaits of [_make_request]. *)

Inductive event : Type -> Type :=
| Running : event bool              (* self.running *)
| Now : event Q                     (* time.time() *)
| Request : event (exn + Z)         (* async with session.request(...):
                                       response.status, or a raise *)
| Read : event (exn + unit)         (* await response.read() *)
| Sleep (d : Q) : event unit.       (* await asyncio.sleep(d) *)

Inductive coro (R : Type) : Type :=
| Ret (r : R)
| Do {X : Type} (e : event X) (k : X -> coro R).

Arguments Ret {R} r.
Arguments Do {R X} e k.

Notation "'let!' x ':=' e 'in' k" := (Do e (fun x => k))
  (at level 10, x name, e at level 100, k at level 200, only parsing).

(** ** The request executor: [LoadTester._make_request] *)

Definition max_retries : nat := 3.
Definition retry_delay : Q := 1 # 10.

(** [retry_delay * (2 ** retry_count)] *)
Definition backoff (retry_count : nat) : Q :=
  (retry_delay * inject_Z (2 ^ Z.of_nat retry_count))%Q.

(** The body shared by the three retrying clauses:
    [if retry_count < max_retries: await asyncio.sleep(...);
     return await self._make_request(session, request_id, retry_count + 1)],
    then the clause's own dict. *)
Definition retry_or (retry_count : nat)
    (again exhausted : coro (option Result)) : coro (option Result) :=
  if (retry_count <? max_retries)%nat
  then let! _ := Sleep (backoff retry_count) in again
  else exhausted.

(** The dict of an [except] clause, built after reading the clock. *)
Definition failure (request_id : Z) (start_time : Q) (st : status)
    (error_type error_msg : string) : coro (option Result) :=
  let! t := Now in
  Ret (Some {| request_id := request_id;
               status_code := st;
               response_time := (t - start_time)%Q;
               success := false;
               error_type := Some error_type;
               error := Some error_msg |}).

(** The [except] clauses, tried in source order. *)
Definition except_clauses (request_id : Z) (retry_count : nat) (start_time : Q)
    (again : coro (option Result)) (e : exn) : coro (option Result) :=
  if isinstance e TimeoutError then
    retry_or retry_count again
      (failure request_id start_time (Sentinel "TIMEOUT")
         "TimeoutError" "Request timed out after 30 seconds")
  else if isinstance e ClientConnectorError
          || isinstance e ServerConnectionError
          || isinstance e ConnectionError then
    retry_or retry_count again
      (failure request_id start_time (Sentinel "CONNECTION_ERROR")
         (class_name (exc_class e)) (exc_str e))
  else if isinstance e ClientProxyConnectionError then
    retry_or retry_count again
      (failure request_id start_time (Sentinel "PROXY_ERROR")
         "ClientProxyConnectionError" (exc_str e))
  else if isinstance e ClientResponseError then
    failure request_id start_time (Code (exc_status e))
      "ClientResponseError"
      ("HTTP " +:+ pretty (exc_status e) +:+ ": " +:+ exc_message e)
  else
    failure request_id start_time (Sentinel "ERROR")
      (class_name (exc_class e)) (exc_str e).

(** One activation of [_make_request]; [again] stands for the recursive
    call [self._make_request(session, request_id, retry_count + 1)]. *)
Definition attempt (request_id : Z) (retry_count : nat)
    (again : coro (option Result)) : coro (option Result) :=
  let! running := Running in
  if negb running then Ret None else
  let! start_time := Now in
  let except := except_clauses request_id retry_count start_time again in
  let! resp := Request in
  match resp with
  | inl e => except e
  | inr status_code =>
      let! t := Now in
      let response_time := (t - start_time)%Q in
      let! body := Read in
      match body with
      | inl e => except e
      | inr _ =>
          Ret (Some {| request_id := request_id;
                       status_code := Code status_code;
                       response_time := response_time;
                       success := (200 <=? status_code)
                                  && (status_code <? 400);
                       error_type := None;
                       error := None |})
      end
  end.

(** The recursion of [_make_request] goes up in [retry_count] and stops at
    [max_retries]; [depth] counts the activations that can still follow.
    At depth 0 no clause retries any more, and what stands for the
    recursive call there is never run. *)
Fixpoint activations (depth : nat) (request_id : Z) (retry_count : nat)
    : coro (option Result) :=
  attempt request_id retry_count
    match depth with
    | O => Ret None
    | S depth' => activations depth' request_id (S retry_count)
    end.

Definition _make_request (request_id : Z) (retry_count : nat)
    : coro (option Result) :=
  activations (max_retries - retry_count) request_id retry_count.

(** ** Statistics: [self.stats] and [LoadTester._update_stats] *)

Record Stats : Type := {
  total_requests : Z;
  successful : Z;
  failed : Z;
  status_codes : gmap string Z;
  errors : gmap string Z;
  response_times : list Q;
  start_time : option Q;
  end_time : option Q
}.

(** [self.stats] as [__init__] builds it. *)
Definition stats_init : Stats :=
  {| total_requests := 0; successful := 0; failed := 0;
     status_codes := ∅; errors := ∅; response_times := [];
     start_time := None; end_time := None |}.

(** [d[key] = d.get(key, 0) + 1] *)
Definition bump (key : string) (d : gmap string Z) : gmap string Z :=
  <[key := default 0 (d !! key) + 1]> d.

(** [_update_stats] without its progress line, which only prints. *)
Definition _update_stats (st : Stats) (result : Result) : Stats :=
  let status := str_status (status_code result) in
  {| total_requests := total_requests st + 1;
     successful := if success result then successful st + 1 else successful st;
     failed := if success result then failed st else failed st + 1;
     status_codes := bump status (status_codes st);
     errors :=
       if success result then errors st
       else match error_type result with
            | Some ty =>
                bump (ty +:+ ": " +:+ default "No details" (error result))
                     (errors st)
            | None => errors st
            end;
     response_times := response_times st ++ [response_time result];
     start_time := start_time st;
     end_time := end_time st |}.

(** ** One coroutine run alone

    [interp] runs a coroutine to its end against a script of what the
    outside world does at each await: how the request or the body read
    ends and how long it took, how late a sleep wakes up, and whether
    [_signal_handler] ran meanwhile.  The world also counts the requests
    sent and keeps the delays slept, oldest first. *)

Record world : Type := {
  w_running : bool;
  w_now : Q;
  w_attempts : nat;
  w_sleeps : list Q
}.

Inductive answer : Type :=
| AReq (r : exn + Z) (elapsed : Q) (sigint : bool)
| ARead (r : exn + unit) (elapsed : Q) (sigint : bool)
| ASleep (late : Q) (sigint : bool).

Definition pass (w : world) (elapsed : Q) (sigint : bool) : world :=
  {| w_running := w_running w && negb sigint;
     w_now := (w_now w + elapsed)%Q;
     w_attempts := w_attempts w;
     w_sleeps := w_sleeps w |}.

Definition sent (w : world) : world :=
  {| w_running := w_running w; w_now := w_now w;
     w_attempts := S (w_attempts w); w_sleeps := w_sleeps w |}.

Definition slept (w : world) (d : Q) : world :=
  {| w_running := w_running w; w_now := w_now w;
     w_attempts := w_attempts w; w_sleeps := w_sleeps w ++ [d] |}.

Fixpoint interp {R : Type} (c : coro R) (w : world) (script : list answer)
    : option (R * world) :=
  match c with
  | Ret r => Some (r, w)
  | Do e k =>
      match e in event X return (X -> coro R) -> option (R * world) with
      | Running => fun k => interp (k (w_running w)) w script
      | Now => fun k => interp (k (w_now w)) w script
      | Request => fun k =>
          match script with
          | AReq r elapsed sigint :: script' =>
              interp (k r) (pass (sent w) elapsed sigint) script'
          | _ => None
          end
      | Read => fun k =>
          match script with
          | ARead r elapsed sigint :: script' =>
              interp (k r) (pass w elapsed sigint) script'
          | _ => None
          end
      | Sleep d => fun k =>
          match script with
          | ASleep late sigint :: script' =>
              interp (k tt) (pass (slept w d) (d + late) sigint) script'
          | _ => None
          end
      end k
  end.

(** ** The run: [LoadTester.run] and [LoadTester._worker]

    The event loop interleaves the controller [run], the warmup tasks and
    the workers.  A state holds what they share ([self.running],
    [self.stats], the queue and its count of unfinished items) and where
    each task stands.  [recorded], [abandoned], [attempted] and [warmed]
    are history only, oldest first: the results passed to
    [_update_stats], the identifiers for which [_make_request] returned
    [None], the identifiers of the requests the workers sent, and the
    identifiers of the requests the warm-up calls sent. *)

Record config : Type := {
  num_requests : Z;
  concurrency : Z
}.

Inductive worker : Type :=
| WStagger        (* await asyncio.sleep(worker_id * 0.01) *)
| WTest           (* while self.running: *)
| WGet            (* await asyncio.wait_for(queue.get(), timeout=0.1) *)
| WCall (request_id : Z) (c : coro (option Result))
                  (* await self._make_request(session, request_id) *)
| WStop.          (* loop left, or task cancelled *)

Inductive controller : Type :=
| Warmup (tasks : list (coro (option Result)))
                  (* warmup_tasks being gathered *)
| Produce (i : Z) (* for i in range(self.num_requests): if not self.running *)
| Put (i : Z)     (* await queue.put(i + 1) *)
| Join            (* await queue.join() *)
| Gather          (* workers cancelled and being gathered *)
| Done.           (* end_time set, _print_results called *)

Record state : Type := {
  running : bool;
  clock : Q;
  ctl : controller;
  queue : list Z;
  unfinished : Z;
  workers : list worker;
  stats : Stats;
  recorded : list Result;
  abandoned : list Z;
  attempted : list Z;
  warmed : list Z
}.

(** What resumes a suspended coroutine. *)
Inductive io : Type :=
| Tau                        (* no await: a read of the flag or the clock *)
| Responds (r : exn + Z)
| BodyRead (r : exn + unit)
| Wakes.

Inductive wact : Type :=
| Proceed                    (* the worker's own next statement *)
| PollTimeout                (* wait_for raises asyncio.TimeoutError *)
| Io (a : io).                (* the awaited _make_request advances *)

Inductive label : Type :=
| Signal                     (* _signal_handler *)
| Tick (d : Q)               (* time passes *)
| Ctl                        (* run() advances *)
| WarmupTask (i : nat) (a : io)
| Work (w : nat) (a : wact).

Definition resume {R : Type} (flag : bool) (now : Q) (a : io) (c : coro R)
    : option (coro R) :=
  match c with
  | Ret _ => None
  | Do e k =>
      match e in event X return (X -> coro R) -> option (coro R) with
      | Running => fun k => match a with Tau => Some (k flag) | _ => None end
      | Now => fun k => match a with Tau => Some (k now) | _ => None end
      | Request => fun k =>
          match a with Responds r => Some (k r) | _ => None end
      | Read => fun k =>
          match a with BodyRead r => Some (k r) | _ => None end
      | Sleep _ => fun k => match a with Wakes => Some (k tt) | _ => None end
      end k
  end.

Definition is_ret {R : Type} (c : coro R) : bool :=
  match c with Ret _ => true | Do _ _ => false end.

Definition sends {R : Type} (c : coro R) : bool :=
  match c with Do Request _ => true | _ => false end.

(** [min(10, self.concurrency // 10, 50)] *)
Definition warmup_count (cfg : config) : Z :=
  Z.min 10 (Z.min (concurrency cfg / 10) 50).

(** [asyncio.Queue(maxsize=self.concurrency * 2).full()]: a queue whose
    [maxsize] is not positive is never full. *)
Definition full (cfg : config) (q : list Z) : bool :=
  let maxsize := concurrency cfg * 2 in
  (0 <? maxsize) && (maxsize <=? Z.of_nat (length q)).

(** The worker tasks as [run] creates them: worker 0 enters its loop,
    the others first sleep [worker_id * 0.01]. *)
Definition create_workers (cfg : config) : list worker :=
  map (fun worker_id => match worker_id with O => WTest | S _ => WStagger end)
      (seq 0 (Z.to_nat (concurrency cfg))).

(** The reset after warmup: six entries of [self.stats] are cleared,
    [start_time] and [end_time] are left alone. *)
Definition reset_stats (st : Stats) : Stats :=
  {| total_requests := 0; successful := 0; failed := 0;
     status_codes := ∅; errors := ∅; response_times := [];
     start_time := start_time st; end_time := end_time st |}.

Definition set_start_time (t : Q) (st : Stats) : Stats :=
  {| total_requests := total_requests st; successful := successful st;
     failed := failed st; status_codes := status_codes st;
     errors := errors st; response_times := response_times st;
     start_time := Some t; end_time := end_time st |}.

Definition set_end_time (t : Q) (st : Stats) : Stats :=
  {| total_requests := total_requests st; successful := successful st;
     failed := failed st; status_codes := status_codes st;
     errors := errors st; response_times := response_times st;
     start_time := start_time st; end_time := Some t |}.

(** [run] up to its first await: [start_time] is taken, then either the
    warmup tasks are gathered or the queue and the workers are created. *)
Definition start (cfg : config) (t0 : Q) : state :=
  {| running := true;
     clock := t0;
     ctl := if 0 <? warmup_count cfg
            then Warmup (map (fun i => _make_request (Z.of_nat i) 0)
                             (seq 0 (Z.to_nat (warmup_count cfg))))
            else Produce 0;
     queue := [];
     unfinished := 0;
     workers := if 0 <? warmup_count cfg then [] else create_workers cfg;
     stats := set_start_time t0 stats_init;
     recorded := [];
     abandoned := [];
     attempted := []; warmed := [] |}.

Definition with_ctl (c : controller) (s : state) : state :=
  {| running := running s; clock := clock s; ctl := c; queue := queue s;
     unfinished := unfinished s; workers := workers s; stats := stats s;
     recorded := recorded s; abandoned := abandoned s;
     attempted := attempted s; warmed := warmed s |}.

Definition with_worker (w : nat) (x : worker) (s : state) : state :=
  {| running := running s; clock := clock s; ctl := ctl s; queue := queue s;
     unfinished := unfinished s; workers := <[w := x]> (workers s);
     stats := stats s; recorded := recorded s; abandoned := abandoned s;
     attempted := attempted s; warmed := warmed s |}.

(** A request of a warm-up call goes out. *)
Definition with_warmed (l : list Z) (s : state) : state :=
  {| running := running s; clock := clock s; ctl := ctl s; queue := queue s;
     unfinished := unfinished s; workers := workers s; stats := stats s;
     recorded := recorded s; abandoned := abandoned s;
     attempted := attempted s; warmed := l |}.

(** [run], one step. *)
Definition step_ctl (cfg : config) (s : state) : option state :=
  match ctl s with
  | Warmup tasks =>
      if forallb is_ret tasks then
        Some {| running := running s; clock := clock s; ctl := Produce 0;
                queue := []; unfinished := 0;
                workers := create_workers cfg;
                stats := reset_stats (stats s);
                recorded := recorded s; abandoned := abandoned s;
     attempted := attempted s; warmed := warmed s |}
      else None
  | Produce i =>
      if i <? num_requests cfg then
        if negb (running s) then Some (with_ctl Join s)
        else Some (with_ctl (Put i) s)
      else Some (with_ctl Join s)
  | Put i =>
      if full cfg (queue s) then None
      else Some {| running := running s; clock := clock s;
                   ctl := Produce (i + 1);
                   queue := queue s ++ [i + 1];
                   unfinished := unfinished s + 1;
                   workers := workers s; stats := stats s;
                   recorded := recorded s; abandoned := abandoned s;
     attempted := attempted s; warmed := warmed s |}
  | Join =>
      if unfinished s =? 0 then
        Some {| running := running s; clock := clock s; ctl := Gather;
                queue := queue s; unfinished := unfinished s;
                workers := map (fun _ => WStop) (workers s);
                stats := stats s;
                recorded := recorded s; abandoned := abandoned s;
     attempted := attempted s; warmed := warmed s |}
      else None
  | Gather =>
      Some {| running := running s; clock := clock s; ctl := Done;
              queue := queue s; unfinished := unfinished s;
              workers := workers s;
              stats := set_end_time (clock s) (stats s);
              recorded := recorded s; abandoned := abandoned s;
     attempted := attempted s; warmed := warmed s |}
  | Done => None
  end.

(** The lines of [_worker] after [_make_request] returns:
    [if result: self._update_stats(result)] and [queue.task_done()]. *)
Definition finish (w : nat) (request_id : Z) (result : option Result)
    (s : state) : state :=
  {| running := running s; clock := clock s; ctl := ctl s; queue := queue s;
     unfinished := unfinished s - 1;
     workers := <[w := WTest]> (workers s);
     stats := match result with
              | Some r => _update_stats (stats s) r
              | None => stats s
              end;
     recorded := match result with
                 | Some r => recorded s ++ [r]
                 | None => recorded s
                 end;
     abandoned := match result with
                  | Some _ => abandoned s
                  | None => abandoned s ++ [request_id]
                  end;
     attempted := attempted s; warmed := warmed s |}.

(** [_worker], one step of worker [w]. *)
Definition step_worker (w : nat) (a : wact) (s : state) : option state :=
  match workers s !! w with
  | None => None
  | Some WStagger =>
      match a with Proceed => Some (with_worker w WTest s) | _ => None end
  | Some WTest =>
      match a with
      | Proceed =>
          Some (with_worker w (if running s then WGet else WStop) s)
      | _ => None
      end
  | Some WGet =>
      match a with
      | Proceed =>
          match queue s with
          | request_id :: rest =>
              Some {| running := running s; clock := clock s; ctl := ctl s;
                      queue := rest; unfinished := unfinished s;
                      workers :=
                        <[w := WCall request_id (_make_request request_id 0)]>
                          (workers s);
                      stats := stats s;
                      recorded := recorded s; abandoned := abandoned s;
     attempted := attempted s; warmed := warmed s |}
          | [] => None
          end
      | PollTimeout => Some (with_worker w WTest s)
      | Io _ => None
      end
  | Some (WCall request_id c) =>
      match a with
      | Proceed =>
          match c with
          | Ret result => Some (finish w request_id result s)
          | Do _ _ => None
          end
      | Io a =>
          c' ← resume (running s) (clock s) a c;
          Some {| running := running s; clock := clock s; ctl := ctl s;
                  queue := queue s; unfinished := unfinished s;
                  workers := <[w := WCall request_id c']> (workers s);
                  stats := stats s; recorded := recorded s;
                  abandoned := abandoned s;
                  attempted := if sends c
                               then attempted s ++ [request_id]
                               else attempted s;
       warmed := warmed s |}
      | PollTimeout => None
      end
  | Some WStop => None
  end.

Definition step (cfg : config) (l : label) (s : state) : option state :=
  match l with
  | Signal =>
      Some {| running := false; clock := clock s; ctl := ctl s;
              queue := queue s; unfinished := unfinished s;
              workers := workers s; stats := stats s;
              recorded := recorded s; abandoned := abandoned s;
     attempted := attempted s; warmed := warmed s |}
  | Tick d =>
      if Qle_bool 0 d then
        Some {| running := running s; clock := (clock s + d)%Q; ctl := ctl s;
                queue := queue s; unfinished := unfinished s;
                workers := workers s; stats := stats s;
                recorded := recorded s; abandoned := abandoned s;
     attempted := attempted s; warmed := warmed s |}
      else None
  | Ctl => step_ctl cfg s
  | WarmupTask i a =>
      match ctl s with
      | Warmup tasks =>
          c ← tasks !! i;
          c' ← resume (running s) (clock s) a c;
          Some (with_warmed
                  (if sends c then warmed s ++ [Z.of_nat i] else warmed s)
                  (with_ctl (Warmup (<[i := c']> tasks)) s))
      | _ => None
      end
  | Work w a => step_worker w a s
  end.

Fixpoint exec (cfg : config) (tr : list label) (s : state) : option state :=
  match tr with
  | [] => Some s
  | l :: tr' => s' ← step cfg l s; exec cfg tr' s'
  end.

(** ** [_print_results]: the figures of the final report

    Only the arithmetic is kept; the [print] calls format these figures,
    and the two histograms are printed sorted, by string key and by
    integer count.  The figures are exact rationals here, where Python
    computes floats: what is proved of them is about which divisions and
    which [min] and [max] are carried out and about relations that
    rounding keeps, never about digits.
    A division by zero ([ZeroDivisionError]), [min] or [max] of an empty
    list ([ValueError]) and a subtraction on an unset timestamp
    ([TypeError]) all give [None]. *)

Definition py_div (a b : Q) : option Q :=
  if Qeq_bool b 0 then None else Some (a / b)%Q.

(** [max(a, b)] on two numbers: [b] when [b > a], else [a]. *)
Definition py_max2 (a b : Q) : Q :=
  if Qle_bool b a then a else b.

Definition py_sum (l : list Q) : Q := fold_left Qplus l 0%Q.

Definition py_min (l : list Q) : option Q :=
  match l with
  | [] => None
  | x :: l' => Some (fold_left (fun m y => if Qle_bool m y then m else y) l' x)
  end.

Definition py_max (l : list Q) : option Q :=
  match l with
  | [] => None
  | x :: l' => Some (fold_left (fun m y => if Qle_bool y m then m else y) l' x)
  end.

Record Report : Type := {
  rep_total : Z;
  rep_successful_pct : Q;
  rep_failed_pct : Q;
  rep_duration : Q;
  rep_per_sec : Q;
  rep_times : option (Q * Q * Q)       (* average, min, max *)
}.

Definition _print_results (st : Stats) : option Report :=
  t_end ← end_time st;
  t_start ← start_time st;
  let duration := (t_end - t_start)%Q in
  let total := total_requests st in
  ok ← py_div (inject_Z (successful st)) (inject_Z (Z.max total 1));
  ko ← py_div (inject_Z (failed st)) (inject_Z (Z.max total 1));
  rps ← py_div (inject_Z total) (py_max2 duration (1 # 10));
  times ←
    match response_times st with
    | [] => Some None
    | ts =>
        avg_time ← py_div (py_sum ts) (inject_Z (Z.of_nat (length ts)));
        min_time ← py_min ts;
        max_time ← py_max ts;
        Some (Some (avg_time, min_time, max_time))
    end;
  Some {| rep_total := total;
          rep_successful_pct := (ok * 100)%Q;
          rep_failed_pct := (ko * 100)%Q;
          rep_duration := duration;
          rep_per_sec := rps;
          rep_times := times |}.

(** ** Executions

    [wp E c n P]: however coroutine [c] is resumed within environment [E],
    after [n] requests already sent, it can only return a value [r] with
    [P m r], [m] being the number of requests sent by then. *)

Record env : Type := {
  env_flag : bool -> Prop;            (* values [self.running] may take *)
  env_request : exn + Z -> Prop;      (* ways a request may end *)
  env_read : exn + unit -> Prop       (* ways a body read may end *)
}.

Fixpoint wp {R : Type} (E : env) (c : coro R) (n : nat)
    (P : nat -> R -> Prop) : Prop :=
  match c with
  | Ret r => P n r
  | Do e k =>
      match e in event X return (X -> coro R) -> Prop with
      | Running => fun k => forall b, env_flag E b -> wp E (k b) n P
      | Now => fun k => forall t, wp E (k t) n P
      | Request => fun k => forall r, env_request E r -> wp E (k r) (S n) P
      | Read => fun k => forall r, env_read E r -> wp E (k r) n P
      | Sleep _ => fun k => wp E (k tt) n P
      end k
  end.

Definition io_ok (E : env) (a : io) : Prop :=
  match a with
  | Responds r => env_request E r
  | BodyRead r => env_read E r
  | Tau | Wakes => True
  end.

Definition label_ok (E : env) (l : label) : Prop :=
  match l with
  | Signal => env_flag E false
  | WarmupTask _ a | Work _ (Io a) => io_ok E a
  | _ => True
  end.

(** Any outcome at all. *)
Definition any_env : env :=
  {| env_flag := fun _ => True;
     env_request := fun _ => True;
     env_read := fun _ => True |}.

(** No signal arrives and every request times out. *)
Definition timeout_env : env :=
  {| env_flag := fun b => b = true;
     env_request := fun r =>
       exists e, r = inl e /\ isinstance e TimeoutError = true;
     env_read := fun _ => True |}.

(** How often [id] occurs in a list, and which workers hold it. *)
Definition hits (id : Z) (l : list Z) : nat :=
  sum_list_with (fun x => if decide (x = id) then 1%nat else 0%nat) l.

Definition holds (id : Z) (x : worker) : nat :=
  match x with
  | WCall id' _ => if decide (id' = id) then 1%nat else 0%nat
  | _ => 0%nat
  end.

Definition busy (x : worker) : nat :=
  match x with WCall _ _ => 1%nat | _ => 0%nat end.

(** Where an identifier put on the queue can be: still queued, held by a
    worker, recorded, or abandoned. *)
Definition occ (id : Z) (s : state) : nat :=
  (hits id (map request_id (recorded s)) + hits id (abandoned s)
   + hits id (queue s) + sum_list_with (holds id) (workers s))%nat.

(** The identifiers put so far are [1 .. limit]. *)
Definition limit (cfg : config) (c : controller) : Z :=
  match c with
  | Warmup _ => 0
  | Produce i | Put i => i
  | Join | Gather | Done => Z.max 0 (num_requests cfg)
  end.

Definition settled (s : state) : Z :=
  Z.of_nat (length (recorded s) + length (abandoned s)) + unfinished s.

(** The statistics with its six counters cleared. *)
Definition fresh (t_start t_end : option Q) : Stats :=
  {| total_requests := 0; successful := 0; failed := 0;
     status_codes := ∅; errors := ∅; response_times := [];
     start_time := t_start; end_time := t_end |}.

Definition tally (rs : list Result) (st : Stats) : Stats :=
  fold_left _update_stats rs st.

Record inv (cfg : config) (E : env)
    (Post : Z -> nat -> option Result -> Prop) (s : state) : Prop := {
  inv_flag : env_flag E (running s);
  inv_call : forall w id c,
    workers s !! w = Some (WCall id c) ->
    wp E c (hits id (attempted s)) (Post id);
  inv_recorded : forall r,
    r ∈ recorded s ->
    Post (request_id r) (hits (request_id r) (attempted s)) (Some r);
  inv_abandoned : forall id,
    id ∈ abandoned s -> exists n, Post id n None;
  inv_occ : forall id,
    (occ id s <= 1)%nat /\
    ((1 <= occ id s)%nat -> 1 <= id <= limit cfg (ctl s));
  inv_attempted : forall id,
    id ∈ attempted s -> 1 <= id <= limit cfg (ctl s) /\ id ∉ queue s;
  inv_unfinished :
    unfinished s
    = Z.of_nat (length (queue s) + sum_list_with busy (workers s));
  inv_stats :
    stats s = tally (recorded s)
                (fresh (start_time (stats s)) (end_time (stats s)));
  inv_ctl :
    match ctl s with
    | Warmup _ =>
        workers s = [] /\ queue s = [] /\ unfinished s = 0 /\
        recorded s = [] /\ abandoned s = [] /\ attempted s = []
    | Produce i => 0 <= i <= Z.max 0 (num_requests cfg) /\ settled s = i
    | Put i => 0 <= i < num_requests cfg /\ settled s = i
    | Join => settled s <= Z.max 0 (num_requests cfg) /\
              (~ env_flag E false -> settled s = Z.max 0 (num_requests cfg))
    | Gather | Done =>
        unfinished s = 0 /\
        settled s <= Z.max 0 (num_requests cfg) /\
        (~ env_flag E false -> settled s = Z.max 0 (num_requests cfg))
    end
}.

Definition reachable (cfg : config) (E : env) (s : state) : Prop :=
  exists t0 tr,
    Forall (label_ok E) tr /\ exec cfg tr (start cfg t0) = Some s.

(** ** What the [except] clauses amount to

    [verdict e] is the status, [error_type] and [error] that the first
    matching clause gives exception [e] once it no longer retries. *)

Definition connection_failure (e : exn) : bool :=
  isinstance e ClientConnectorError
  || isinstance e ServerConnectionError
  || isinstance e ConnectionError.

Definition retried (e : exn) : bool :=
  isinstance e TimeoutError
  || connection_failure e
  || isinstance e ClientProxyConnectionError.

Definition verdict (e : exn) : status * string * string :=
  if isinstance e TimeoutError then
    (Sentinel "TIMEOUT", "TimeoutError", "Request timed out after 30 seconds")
  else if connection_failure e then
    (Sentinel "CONNECTION_ERROR", class_name (exc_class e), exc_str e)
  else if isinstance e ClientProxyConnectionError then
    (Sentinel "PROXY_ERROR", "ClientProxyConnectionError", exc_str e)
  else if isinstance e ClientResponseError then
    (Code (exc_status e), "ClientResponseError",
     "HTTP " +:+ pretty (exc_status e) +:+ ": " +:+ exc_message e)
  else
    (Sentinel "ERROR", class_name (exc_class e), exc_str e).

Definition failure_dict (id : Z) (elapsed : Q)
    (v : status * string * string) : Result :=
  {| request_id := id;
     status_code := v.1.1;
     response_time := elapsed;
     success := false;
     error_type := Some v.1.2;
     error := Some v.2 |}.

(** A returned result carries the identifier it was asked for. *)
Definition keeps_id (id : Z) (n : nat) (r : option Result) : Prop :=
  forall res, r = Some res -> request_id res = id.

(** The shape of every result: its identifier, a status other than
    ['PROXY_ERROR'], and [success] decided by the status code when there is
    no error kind and false when there is one. *)
Definition shaped (id : Z) (n : nat) (r : option Result) : Prop :=
  forall res,
    r = Some res ->
    request_id res = id /\
    status_code res <> Sentinel "PROXY_ERROR" /\
    (error_type res = None ->
       exists code,
         status_code res = Code code /\
         success res = (200 <=? code) && (code <? 400)) /\
    (error_type res <> None -> success res = false).

(** The result of a request that timed out four times. *)
Definition timeout_key : string :=
  "TimeoutError: Request timed out after 30 seconds".

Definition timed_out_result (id : Z) (res : Result) : Prop :=
  request_id res = id /\
  status_code res = Sentinel "TIMEOUT" /\
  success res = false /\
  error_type res = Some "TimeoutError" /\
  error res = Some "Request timed out after 30 seconds".

Definition timed_out_four_times (id : Z) (n : nat) (r : option Result)
    : Prop :=
  n = 4%nat /\ exists res, r = Some res /\ timed_out_result id res.

(** Four attempts that all fail the same retried way, the flag staying
    set: the three backoffs are slept and the fourth activation answers. *)
Definition four_failures (e1 e2 e3 e4 : exn) (t1 t2 t3 t4 l1 l2 l3 : Q)
    : list answer :=
  [AReq (inl e1) t1 false; ASleep l1 false;
   AReq (inl e2) t2 false; ASleep l2 false;
   AReq (inl e3) t3 false; ASleep l3 false;
   AReq (inl e4) t4 false].

Definition after_four (w : world) (t1 t2 t3 t4 l1 l2 l3 : Q) : world :=
  pass (sent
    (pass (slept
      (pass (sent
        (pass (slept
          (pass (sent
            (pass (slept
              (pass (sent w) t1 false)
              (backoff 0)) (backoff 0 + l1) false))
            t2 false)
          (backoff 1)) (backoff 1 + l2) false))
        t3 false)
      (backoff 2)) (backoff 2 + l3) false))
    t4 false.

(** A world in which the flag is set, and two exceptions. *)
Definition world0 : world :=
  {| w_running := true; w_now := 0; w_attempts := 0; w_sleeps := [] |}.

Definition refused : exn :=
  {| exc_class := ConnectionRefusedError;
     exc_str := "[Errno 111] Connection refused";
     exc_status := 0; exc_message := "" |}.

Definition proxy_down (msg : string) : exn :=
  {| exc_class := ClientProxyConnectionError; exc_str := msg;
     exc_status := 0; exc_message := "" |}.

(** ** Sample runs *)

(** Statistics that hold [n] results, all of them exhausted timeouts. *)
Definition only_timeouts (n : nat) (st : Stats) : Prop :=
  total_requests st = Z.of_nat n /\
  successful st = 0 /\
  failed st = Z.of_nat n /\
  errors st = (if n is O then ∅ else {[ timeout_key := Z.of_nat n ]}) /\
  status_codes st = (if n is O then ∅ else {[ "TIMEOUT" := Z.of_nat n ]}).

Definition cfg_20_4 : config := {| num_requests := 20; concurrency := 4 |}.

Definition timed_out : exn :=
  {| exc_class := TimeoutError; exc_str := "";
     exc_status := 0; exc_message := "" |}.

(** Worker [w] takes the next identifier, put on the queue just before,
    and all four attempts of its request time out. *)
Definition timeouts_of_worker (w : nat) : list label :=
  [Ctl; Ctl; Work w Proceed; Work w Proceed]
  ++ concat (replicate 3
       [Work w (Io Tau); Work w (Io Tau);
        Work w (Io (Responds (inl timed_out))); Tick 30;
        Work w (Io Wakes)])
  ++ [Work w (Io Tau); Work w (Io Tau);
      Work w (Io (Responds (inl timed_out))); Tick 30;
      Work w (Io Tau); Work w Proceed].

(** A run of 20 requests on 4 workers taking turns, every attempt timing
    out, up to the final report. *)
Definition all_timeouts_trace : list label :=
  [Work 1 Proceed; Work 2 Proceed; Work 3 Proceed]
  ++ flat_map (fun i => timeouts_of_worker (i mod 4)) (seq 0 20)
  ++ [Ctl; Ctl; Ctl].

(** Three requests on one worker; the signal arrives while the first
    request is in flight, after [run] has put all three identifiers. *)
Definition cfg_3_1 : config := {| num_requests := 3; concurrency := 1 |}.

Definition interrupted_trace : list label :=
  [Ctl; Ctl; Ctl; Ctl; Ctl;                    (* put 1, put 2, queue full *)
   Work 0 Proceed; Work 0 Proceed;             (* worker 0 gets 1 *)
   Work 0 (Io Tau); Work 0 (Io Tau);           (* flag set; start_time *)
   Ctl; Ctl;                                   (* put 3; loop over: join *)
   Signal; Tick (1 # 20);
   Work 0 (Io (Responds (inr 200))); Work 0 (Io Tau);
   Work 0 (Io (BodyRead (inr tt)));
   Work 0 Proceed;                             (* record, task_done *)
   Work 0 Proceed].                            (* while self.running: no *)

(** The state a run is in once the flag is cleared, the loop of [run] is
    over, every worker has left its loop and items are still unfinished. *)
Definition stranded (s : state) : Prop :=
  ctl s = Join /\ 0 < unfinished s /\
  Forall (fun x => x = WStop) (workers s) /\
  end_time (stats s) = None.

(** One request on ten workers, so that [warmup_count] is 1: the warmup
    request takes 5 seconds, the measured request 2. *)
Definition cfg_1_10 : config := {| num_requests := 1; concurrency := 10 |}.

Definition warmup_trace : list label :=
  [WarmupTask 0 Tau; WarmupTask 0 Tau; Tick 5;
   WarmupTask 0 (Responds (inr 200)); WarmupTask 0 Tau;
   WarmupTask 0 (BodyRead (inr tt));
   Ctl].                                       (* reset; queue and workers *)

Definition measured_trace : list label :=
  [Ctl; Ctl;                                   (* put 1 *)
   Work 0 Proceed; Work 0 Proceed;             (* worker 0 gets 1 *)
   Work 0 (Io Tau); Work 0 (Io Tau); Tick 2;
   Work 0 (Io (Responds (inr 200))); Work 0 (Io Tau);
   Work 0 (Io (BodyRead (inr tt)));
   Work 0 Proceed;                             (* record, task_done *)
   Ctl; Ctl; Ctl].                             (* join, gather, end_time *)

(** One request on one worker: its first attempt times out and the signal
    arrives during the backoff sleep. *)
Definition cfg_1_1 : config := {| num_requests := 1; concurrency := 1 |}.

Definition dequeue_trace : list label :=
  [Ctl; Ctl;                                   (* put 1 *)
   Work 0 Proceed; Work 0 Proceed;             (* worker 0 gets 1 *)
   Work 0 (Io Tau); Work 0 (Io Tau); Tick 30;
   Work 0 (Io (Responds (inl timed_out)))].     (* now sleeping 0.1 *)

Definition stop_trace : list label :=
  [Signal; Tick (1 # 10);
   Work 0 (Io Wakes);
   Work 0 (Io Tau);                            (* if not self.running *)
   Work 0 Proceed;                             (* no result; task_done *)
   Work 0 Proceed;                             (* while self.running: no *)
   Ctl; Ctl; Ctl].                             (* join, gather, end_time *)

(** What a run keeps true of its timestamps. *)
Definition timing (t0 : Q) (s : state) : Prop :=
  start_time (stats s) = Some t0 /\
  (t0 <= clock s)%Q /\
  match ctl s with
  | Warmup _ =>
      stats s = set_start_time t0 stats_init /\
      recorded s = [] /\ workers s = []
  | Done =>
      exists t_end,
        end_time (stats s) = Some t_end /\
        (t0 <= t_end)%Q /\ (t_end <= clock s)%Q
  | _ => end_time (stats s) = None
  end.

(** ** The steps of a run, one by one

    [transition cfg s l s'] lists the cases of [step]: what must hold of
    [s] for label [l] to be taken, and the state it leads to. *)

Inductive transition (cfg : config) (s : state) : label -> state -> Prop :=
| t_signal :
    transition cfg s Signal
      (Build_state false (clock s) (ctl s) (queue s) (unfinished s)
         (workers s) (stats s) (recorded s) (abandoned s) (attempted s) (warmed s))
| t_tick d :
    (0 <= d)%Q ->
    transition cfg s (Tick d)
      (Build_state (running s) (clock s + d)%Q (ctl s) (queue s)
         (unfinished s) (workers s) (stats s) (recorded s) (abandoned s)
         (attempted s) (warmed s))
| t_launch tasks :
    ctl s = Warmup tasks -> forallb is_ret tasks = true ->
    transition cfg s Ctl
      (Build_state (running s) (clock s) (Produce 0) [] 0
         (create_workers cfg) (reset_stats (stats s)) (recorded s)
         (abandoned s) (attempted s) (warmed s))
| t_next i :
    ctl s = Produce i -> i < num_requests cfg -> running s = true ->
    transition cfg s Ctl (with_ctl (Put i) s)
| t_break i :
    ctl s = Produce i -> i < num_requests cfg -> running s = false ->
    transition cfg s Ctl (with_ctl Join s)
| t_exhausted i :
    ctl s = Produce i -> num_requests cfg <= i ->
    transition cfg s Ctl (with_ctl Join s)
| t_put i :
    ctl s = Put i -> full cfg (queue s) = false ->
    transition cfg s Ctl
      (Build_state (running s) (clock s) (Produce (i + 1))
         (queue s ++ [i + 1]) (unfinished s + 1) (workers s) (stats s)
         (recorded s) (abandoned s) (attempted s) (warmed s))
| t_join :
    ctl s = Join -> unfinished s = 0 ->
    transition cfg s Ctl
      (Build_state (running s) (clock s) Gather (queue s) (unfinished s)
         (map (fun _ => WStop) (workers s)) (stats s) (recorded s)
         (abandoned s) (attempted s) (warmed s))
| t_gather :
    ctl s = Gather ->
    transition cfg s Ctl
      (Build_state (running s) (clock s) Done (queue s) (unfinished s)
         (workers s) (set_end_time (clock s) (stats s)) (recorded s)
         (abandoned s) (attempted s) (warmed s))
| t_warmup i a tasks c c' :
    ctl s = Warmup tasks -> tasks !! i = Some c ->
    resume (running s) (clock s) a c = Some c' ->
    transition cfg s (WarmupTask i a)
      (with_warmed
         (if sends c then warmed s ++ [Z.of_nat i] else warmed s)
         (with_ctl (Warmup (<[i := c']> tasks)) s))
| t_stagger w :
    workers s !! w = Some WStagger ->
    transition cfg s (Work w Proceed) (with_worker w WTest s)
| t_test w :
    workers s !! w = Some WTest ->
    transition cfg s (Work w Proceed)
      (with_worker w (if running s then WGet else WStop) s)
| t_get w id rest :
    workers s !! w = Some WGet -> queue s = id :: rest ->
    transition cfg s (Work w Proceed)
      (Build_state (running s) (clock s) (ctl s) rest (unfinished s)
         (<[w := WCall id (_make_request id 0)]> (workers s)) (stats s)
         (recorded s) (abandoned s) (attempted s) (warmed s))
| t_poll w :
    workers s !! w = Some WGet ->
    transition cfg s (Work w PollTimeout) (with_worker w WTest s)
| t_io w id c a c' :
    workers s !! w = Some (WCall id c) ->
    resume (running s) (clock s) a c = Some c' ->
    transition cfg s (Work w (Io a))
      (Build_state (running s) (clock s) (ctl s) (queue s) (unfinished s)
         (<[w := WCall id c']> (workers s)) (stats s) (recorded s)
         (abandoned s)
         (if sends c then attempted s ++ [id] else attempted s)
         (warmed s))
| t_finish w id result :
    workers s !! w = Some (WCall id (Ret result)) ->
    transition cfg s (Work w Proceed) (finish w id result s).

(** ** Where the identifiers are

    [taken s] counts the identifiers taken from the queue so far: those
    recorded, those abandoned and those a worker holds. *)
Definition taken (s : state) : nat :=
  (length (recorded s) + length (abandoned s)
   + sum_list_with busy (workers s))%nat.

Record shape (cfg : config) (s : state) : Prop := {
  shape_workers :
    length (workers s)
    = match ctl s with
      | Warmup _ => 0%nat
      | _ => Z.to_nat (concurrency cfg)
      end;
  shape_bound :
    0 < concurrency cfg ->
    Z.of_nat (length (queue s)) <= 2 * concurrency cfg;
  shape_fifo :
    queue s = seqZ (Z.of_nat (taken s) + 1) (Z.of_nat (length (queue s)));
  shape_kept : forall id,
    (1 <= occ id s)%nat <->
    1 <= id <= Z.of_nat (taken s + length (queue s))
}.

(** ** After the flag is cleared

    [sends_at_most c b]: resumed with the flag clear, coroutine [c] sends
    at most [b] more requests.  [winds_down c]: whenever the flag is
    cleared, now or later, [c] sends at most one more request.
    [returns_none c]: resumed with the flag clear, [c] can only return
    [None]. *)

Fixpoint sends_at_most {R : Type} (c : coro R) (b : nat) : Prop :=
  match c with
  | Ret _ => True
  | Do e k =>
      match e in event X return (X -> coro R) -> Prop with
      | Running => fun k => sends_at_most (k false) b
      | Now => fun k => forall t, sends_at_most (k t) b
      | Request => fun k =>
          match b with
          | O => False
          | S b' => forall r, sends_at_most (k r) b'
          end
      | Read => fun k => forall r, sends_at_most (k r) b
      | Sleep _ => fun k => sends_at_most (k tt) b
      end k
  end.

Fixpoint winds_down {R : Type} (c : coro R) : Prop :=
  sends_at_most c 1 /\
  match c with
  | Ret _ => True
  | Do e k =>
      match e in event X return (X -> coro R) -> Prop with
      | Running => fun k => winds_down (k true)
      | Now => fun k => forall t, winds_down (k t)
      | Request => fun k => forall r, winds_down (k r)
      | Read => fun k => forall r, winds_down (k r)
      | Sleep _ => fun k => winds_down (k tt)
      end k
  end.

Definition stop_env : env :=
  {| env_flag := fun b => b = false;
     env_request := fun _ => True;
     env_read := fun _ => True |}.

Definition returns_none (c : coro (option Result)) : Prop :=
  forall n, wp stop_env c n (fun _ r => r = None).

(** What the workers together may still do: [budget cost ws n] when the
    calls in flight in [ws] have costs that add up to [n]. *)
Inductive budget (cost : coro (option Result) -> nat -> Prop)
    : list worker -> nat -> Prop :=
| budget_nil : budget cost [] 0
| budget_idle x ws n :
    busy x = 0%nat -> budget cost ws n -> budget cost (x :: ws) n
| budget_call id c b ws n :
    cost c b -> budget cost ws n ->
    budget cost (WCall id c :: ws) (b + n).

(** A call may still hand a result to [_update_stats] unless it can only
    return [None]. *)
Definition yields_at_most (c : coro (option Result)) (b : nat) : Prop :=
  match b with
  | O => returns_none c
  | S _ => True
  end.

Definition costs (cost : coro (option Result) -> nat -> Prop) (x : worker)
    (b : nat) : Prop :=
  match x with
  | WCall _ c => cost c b
  | _ => b = 0%nat
  end.

(** [winding cost done K s]: the flag is clear, and what is done plus what
    the calls in flight may still cost stays within [K]. *)
Definition winding (cost : coro (option Result) -> nat -> Prop)
    (done : state -> nat) (K : nat) (s : state) : Prop :=
  running s = false /\
  exists n, budget cost (workers s) n /\ (done s + n <= K)%nat.

Definition put_pending (c : controller) : Z :=
  match c with Put _ => 1 | _ => 0 end.

(** ** What the histograms hold *)

(** [sum(d.values())] *)
Definition total_of (d : gmap string Z) : Z :=
  map_fold (fun _ v acc => v + acc) 0 d.

(** The failures without an ['error_type']: [_update_stats] counts them as
    failed and leaves the error histogram alone. *)
Definition plain_failures (rs : list Result) : Z :=
  Z.of_nat
    (sum_list_with
       (fun r =>
          if success r then 0%nat
          else if error_type r is Some _ then 0%nat else 1%nat) rs).

Definition counts_from_one (d : gmap string Z) : Prop :=
  forall k n, d !! k = Some n -> 1 <= n.

(** ** Requests per identifier

    [counted_out id n r]: at most [max_retries + 1] requests were sent for
    [id], and at least one when there is a result. *)
Definition counted_out (id : Z) (n : nat) (r : option Result) : Prop :=
  (n <= S max_retries)%nat /\
  forall res, r = Some res -> request_id res = id /\ (1 <= n)%nat.

(** No signal arrives; requests and body reads end in any way. *)
Definition calm_env : env :=
  {| env_flag := fun b => b = true;
     env_request := fun _ => True;
     env_read := fun _ => True |}.

(** [answered id n r]: [r] is a result for [id], obtained with one to
    [max_retries + 1] requests. *)
Definition answered (id : Z) (n : nat) (r : option Result) : Prop :=
  (1 <= n <= S max_retries)%nat /\
  exists res, r = Some res /\ request_id res = id.


(** Every request is answered with status [code] and a body that reads
    fine; no signal arrives. *)
Definition status_env (code : Z) : env :=
  {| env_flag := fun b => b = true;
     env_request := fun r => r = inr code;
     env_read := fun r => r = inr tt |}.

(** [served code id n r]: [r] is the result of one request for [id]
    answered with status [code]. *)
Definition served (code : Z) (id : Z) (n : nat) (r : option Result) : Prop :=
  n = 1%nat /\
  exists res,
    r = Some res /\ request_id res = id /\
    status_code res = Code code /\
    success res = (200 <=? code) && (code <? 400) /\
    error_type res = None.

(** Statistics that hold [n] results, all of them with status [code]. *)
Definition only_status (code : Z) (n : nat) (st : Stats) : Prop :=
  total_requests st = Z.of_nat n /\
  successful st
    = (if (200 <=? code) && (code <? 400) then Z.of_nat n else 0) /\
  failed st = (if (200 <=? code) && (code <? 400) then 0 else Z.of_nat n) /\
  errors st = ∅ /\
  status_codes st = (if n is O then ∅ else {[ pretty code := Z.of_nat n ]}).

(** An [aiohttp.ClientResponseError] that carries status 200. *)
Definition by_status_200 : exn :=
  {| exc_class := ClientResponseError; exc_str := "200, message='OK'";
     exc_status := 200; exc_message := "OK" |}.

(** ** [main]: the headers given with [-H]

    A Python [str] is a sequence of code points.  [isspace] tells which
    characters [str.strip()] removes from both ends; [py_isspace] lists
    those for which [str.isspace()] holds.  [split1] is
    [header.split(':', 1)]: one piece when there is no colon, else the
    text before the first colon and the text after it.  Unpacking
    [key, value] from anything but two pieces raises [ValueError], which
    is [None] here. *)

Definition str : Type := list Z.

Definition colon : Z := 58.

Definition py_isspace (c : Z) : bool :=
  ((9 <=? c) && (c <=? 13)) || ((28 <=? c) && (c <=? 32))
  || (c =? 133) || (c =? 160) || (c =? 5760)
  || ((8192 <=? c) && (c <=? 8202))
  || (c =? 8232) || (c =? 8233) || (c =? 8239) || (c =? 8287)
  || (c =? 12288).

Fixpoint lstrip (isspace : Z -> bool) (s : str) : str :=
  match s with
  | [] => []
  | c :: s' => if isspace c then lstrip isspace s' else s
  end.

Definition rstrip (isspace : Z -> bool) (s : str) : str :=
  reverse (lstrip isspace (reverse s)).

Definition strip (isspace : Z -> bool) (s : str) : str :=
  rstrip isspace (lstrip isspace s).

(** [':' in header] *)
Definition has_colon (header : str) : bool := bool_decide (colon ∈ header).

Fixpoint split1 (header : str) : list str :=
  match header with
  | [] => [[]]
  | c :: rest =>
      if c =? colon then [[]; rest]
      else match split1 rest with
           | piece :: pieces => (c :: piece) :: pieces
           | [] => [[c]]
           end
  end.

(** The loop [for header in args.header]. *)
Fixpoint add_headers (isspace : Z -> bool) (given : list str)
    (headers : gmap str str) : option (gmap str str) :=
  match given with
  | [] => Some headers
  | header :: given' =>
      if has_colon header then
        match split1 header with
        | [key; value] =>
            add_headers isspace given'
              (<[strip isspace key := strip isspace value]> headers)
        | _ => None
        end
      else add_headers isspace given' headers
  end.

(** [args.header] is [None] when no [-H] was given. *)
Definition parse_headers (isspace : Z -> bool) (arg : option (list str))
    : option (gmap str str) :=
  match arg with
  | None | Some [] => Some ∅
  | Some given => add_headers isspace given ∅
  end.

(** No whitespace at either end. *)
Definition stripped (isspace : Z -> bool) (s : str) : Prop :=
  strip isspace s = s.

(** ** Where a run can go without a signal

    [leads cfg s s']: some steps, none of them a signal, take the run from
    [s] to [s']. *)
Definition leads (cfg : config) (s s' : state) : Prop :=
  exists tr, Forall (label_ok calm_env) tr /\ exec cfg tr s = Some s'.

(** [run] is past the warm-up and has not cancelled the workers yet. *)
Definition producing (c : controller) : Prop :=
  match c with
  | Produce _ | Put _ | Join => True
  | _ => False
  end.

(** The warm-up tasks that have not returned yet. *)
Definition pending (tasks : list (coro (option Result))) : nat :=
  sum_list_with (fun c => if is_ret c then 0%nat else 1%nat) tasks.

(** One request and no worker: [-n 1 -c 0]. *)
Definition cfg_1_0 : config := {| num_requests := 1; concurrency := 0 |}.

(** ** The warm-up calls *)

Definition tasks_of (c : controller) : list (coro (option Result)) :=
  match c with
  | Warmup tasks => tasks
  | _ => []
  end.

(** What the warm-up calls together may still do: [owing cost tasks n]
    when the costs of the tasks add up to [n]. *)
Inductive owing (cost : coro (option Result) -> nat -> Prop)
    : list (coro (option Result)) -> nat -> Prop :=
| owing_nil : owing cost [] 0
| owing_cons c b cs n :
    cost c b -> owing cost cs n -> owing cost (c :: cs) (b + n).

(** [winding_down K s]: the flag is clear, and the requests sent so far
    plus those the calls in flight may still send stay within [K]. *)
Definition winding_down (K : nat) (s : state) : Prop :=
  running s = false /\
  exists n m,
    budget sends_at_most (workers s) n /\
    owing sends_at_most (tasks_of (ctl s)) m /\
    (length (attempted s) + length (warmed s) + n + m <= K)%nat.

(** [warm cfg E Post s]: the requests of the warm-up calls are those of
    the identifiers [0 .. warmup_count - 1]; while the calls are gathered,
    call [i] can only return with [Post i]; afterwards each has returned
    so. *)
Record warm (cfg : config) (E : env)
    (Post : Z -> nat -> option Result -> Prop) (s : state) : Prop := {
  warm_ids : forall id, id ∈ warmed s -> 0 <= id < warmup_count cfg;
  warm_len : forall tasks,
    ctl s = Warmup tasks -> Z.of_nat (length tasks) = warmup_count cfg;
  warm_task : forall tasks i c,
    ctl s = Warmup tasks -> tasks !! i = Some c ->
    wp E c (hits (Z.of_nat i) (warmed s)) (Post (Z.of_nat i));
  warm_done :
    tasks_of (ctl s) = [] ->
    forall id, 0 <= id < warmup_count cfg ->
    exists r, Post id (hits id (warmed s)) r
}.

(** * Properties *)

(** [Forall P [x1; ...; xn]] on a literal list, each [P xi] by evaluation. *)
Ltac forall_by_computation :=
  repeat (apply Forall_cons_2; [vm_compute; auto|]); apply Forall_nil_2.

(** ** Unfolding [_make_request] *)

Lemma _make_request_unfold (request_id : Z) (retry_count : nat) :
  (retry_count < max_retries)%nat ->
  _make_request request_id retry_count =
  attempt request_id retry_count (_make_request request_id (S retry_count)).
Proof.
  intros H. unfold _make_request.
  replace (max_retries - retry_count)%nat
    with (S (max_retries - S retry_count)) by lia.
  reflexivity.
Qed.

Lemma _make_request_last (request_id : Z) (retry_count : nat) :
  (max_retries <= retry_count)%nat ->
  _make_request request_id retry_count =
  attempt request_id retry_count (Ret None).
Proof.
  intros H. unfold _make_request.
  replace (max_retries - retry_count)%nat with O by lia.
  reflexivity.
Qed.

Lemma _make_request_attempt (request_id : Z) (retry_count : nat) :
  exists again,
    _make_request request_id retry_count =
    attempt request_id retry_count again.
Proof.
  unfold _make_request.
  destruct (max_retries - retry_count)%nat; simpl; eauto.
Qed.

(** ** [interp] on the pieces of [_make_request] *)

Section Interp.
Variables (rid : Z) (tries : nat).
Variable again : coro (option Result).

Lemma interp_stopped w script :
  w_running w = false ->
  interp (attempt rid tries again) w script = Some (None, w).
Proof. intros H. simpl. rewrite H. reflexivity. Qed.

Lemma interp_raise w e elapsed sigint script :
  w_running w = true ->
  interp (attempt rid tries again) w
         (AReq (inl e) elapsed sigint :: script) =
  interp (except_clauses rid tries (w_now w) again e)
         (pass (sent w) elapsed sigint) script.
Proof. intros H. simpl. rewrite H. reflexivity. Qed.

Lemma interp_read_raise w code e elapsed sigint elapsed' sigint' script :
  w_running w = true ->
  interp (attempt rid tries again) w
         (AReq (inr code) elapsed sigint
          :: ARead (inl e) elapsed' sigint' :: script) =
  interp (except_clauses rid tries (w_now w) again e)
         (pass (pass (sent w) elapsed sigint) elapsed' sigint') script.
Proof. intros H. simpl. rewrite H. reflexivity. Qed.

Lemma interp_response w code elapsed sigint elapsed' sigint' script :
  w_running w = true ->
  interp (attempt rid tries again) w
         (AReq (inr code) elapsed sigint
          :: ARead (inr tt) elapsed' sigint' :: script) =
  Some (Some {| request_id := rid;
                status_code := Code code;
                response_time := (w_now w + elapsed - w_now w)%Q;
                success := (200 <=? code) && (code <? 400);
                error_type := None;
                error := None |},
        pass (pass (sent w) elapsed sigint) elapsed' sigint').
Proof. intros H. simpl. rewrite H. reflexivity. Qed.

Lemma interp_retry w start e late sigint script :
  retried e = true ->
  (tries < max_retries)%nat ->
  interp (except_clauses rid tries start again e) w
         (ASleep late sigint :: script) =
  interp again
         (pass (slept w (backoff tries))
               (backoff tries + late) sigint)
         script.
Proof.
  intros He Hlt. apply Nat.ltb_lt in Hlt.
  unfold retried, connection_failure in He.
  unfold except_clauses, retry_or. rewrite Hlt.
  destruct (isinstance e TimeoutError); [reflexivity|].
  destruct (isinstance e ClientConnectorError
            || isinstance e ServerConnectionError
            || isinstance e ConnectionError); [reflexivity|].
  simpl in He. rewrite He. reflexivity.
Qed.



Lemma interp_connection_exhausted w start e script :
  isinstance e TimeoutError = false ->
  connection_failure e = true ->
  (max_retries <= tries)%nat ->
  interp (except_clauses rid tries start again e) w script =
  Some (Some {| request_id := rid;
                status_code := Sentinel "CONNECTION_ERROR";
                response_time := (w_now w - start)%Q;
                success := false;
                error_type := Some (class_name (exc_class e));
                error := Some (exc_str e) |}, w).
Proof.
  intros Ht He Hge. apply Nat.ltb_ge in Hge.
  unfold connection_failure in He.
  unfold except_clauses, retry_or. rewrite Ht, He, Hge. reflexivity.
Qed.
End Interp.

Lemma retried_timeout e : isinstance e TimeoutError = true -> retried e = true.
Proof. intros H. unfold retried. rewrite H. reflexivity. Qed.

Lemma retried_connection e : connection_failure e = true -> retried e = true.
Proof.
  intros H. unfold retried. rewrite H. apply orb_true_iff. left.
  apply orb_true_r.
Qed.


Lemma four_retried_failures id w e1 e2 e3 e4 t1 t2 t3 t4 l1 l2 l3 :
  w_running w = true ->
  retried e1 = true -> retried e2 = true -> retried e3 = true ->
  interp (_make_request id 0) w (four_failures e1 e2 e3 e4 t1 t2 t3 t4 l1 l2 l3)
  = interp (except_clauses id 3
              (w_now (pass (slept (pass (sent (pass (slept (pass (sent
                 (pass (slept (pass (sent w) t1 false) (backoff 0))
                       (backoff 0 + l1) false)) t2 false) (backoff 1))
                       (backoff 1 + l2) false)) t3 false) (backoff 2))
                       (backoff 2 + l3) false))
              (Ret None) e4)
           (after_four w t1 t2 t3 t4 l1 l2 l3) [].
Proof.
  intros Hw H1 H2 H3. unfold four_failures, after_four.
  rewrite _make_request_unfold by (unfold max_retries; lia).
  rewrite interp_raise by assumption.
  rewrite interp_retry by (assumption || unfold max_retries; lia).
  rewrite _make_request_unfold by (unfold max_retries; lia).
  rewrite interp_raise by (simpl; rewrite Hw; reflexivity).
  rewrite interp_retry by (assumption || unfold max_retries; lia).
  rewrite _make_request_unfold by (unfold max_retries; lia).
  rewrite interp_raise by (simpl; rewrite Hw; reflexivity).
  rewrite interp_retry by (assumption || unfold max_retries; lia).
  rewrite _make_request_last by (unfold max_retries; lia).
  rewrite interp_raise by (simpl; rewrite Hw; reflexivity).
  reflexivity.
Qed.


(** ** What [_make_request] can return *)

Lemma except_clauses_eq id rc start again e :
  except_clauses id rc start again e =
  if retried e && (rc <? max_retries)%nat
  then Do (Sleep (backoff rc)) (fun _ => again)
  else failure id start (verdict e).1.1 (verdict e).1.2 (verdict e).2.
Proof.
  unfold except_clauses, retry_or, retried, verdict.
  fold (connection_failure e).
  destruct (isinstance e TimeoutError), (connection_failure e),
    (isinstance e ClientProxyConnectionError),
    (isinstance e ClientResponseError),
    (rc <? max_retries)%nat; reflexivity.
Qed.

(** At [retry_count >= max_retries] no clause calls [_make_request]
    again, so the recursion ends there. *)
Lemma last_activation_calls_nothing id rc start again again' e :
  (max_retries <= rc)%nat ->
  except_clauses id rc start again e = except_clauses id rc start again' e.
Proof.
  intros Hge. apply Nat.ltb_ge in Hge.
  rewrite !except_clauses_eq, Hge, andb_false_r. reflexivity.
Qed.

Lemma wp_attempt (E : env) (id : Z) (rc : nat) (again : coro (option Result))
    (n : nat) (P : nat -> option Result -> Prop) :
  (env_flag E false -> P n None) ->
  (forall elapsed code,
      env_request E (inr code) ->
      P (S n) (Some {| request_id := id; status_code := Code code;
                       response_time := elapsed;
                       success := (200 <=? code) && (code <? 400);
                       error_type := None; error := None |})) ->
  (forall elapsed e,
      env_request E (inl e) \/ (exists code, env_request E (inr code)) ->
      (max_retries <= rc)%nat \/ retried e = false ->
      P (S n) (Some (failure_dict id elapsed (verdict e)))) ->
  (forall e,
      env_request E (inl e) \/ (exists code, env_request E (inr code)) ->
      (rc < max_retries)%nat -> retried e = true ->
      wp E again (S n) P) ->
  wp E (attempt id rc again) n P.
Proof.
  intros Hstop Hresp Hfail Hagain.
  assert (forall start e,
             env_request E (inl e) \/ (exists code, env_request E (inr code)) ->
             wp E (except_clauses id rc start again e) (S n) P) as Hexc.
  { intros start e He. rewrite except_clauses_eq.
    destruct (retried e) eqn:Hr; simpl.
    - destruct (rc <? max_retries)%nat eqn:Hlt; simpl.
      + apply Nat.ltb_lt in Hlt. eauto.
      + apply Nat.ltb_ge in Hlt. intros t.
        destruct (verdict e) as [[st ty] msg] eqn:Hv.
        specialize (Hfail (t - start)%Q e He (or_introl Hlt)).
        rewrite Hv in Hfail. exact Hfail.
    - intros t. destruct (verdict e) as [[st ty] msg] eqn:Hv.
      specialize (Hfail (t - start)%Q e He (or_intror Hr)).
      rewrite Hv in Hfail. exact Hfail. }
  simpl. intros [|] Hb; simpl; [|auto].
  intros start [e|code] Hr; [apply Hexc; auto|].
  simpl. intros t [e|[]] Hrd; [apply Hexc; eauto|].
  apply Hresp. assumption.
Qed.

Lemma wp_activations_id (E : env) (id : Z) (depth : nat) :
  forall rc n, wp E (activations depth id rc) n (keeps_id id).
Proof.
  induction depth as [|depth IH]; intros rc n; cbn [activations];
    apply wp_attempt;
    try (intros; intros res [= <-]; reflexivity);
    try discriminate; auto.
Qed.

(** A class that is not named is below whatever its bases are below:
    [BrokenPipeError], that is
    [OtherException "BrokenPipeError" [ConnectionError]], is a
    [ConnectionError]. *)
Lemma other_below_bases name bases b d :
  b ∈ bases -> d ∈ mro b -> d ∈ mro (OtherException name bases).
Proof.
  intros Hb Hd. cbn [mro]. right. apply elem_of_app. left.
  induction bases as [|b' bases IH]; [inversion Hb|]. simpl.
  apply elem_of_app. apply elem_of_cons in Hb as [->|Hb]; auto.
Qed.

(** A class below [ClientProxyConnectionError] is below
    [ClientConnectorError]. *)
Lemma proxy_below_connector :
  forall c, ClientProxyConnectionError ∈ mro c -> ClientConnectorError ∈ mro c.
Proof.
  fix IH 1. intros c.
  destruct c as [| | | | | | | | | | | | | | | | |name bases];
    try (intros H; apply (bool_decide_unpack _);
         apply (bool_decide_pack _) in H; revert H;
         vm_compute; tauto).
  cbn [mro]. intros H.
  apply elem_of_cons in H as [H|H]; [discriminate|].
  apply elem_of_app in H as [H|H];
    [|apply list_elem_of_singleton in H; discriminate].
  right. apply elem_of_app. left.
  induction bases as [|b bases IHb]; simpl in *; [inversion H|].
  apply elem_of_app in H as [H|H]; apply elem_of_app;
    [left; apply IH, H|right; apply IHb, H].
Qed.

Lemma proxy_is_connection_failure e :
  isinstance e ClientProxyConnectionError = true ->
  connection_failure e = true.
Proof.
  unfold connection_failure, isinstance. intros H.
  apply bool_decide_eq_true in H. apply proxy_below_connector in H.
  rewrite (bool_decide_eq_true_2 _ H). reflexivity.
Qed.

Lemma verdict_not_proxy e : (verdict e).1.1 <> Sentinel "PROXY_ERROR".
Proof.
  unfold verdict.
  destruct (isinstance e TimeoutError); [discriminate|].
  destruct (connection_failure e) eqn:Hc; [discriminate|].
  destruct (isinstance e ClientProxyConnectionError) eqn:Hp.
  - apply proxy_is_connection_failure in Hp. congruence.
  - destruct (isinstance e ClientResponseError); discriminate.
Qed.

Lemma wp_activations_shaped (E : env) (id : Z) (depth : nat) :
  forall rc n, wp E (activations depth id rc) n (shaped id).
Proof.
  assert (forall n, shaped id n None) as Hnone
    by (intros n res H; discriminate H).
  assert (forall n elapsed code,
             shaped id n
               (Some {| request_id := id; status_code := Code code;
                        response_time := elapsed;
                        success := (200 <=? code) && (code <? 400);
                        error_type := None; error := None |})) as Hresp.
  { intros n elapsed code res [= <-]. simpl.
    repeat split; try discriminate; eauto. congruence. }
  assert (forall n elapsed e,
             shaped id n (Some (failure_dict id elapsed (verdict e))))
    as Hfail.
  { intros n elapsed e res [= <-]. simpl.
    repeat split; try discriminate; try apply verdict_not_proxy. }
  induction depth as [|depth IH]; intros rc n; cbn [activations];
    apply wp_attempt; simpl; auto.
Qed.

(** What holds of every resumption holds of a run against a script. *)
Lemma wp_interp {R : Type} (c : coro R) :
  forall n (P : nat -> R -> Prop) w script r w',
    wp any_env c n P ->
    interp c w script = Some (r, w') ->
    exists m, P m r.
Proof.
  induction c as [r0|X e k IH]; intros n P w script r w' Hwp Hrun;
    simpl in *.
  - injection Hrun as <- <-. eauto.
  - destruct e; simpl in *.
    + eapply IH; [apply Hwp; exact I | eassumption].
    + eapply IH; [apply Hwp | eassumption].
    + destruct script as [|[r1 el sg| |] script]; try discriminate.
      eapply IH; [apply Hwp; exact I | eassumption].
    + destruct script as [|[|r1 el sg|] script]; try discriminate.
      eapply IH; [apply Hwp; exact I | eassumption].
    + destruct script as [|[| |late sg] script]; try discriminate.
      eapply IH; [apply Hwp | eassumption].
Qed.

Lemma results_shaped id rc w script r w' :
  interp (_make_request id rc) w script = Some (Some r, w') ->
  request_id r = id /\
  status_code r <> Sentinel "PROXY_ERROR" /\
  (error_type r = None ->
     exists code,
       status_code r = Code code /\
       success r = (200 <=? code) && (code <? 400)) /\
  (error_type r <> None -> success r = false).
Proof.
  intros Hrun.
  destruct (wp_interp _ 0%nat (shaped id) _ _ _ _
              (wp_activations_shaped any_env id _ rc 0%nat) Hrun)
    as [m H].
  apply H. reflexivity.
Qed.

Lemma wp_activations_timeout (id : Z) (depth : nat) :
  forall rc,
    (rc + depth = max_retries)%nat ->
    wp timeout_env (activations depth id rc) rc (timed_out_four_times id).
Proof.
  unfold max_retries.
  induction depth as [|depth IH]; intros rc Hrc; cbn [activations];
    apply wp_attempt.
  all: try (intros H; discriminate H).
  all: try (intros elapsed code (e & He & _); discriminate He).
  all: try (intros elapsed e [(e' & [= <-] & He)|(code & e' & He' & _)];
            [|discriminate He'];
            intros [Hge|Hnr];
            [| rewrite retried_timeout in Hnr by assumption; discriminate];
            unfold max_retries in Hge;
            split; [lia|]; eexists; split; [reflexivity|];
            unfold timed_out_result, failure_dict, verdict; rewrite He;
            repeat split).
  - intros e _ Hlt. unfold max_retries in Hlt. lia.
  - intros e _ _ _. apply IH. lia.
Qed.

(** ** The retry schedule of [_make_request] *)





(** ** Connection failures *)

(** C5: a request whose four attempts all fail in connecting yields one
    result, classified as a connection error, whose [response_time] is the
    duration of the fourth attempt alone, although the clock has also
    advanced by the three earlier attempts and the three backoffs. *)
Theorem connection_failure_result (id : Z) (w : world) (e1 e2 e3 e4 : exn)
    (t1 t2 t3 t4 l1 l2 l3 : Q) :
  w_running w = true ->
  Forall (fun e => isinstance e TimeoutError = false /\
                   connection_failure e = true) [e1; e2; e3; e4] ->
  exists r w',
    interp (_make_request id 0) w
           (four_failures e1 e2 e3 e4 t1 t2 t3 t4 l1 l2 l3)
      = Some (Some r, w') /\
    request_id r = id /\
    status_code r = Sentinel "CONNECTION_ERROR" /\
    success r = false /\
    error_type r = Some (class_name (exc_class e4)) /\
    error r = Some (exc_str e4) /\
    (response_time r == t4)%Q /\
    w_attempts w' = (w_attempts w + 4)%nat /\
    (w_now w' == w_now w + t1 + (backoff 0 + l1) + t2 + (backoff 1 + l2)
                 + t3 + (backoff 2 + l3) + t4)%Q.
Proof.
  intros Hw He.
  inversion He as [|? ? [_ H1] He']; subst.
  inversion He' as [|? ? [_ H2] He'']; subst.
  inversion He'' as [|? ? [_ H3] He''']; subst.
  inversion He''' as [|? ? [H4t H4] _]; subst.
  rewrite four_retried_failures by auto using retried_connection.
  rewrite interp_connection_exhausted
    by (assumption || unfold max_retries; lia).
  eexists _, _. split; [reflexivity|]. simpl.
  repeat split; try reflexivity; try lia; ring.
Qed.

Lemma connection_failure_result_witness :
  exists r w',
    interp (_make_request 1 0) world0
           (four_failures refused refused refused refused 5 6 7 8 0 0 0)
      = Some (Some r, w') /\
    status_code r = Sentinel "CONNECTION_ERROR" /\
    error_type r = Some "ConnectionRefusedError" /\
    (response_time r == 8)%Q.
Proof.
  destruct (connection_failure_result 1 world0 refused refused refused
              refused 5 6 7 8 0 0 0 eq_refl
              ltac:(forall_by_computation))
    as (r & w' & Hrun & _ & Hst & _ & Hty & _ & Htime & _).
  exists r, w'. repeat split; assumption.
Defined.

(** ** Proxy-connection failures *)

(** C3, evaluated on the code: four attempts that each raise
    [aiohttp.ClientProxyConnectionError] end in a result whose status is
    ['CONNECTION_ERROR'], not ['PROXY_ERROR']; only [error_type] names the
    proxy.  Every [ClientProxyConnectionError] is a [ClientConnectorError]
    and is taken by the second [except] clause, so no result of
    [_make_request] ever has the status ['PROXY_ERROR']. *)
Theorem proxy_failure_status (id : Z) (m1 m2 m3 m4 : string)
    (t1 t2 t3 t4 l1 l2 l3 : Q) :
  (exists r w',
      interp (_make_request id 0) world0
             (four_failures (proxy_down m1) (proxy_down m2) (proxy_down m3)
                (proxy_down m4) t1 t2 t3 t4 l1 l2 l3)
        = Some (Some r, w') /\
      status_code r = Sentinel "CONNECTION_ERROR" /\
      status_code r <> Sentinel "PROXY_ERROR" /\
      error_type r = Some "ClientProxyConnectionError" /\
      error r = Some m4) /\
  (forall e,
      isinstance e ClientProxyConnectionError = true ->
      connection_failure e = true) /\
  (forall rc w script r w',
      interp (_make_request id rc) w script = Some (Some r, w') ->
      status_code r <> Sentinel "PROXY_ERROR").
Proof.
  split; [|split].
  - rewrite four_retried_failures by reflexivity.
    rewrite interp_connection_exhausted
      by (reflexivity || unfold max_retries; lia).
    eexists _, _. split; [reflexivity|]. simpl.
    repeat split. discriminate.
  - exact proxy_is_connection_failure.
  - intros rc w script r w' Hrun.
    apply results_shaped in Hrun. tauto.
Qed.

(** ** Numeric statuses *)

(** C7, as the code has it: an attempt that receives a response and
    reads its body gives a result with the status code received, whose
    [success] holds exactly for codes in [200, 400); 200 succeeds; 404
    fails, and recording it counts one failure and one more ["404"].
    Every result returned without an error kind is of this sort.  A
    numeric status alone does not decide [success]: the clause for
    [aiohttp.ClientResponseError] returns the status of the exception with
    [success] false and an error kind, whatever the status. *)
Theorem success_iff_status_in_range (id : Z) (rc : nat) (w : world)
    (code : Z) (t t' : Q) (sg sg' : bool) (script : list answer)
    (st : Stats) :
  w_running w = true ->
  (exists r w',
      interp (_make_request id rc) w
             (AReq (inr code) t sg :: ARead (inr tt) t' sg' :: script)
        = Some (Some r, w') /\
      status_code r = Code code /\
      error_type r = None /\
      (success r = true <-> 200 <= code < 400) /\
      (code = 200 -> success r = true) /\
      (code = 404 ->
         success r = false /\
         failed (_update_stats st r) = failed st + 1 /\
         successful (_update_stats st r) = successful st /\
         status_codes (_update_stats st r) !! "404"
           = Some (default 0 (status_codes st !! "404") + 1))) /\
  (forall script' r w',
      interp (_make_request id rc) w script' = Some (Some r, w') ->
      error_type r = None ->
      exists code',
        status_code r = Code code' /\
        (success r = true <-> 200 <= code' < 400)) /\
  (forall e,
      isinstance e ClientResponseError = true ->
      retried e = false ->
      exists r w',
        interp (_make_request id rc) w (AReq (inl e) t sg :: script)
          = Some (Some r, w') /\
        status_code r = Code (exc_status e) /\
        success r = false /\
        error_type r = Some "ClientResponseError").
Proof.
  intros Hw. split; [|split].
  - destruct (_make_request_attempt id rc) as [again ->].
    rewrite interp_response by assumption.
    eexists _, _. split; [reflexivity|]. simpl.
    split; [reflexivity|]. split; [reflexivity|]. split; [|split].
    + rewrite andb_true_iff, Z.leb_le, Z.ltb_lt. reflexivity.
    + intros ->. reflexivity.
    + intros ->. simpl. repeat split.
      unfold bump. apply lookup_insert_eq.
  - intros script' r w' Hrun Hplain.
    apply results_shaped in Hrun as (_ & _ & Hcode & _).
    destruct (Hcode Hplain) as (code' & Hst & Hsucc).
    exists code'. split; [assumption|].
    rewrite Hsucc, andb_true_iff, Z.leb_le, Z.ltb_lt. reflexivity.
  - intros e Hcre He.
    destruct (_make_request_attempt id rc) as [again ->].
    rewrite interp_raise by assumption. rewrite except_clauses_eq, He.
    simpl. eexists _, _. split; [reflexivity|].
    unfold verdict. simpl. unfold retried in He.
    apply orb_false_iff in He as [He Hp].
    apply orb_false_iff in He as [Ht Hc].
    rewrite Ht, Hc, Hp, Hcre. repeat split.
Qed.

Lemma success_iff_status_in_range_witness :
  exists r w',
    interp (_make_request 1 0) world0
           [AReq (inr 404) 1 false; ARead (inr tt) 1 false]
      = Some (Some r, w') /\
    success r = false /\
    status_codes (_update_stats stats_init r) !! "404" = Some 1.
Proof.
  destruct (success_iff_status_in_range 1 0 world0 404 1 1 false false []
              stats_init eq_refl)
    as [(r & w' & Hrun & _ & _ & _ & _ & H404) _].
  destruct (H404 eq_refl) as (Hs & _ & _ & Hc).
  exists r, w'. repeat split; assumption.
Defined.

(** The claim of C7 fails: an attempt that ends in an
    [aiohttp.ClientResponseError] carrying status 200 yields a result with
    the numeric status 200 and [success] false; recording it counts a
    failure under the key ["200"]. *)
Lemma status_200_failed_counterexample :
  exists r w',
    interp (_make_request 1 0) world0 [AReq (inl by_status_200) 1 false]
      = Some (Some r, w') /\
    status_code r = Code 200 /\
    success r = false /\
    failed (_update_stats stats_init r) = 1 /\
    successful (_update_stats stats_init r) = 0 /\
    status_codes (_update_stats stats_init r) !! "200" = Some 1.
Proof.
  eexists _, _. split; [reflexivity|]. repeat split.
Qed.

(** ** Counting *)

Lemma sum_list_with_insert {A : Type} (m : A -> nat) (l : list A)
    (i : nat) (old x : A) :
  l !! i = Some old ->
  (sum_list_with m (<[i := x]> l) + m old = sum_list_with m l + m x)%nat.
Proof.
  revert i. induction l as [|y l IH]; intros [|i] H; simpl in *;
    try discriminate.
  - injection H as ->. lia.
  - specialize (IH i H). lia.
Qed.

Lemma sum_list_with_lookup {A : Type} (m : A -> nat) (l : list A)
    (i : nat) (x : A) :
  l !! i = Some x -> (m x <= sum_list_with m l)%nat.
Proof.
  revert i. induction l as [|y l IH]; intros [|i] H; simpl in *;
    try discriminate.
  - injection H as ->. lia.
  - specialize (IH i H). lia.
Qed.

Lemma sum_list_with_zero {A : Type} (m : A -> nat) (l : list A) :
  (forall x, x ∈ l -> m x = 0%nat) -> sum_list_with m l = 0%nat.
Proof.
  induction l as [|y l IH]; intros H; simpl; [reflexivity|].
  rewrite (H y), IH; [reflexivity| |]; intros; [apply H|]; set_solver.
Qed.

Lemma hits_app id l1 l2 : hits id (l1 ++ l2) = (hits id l1 + hits id l2)%nat.
Proof. apply sum_list_with_app. Qed.

Lemma hits_cons id x l :
  hits id (x :: l) = ((if decide (x = id) then 1 else 0) + hits id l)%nat.
Proof. reflexivity. Qed.

Lemma hits_one id : hits id [id] = 1%nat.
Proof. unfold hits. simpl. rewrite decide_True by reflexivity. reflexivity. Qed.

Lemma hits_other id x : x <> id -> hits id [x] = 0%nat.
Proof. intros H. unfold hits. simpl. rewrite decide_False by assumption. reflexivity. Qed.

Lemma hits_elem id l : id ∈ l <-> (1 <= hits id l)%nat.
Proof.
  unfold hits. induction l as [|x l IH]; simpl.
  - split; [intros H; inversion H | lia].
  - rewrite elem_of_cons, IH. destruct (decide (x = id)) as [->|Hne].
    + split; [lia | auto].
    + split; [intros [Heq|H]; [congruence | lia] | intros H; right; lia].
Qed.

Lemma hits_none id l : id ∉ l <-> hits id l = 0%nat.
Proof. rewrite hits_elem. lia. Qed.

Lemma hits_NoDup l : (forall id, (hits id l <= 1)%nat) -> NoDup l.
Proof.
  induction l as [|x l IH]; intros H; constructor.
  - specialize (H x). unfold hits in H. simpl in H.
    rewrite decide_True in H by reflexivity.
    apply hits_none. unfold hits. lia.
  - apply IH. intros id. specialize (H id). unfold hits in *. simpl in H.
    lia.
Qed.

Lemma holds_busy id x : (holds id x <= busy x)%nat.
Proof. destruct x; simpl; try lia. case_decide; lia. Qed.

Lemma holds_two id ws w1 w2 c1 c2 :
  w1 <> w2 ->
  ws !! w1 = Some (WCall id c1) ->
  ws !! w2 = Some (WCall id c2) ->
  (2 <= sum_list_with (holds id) ws)%nat.
Proof.
  intros Hne H1 H2.
  pose proof (sum_list_with_insert (holds id) ws w1 _ WStop H1) as Hins.
  assert (<[w1 := WStop]> ws !! w2 = Some (WCall id c2)) as H2'
    by (rewrite list_lookup_insert_ne; assumption).
  apply (sum_list_with_lookup (holds id)) in H2'.
  simpl in *. rewrite decide_True in * by reflexivity. lia.
Qed.

(** ** Coroutines under an environment *)

Lemma wp_resume {R : Type} (E : env) (flag : bool) (now : Q) (a : io)
    (c c' : coro R) (n : nat) (P : nat -> R -> Prop) :
  resume flag now a c = Some c' ->
  env_flag E flag -> io_ok E a ->
  wp E c n P ->
  wp E c' (if sends c then S n else n) P.
Proof.
  intros Hres Hflag Ha Hwp.
  destruct c as [r|X e k]; [discriminate|].
  destruct e; destruct a; simpl in *; try discriminate;
    injection Hres as <-; auto.
Qed.


(** ** Tallies *)



Lemma tally_snoc rs r st :
  tally (rs ++ [r]) st = _update_stats (tally rs st) r.
Proof. unfold tally. rewrite fold_left_app. reflexivity. Qed.

Lemma tally_set_end_time t rs st :
  set_end_time t (tally rs st) = tally rs (set_end_time t st).
Proof.
  revert st. induction rs as [|r rs IH]; intros st; simpl; [reflexivity|].
  rewrite IH. reflexivity.
Qed.

Lemma create_workers_idle cfg w x :
  create_workers cfg !! w = Some x -> x = WTest \/ x = WStagger.
Proof.
  unfold create_workers. rewrite list_lookup_fmap.
  destruct (seq 0 (Z.to_nat (concurrency cfg)) !! w) as [[|i]|];
    simpl; intros [= <-]; auto.
Qed.

Lemma create_workers_free cfg (m : worker -> nat) :
  m WTest = 0%nat -> m WStagger = 0%nat ->
  sum_list_with m (create_workers cfg) = 0%nat.
Proof.
  intros H1 H2. apply sum_list_with_zero. intros x Hx.
  apply list_elem_of_lookup in Hx as [w Hw].
  apply create_workers_idle in Hw as [-> | ->]; assumption.
Qed.

(** ** The invariant of a run *)

Section Invariant.
Variables (cfg : config) (E : env).
Variable Post : Z -> nat -> option Result -> Prop.
Hypothesis Post_id : forall id n r, Post id n (Some r) -> request_id r = id.
Hypothesis Post_start : forall id, wp E (_make_request id 0) 0 (Post id).
Hypothesis flag_set : env_flag E true.

Lemma inv_start t0 : inv cfg E Post (start cfg t0).
Proof.
  unfold start.
  destruct (0 <? warmup_count cfg) eqn:Hwarm; constructor; simpl.
  all: try assumption.
  all: try (intros r Hin; apply elem_of_nil in Hin; contradiction).
  all: try (intros id; unfold occ; simpl;
            rewrite ?create_workers_free by reflexivity;
            unfold hits; simpl; split; lia).
  all: try (rewrite ?create_workers_free by reflexivity; reflexivity).
  - intros w id c Hw. rewrite lookup_nil in Hw. discriminate.
  - repeat split; reflexivity.
  - intros w id c Hw.
    apply create_workers_idle in Hw as [?|?]; discriminate.
  - unfold settled; simpl; lia.
Qed.

Lemma inv_world_step s s' :
  inv cfg E Post s ->
  env_flag E (running s') ->
  ctl s' = ctl s -> queue s' = queue s -> unfinished s' = unfinished s ->
  workers s' = workers s -> stats s' = stats s ->
  recorded s' = recorded s -> abandoned s' = abandoned s ->
  attempted s' = attempted s ->
  inv cfg E Post s'.
Proof.
  intros [] Hflag Hc Hq Hu Hw Hst Hr Hab Hat.
  constructor; unfold occ, settled in *;
    rewrite ?Hc, ?Hq, ?Hu, ?Hw, ?Hst, ?Hr, ?Hab, ?Hat; assumption.
Qed.

Lemma inv_warmup_task s tasks tasks' l :
  inv cfg E Post s ->
  ctl s = Warmup tasks ->
  inv cfg E Post (with_warmed l (with_ctl (Warmup tasks') s)).
Proof.
  intros [] Hc. rewrite Hc in *.
  constructor; unfold occ, settled in *; simpl; assumption.
Qed.

Lemma inv_with_ctl s c' :
  inv cfg E Post s ->
  limit cfg (ctl s) <= limit cfg c' ->
  match c' with
  | Warmup _ => False
  | Produce i => 0 <= i <= Z.max 0 (num_requests cfg) /\ settled s = i
  | Put i => 0 <= i < num_requests cfg /\ settled s = i
  | Join => settled s <= Z.max 0 (num_requests cfg) /\
            (~ env_flag E false -> settled s = Z.max 0 (num_requests cfg))
  | Gather | Done =>
      unfinished s = 0 /\
      settled s <= Z.max 0 (num_requests cfg) /\
      (~ env_flag E false -> settled s = Z.max 0 (num_requests cfg))
  end ->
  inv cfg E Post (with_ctl c' s).
Proof.
  intros [] Hlim Hc'.
  constructor; unfold occ, settled in *; simpl; try assumption.
  - intros id. destruct (inv_occ0 id) as [H1 H2]. split; [assumption|].
    intros H. specialize (H2 H). lia.
  - intros id Hid. destruct (inv_attempted0 id Hid) as [H1 H2].
    split; [lia|assumption].
  - destruct c'; try assumption. contradiction.
Qed.

Lemma inv_ctl_step s s' :
  inv cfg E Post s -> step_ctl cfg s = Some s' -> inv cfg E Post s'.
Proof.
  intros Hinv Hstep. unfold step_ctl in Hstep.
  destruct (ctl s) as [tasks|i|i| | |] eqn:Hc.
  - (* the warmup tasks have all returned *)
    destruct (forallb is_ret tasks); [|discriminate].
    injection Hstep as <-. destruct Hinv. rewrite Hc in inv_ctl0.
    destruct inv_ctl0 as (Hw & Hq & Hu & Hr & Ha & Hat).
    constructor; unfold occ, settled; simpl;
      rewrite ?Hr, ?Ha, ?Hat; simpl.
    + assumption.
    + intros w id c Hl.
      apply create_workers_idle in Hl as [?|?]; discriminate.
    + intros r Hin. apply elem_of_nil in Hin. contradiction.
    + intros id Hin. apply elem_of_nil in Hin. contradiction.
    + intros id. rewrite create_workers_free by reflexivity.
      unfold hits; simpl. split; lia.
    + intros id Hin. apply elem_of_nil in Hin. contradiction.
    + rewrite create_workers_free by reflexivity. reflexivity.
    + reflexivity.
    + lia.
  - (* the test of the for loop *)
    pose proof (inv_ctl _ _ _ _ Hinv) as Hctl. rewrite Hc in Hctl.
    destruct Hctl as [Hi Hs].
    destruct (i <? num_requests cfg) eqn:Hlt;
      [apply Z.ltb_lt in Hlt | apply Z.ltb_ge in Hlt].
    + destruct (running s) eqn:Hrun; simpl in Hstep;
        injection Hstep as <-; apply inv_with_ctl; try assumption;
        rewrite ?Hc; simpl; try lia.
      split; [lia|]. intros Hnever. exfalso. apply Hnever.
      pose proof (inv_flag _ _ _ _ Hinv) as Hf.
      rewrite Hrun in Hf. exact Hf.
    + injection Hstep as <-. apply inv_with_ctl; try assumption;
        rewrite ?Hc; simpl; lia.
  - (* queue.put(i + 1) *)
    destruct (full cfg (queue s)); [discriminate|].
    injection Hstep as <-. destruct Hinv. rewrite Hc in *.
    simpl in *. destruct inv_ctl0 as [Hi Hs].
    constructor; unfold occ, settled in *; simpl; try assumption.
    + intros id. destruct (inv_occ0 id) as [H1 H2].
      rewrite hits_app. destruct (decide (i + 1 = id)) as [<-|Hne].
      * rewrite hits_one. split; lia.
      * rewrite hits_other by assumption. split; lia.
    + intros id Hid. destruct (inv_attempted0 id Hid) as [H1 H2].
      split; [lia|]. rewrite elem_of_app, list_elem_of_singleton.
      intros [?|?]; [contradiction|lia].
    + rewrite length_app. simpl. lia.
    + lia.
  - (* queue.join() returns *)
    destruct (unfinished s =? 0) eqn:Hz; [|discriminate].
    apply Z.eqb_eq in Hz.
    injection Hstep as <-. destruct Hinv. rewrite Hc in *.
    assert (sum_list_with busy (map (fun _ => WStop) (workers s)) = 0%nat)
      as Hbusy.
    { apply sum_list_with_zero. intros x Hx.
      apply list_elem_of_fmap in Hx as (? & -> & _). reflexivity. }
    assert (forall id,
               sum_list_with (holds id) (map (fun _ => WStop) (workers s))
               = 0%nat) as Hholds.
    { intros id. apply sum_list_with_zero. intros x Hx.
      apply list_elem_of_fmap in Hx as (? & -> & _). reflexivity. }
    constructor; unfold occ, settled in *; simpl; try assumption.
    + intros w id c Hl. rewrite list_lookup_fmap in Hl.
      destruct (workers s !! w); discriminate.
    + intros id. rewrite Hholds. destruct (inv_occ0 id) as [H1 H2].
      split; [lia|]. intros H. apply H2. lia.
    + rewrite Hbusy. lia.
    + tauto.
  - (* end_time *)
    injection Hstep as <-. destruct Hinv. rewrite Hc in *.
    constructor; unfold occ, settled in *; simpl; try assumption.
    rewrite inv_stats0 at 1. rewrite tally_set_end_time. reflexivity.
  - discriminate.
Qed.

Lemma holds_at id ws w c :
  ws !! w = Some (WCall id c) -> (1 <= sum_list_with (holds id) ws)%nat.
Proof.
  intros H. apply (sum_list_with_lookup (holds id)) in H.
  simpl in H. rewrite decide_True in H by reflexivity. exact H.
Qed.

Lemma inv_running_ctl s w x :
  inv cfg E Post s -> workers s !! w = Some x ->
  forall tasks, ctl s <> Warmup tasks.
Proof.
  intros Hinv Hw tasks Hc. pose proof (inv_ctl _ _ _ _ Hinv) as H.
  rewrite Hc in H. destruct H as [Hnil _]. rewrite Hnil in Hw.
  rewrite lookup_nil in Hw. discriminate.
Qed.

(** A worker moves between two places where it holds no item. *)
Lemma inv_idle s w old x :
  inv cfg E Post s ->
  workers s !! w = Some old -> busy old = 0%nat -> busy x = 0%nat ->
  inv cfg E Post (with_worker w x s).
Proof.
  intros Hinv Hw Hold Hx.
  pose proof (inv_running_ctl _ _ _ Hinv Hw) as Hnw.
  destruct Hinv.
  constructor; unfold occ, settled in *; simpl; try assumption.
  - intros w' id c Hl.
    apply list_lookup_insert_Some in Hl as [(_ & Heq & _)|[_ Hl]];
      [rewrite Heq in Hx; discriminate|eauto].
  - intros id.
    pose proof (sum_list_with_insert (holds id) _ _ _ x Hw) as Hins.
    pose proof (holds_busy id old) as Hb1.
    pose proof (holds_busy id x) as Hb2.
    destruct (inv_occ0 id) as [H1 H2]. split; [lia|].
    intros H. apply H2. lia.
  - pose proof (sum_list_with_insert busy _ _ _ x Hw) as Hins. lia.
  - destruct (ctl s); try assumption. exfalso. eapply Hnw. reflexivity.
Qed.

(** [queue.get()] hands an identifier to a worker. *)
Lemma inv_get s w id rest :
  inv cfg E Post s ->
  workers s !! w = Some WGet -> queue s = id :: rest ->
  inv cfg E Post
    {| running := running s; clock := clock s; ctl := ctl s;
       queue := rest; unfinished := unfinished s;
       workers := <[w := WCall id (_make_request id 0)]> (workers s);
       stats := stats s; recorded := recorded s;
       abandoned := abandoned s; attempted := attempted s; warmed := warmed s |}.
Proof.
  intros Hinv Hw Hq.
  pose proof (inv_running_ctl _ _ _ Hinv Hw) as Hnw.
  destruct Hinv. unfold occ, settled in *. rewrite Hq in *.
  constructor; unfold occ, settled; simpl; try assumption.
  - intros w' id' c Hl.
    apply list_lookup_insert_Some in Hl as [(<- & [= <- <-] & _)|[_ Hl]];
      [|eauto].
    assert (hits id (attempted s) = 0%nat) as ->; [|apply Post_start].
    apply hits_none. intros Hin.
    destruct (inv_attempted0 id Hin) as [_ Hnq]. apply Hnq. left.
  - intros id0.
    pose proof (sum_list_with_insert (holds id0) _ _ _
                  (WCall id (_make_request id 0)) Hw) as Hins.
    destruct (inv_occ0 id0) as [H1 H2].
    rewrite hits_cons in H1, H2. simpl in Hins.
    split; [lia|]. intros H. apply H2. lia.
  - intros id0 Hin. destruct (inv_attempted0 id0 Hin) as [H1 H2].
    split; [assumption|]. intros Hr. apply H2. right. assumption.
  - pose proof (sum_list_with_insert busy _ _ _
                  (WCall id (_make_request id 0)) Hw) as Hins.
    simpl in Hins. simpl in inv_unfinished0. lia.
  - destruct (ctl s); try assumption. exfalso. eapply Hnw. reflexivity.
Qed.

(** The awaited [_make_request] of a worker advances. *)
Lemma inv_io s w id c c' a :
  inv cfg E Post s ->
  workers s !! w = Some (WCall id c) ->
  io_ok E a ->
  resume (running s) (clock s) a c = Some c' ->
  inv cfg E Post
    {| running := running s; clock := clock s; ctl := ctl s;
       queue := queue s; unfinished := unfinished s;
       workers := <[w := WCall id c']> (workers s);
       stats := stats s; recorded := recorded s;
       abandoned := abandoned s;
       attempted := if sends c then attempted s ++ [id]
                    else attempted s;
       warmed := warmed s |}.
Proof.
  intros Hinv Hw Ha Hres.
  pose proof (inv_running_ctl _ _ _ Hinv Hw) as Hnw.
  pose proof (holds_at _ _ _ _ Hw) as Hheld.
  destruct Hinv.
  assert (forall id0, id0 <> id ->
            hits id0 (if sends c then attempted s ++ [id] else attempted s)
            = hits id0 (attempted s)) as Hother.
  { intros id0 Hne. destruct (sends c); [|reflexivity].
    rewrite hits_app, hits_other by congruence. lia. }
  constructor; unfold occ, settled in *; simpl; try assumption.
  - intros w' id' c0 Hl.
    apply list_lookup_insert_Some in Hl as [(<- & [= <- <-] & _)|[Hne Hl]].
    + pose proof (wp_resume E _ _ _ _ _ _ _ Hres inv_flag0 Ha
                    (inv_call0 _ _ _ Hw)) as Hwp.
      destruct (sends c); [|exact Hwp].
      rewrite hits_app, hits_one.
      replace (hits id (attempted s) + 1)%nat
        with (S (hits id (attempted s))) by lia.
      exact Hwp.
    + destruct (decide (id' = id)) as [->|Hid].
      * pose proof (holds_two _ _ _ _ _ _ Hne Hw Hl).
        destruct (inv_occ0 id) as [H1 _]. lia.
      * rewrite Hother by assumption. eauto.
  - intros r Hin. destruct (decide (request_id r = id)) as [Heq|Hid].
    + assert (1 <= hits id (map request_id (recorded s)))%nat.
      { apply hits_elem. rewrite <- Heq. apply list_elem_of_fmap. eauto. }
      destruct (inv_occ0 id) as [H1 _]. lia.
    + rewrite Hother by assumption. auto.
  - intros id0.
    pose proof (sum_list_with_insert (holds id0) _ _ _ (WCall id c') Hw)
      as Hins.
    simpl in Hins. destruct (inv_occ0 id0) as [H1 H2].
    split; [lia|]. intros H. apply H2. lia.
  - intros id0 Hin.
    assert (id0 ∈ attempted s \/ id0 = id) as [Hold| ->].
    { destruct (sends c); [|auto].
      apply elem_of_app in Hin as [?|Hin]; [auto|].
      apply list_elem_of_singleton in Hin. auto. }
    + auto.
    + destruct (inv_occ0 id) as [H1 H2]. split; [apply H2; lia|].
      apply hits_none. lia.
  - pose proof (sum_list_with_insert busy _ _ _ (WCall id c') Hw) as Hins.
    simpl in Hins. lia.
  - destruct (ctl s); try assumption. exfalso. eapply Hnw. reflexivity.
Qed.

(** [_make_request] has returned: the result is recorded, if there is
    one, and the item is marked done. *)
Lemma inv_finish s w id result :
  inv cfg E Post s ->
  workers s !! w = Some (WCall id (Ret result)) ->
  inv cfg E Post (finish w id result s).
Proof.
  intros Hinv Hw.
  pose proof (inv_running_ctl _ _ _ Hinv Hw) as Hnw.
  pose proof (holds_at _ _ _ _ Hw) as Hheld.
  pose proof (inv_call _ _ _ _ Hinv _ _ _ Hw) as Hpost. simpl in Hpost.
  pose proof (sum_list_with_insert busy _ _ _ WTest Hw) as Hbusy.
  simpl in Hbusy.
  assert (forall id0,
            (sum_list_with (holds id0) (<[w := WTest]> (workers s))
             + (if decide (id = id0) then 1 else 0)
             = sum_list_with (holds id0) (workers s))%nat) as Hholds.
  { intros id0.
    pose proof (sum_list_with_insert (holds id0) _ _ _ WTest Hw) as Hins.
    simpl in Hins. lia. }
  destruct Hinv.
  destruct result as [res|].
  - pose proof (Post_id _ _ _ Hpost) as Hid.
    constructor; unfold occ, settled in *; simpl; try assumption.
    + intros w' id' c Hl.
      apply list_lookup_insert_Some in Hl as [(_ & [=] & _)|[_ Hl]]. eauto.
    + intros r Hin. apply elem_of_app in Hin as [Hin|Hin]; [auto|].
      apply list_elem_of_singleton in Hin as ->. rewrite Hid. exact Hpost.
    + intros id0. specialize (Hholds id0).
      rewrite map_app, hits_app. simpl map. rewrite Hid.
      destruct (inv_occ0 id0) as [H1 H2].
      destruct (decide (id = id0)) as [->|Hne];
        [rewrite hits_one | rewrite hits_other by assumption];
        (split; [lia|]; intros H; apply H2; lia).
    + lia.
    + rewrite tally_snoc. f_equal. exact inv_stats0.
    + rewrite length_app. simpl.
      destruct (ctl s); try (exfalso; eapply Hnw; reflexivity);
        repeat split; try tauto; try lia;
        intros Hn; try (destruct inv_ctl0 as (_ & _ & H));
        try (destruct inv_ctl0 as (_ & H)); specialize (H Hn); lia.
  - constructor; unfold occ, settled in *; simpl; try assumption.
    + intros w' id' c Hl.
      apply list_lookup_insert_Some in Hl as [(_ & [=] & _)|[_ Hl]]. eauto.
    + intros id0 Hin. apply elem_of_app in Hin as [Hin|Hin]; [auto|].
      apply list_elem_of_singleton in Hin as ->. eauto.
    + intros id0. specialize (Hholds id0).
      rewrite hits_app.
      destruct (inv_occ0 id0) as [H1 H2].
      destruct (decide (id = id0)) as [->|Hne];
        [rewrite hits_one | rewrite hits_other by assumption];
        (split; [lia|]; intros H; apply H2; lia).
    + lia.
    + rewrite length_app. simpl.
      destruct (ctl s); try (exfalso; eapply Hnw; reflexivity);
        repeat split; try tauto; try lia;
        intros Hn; try (destruct inv_ctl0 as (_ & _ & H));
        try (destruct inv_ctl0 as (_ & H)); specialize (H Hn); lia.
Qed.

Lemma inv_step l s s' :
  inv cfg E Post s -> label_ok E l -> step cfg l s = Some s' ->
  inv cfg E Post s'.
Proof.
  intros Hinv Hl Hstep. destruct l as [|d| |i a|w a]; simpl in Hstep.
  - injection Hstep as <-. eapply inv_world_step; eauto.
  - destruct (Qle_bool 0 d); [|discriminate].
    injection Hstep as <-. eapply inv_world_step; eauto.
    exact (inv_flag _ _ _ _ Hinv).
  - eapply inv_ctl_step; eauto.
  - destruct (ctl s) as [tasks| | | | |] eqn:Hc; try discriminate.
    destruct (tasks !! i) as [c|]; [|discriminate]. simpl in Hstep.
    destruct (resume (running s) (clock s) a c); [|discriminate].
    injection Hstep as <-. eapply inv_warmup_task; eauto.
  - unfold step_worker in Hstep.
    destruct (workers s !! w) as [[| | |id c|]|] eqn:Hw; try discriminate.
    + destruct a; try discriminate. injection Hstep as <-.
      eapply inv_idle; eauto.
    + destruct a; try discriminate. injection Hstep as <-.
      eapply inv_idle; eauto. destruct (running s); reflexivity.
    + destruct a as [| |a]; try discriminate.
      * destruct (queue s) as [|id rest] eqn:Hq; [discriminate|].
        injection Hstep as <-. eapply inv_get; eauto.
      * injection Hstep as <-. eapply inv_idle; eauto.
    + destruct a as [| |a]; try discriminate.
      * destruct c as [result|]; [|discriminate].
        injection Hstep as <-. eapply inv_finish; eauto.
      * destruct (resume (running s) (clock s) a c) as [c'|] eqn:Hres;
          [|discriminate].
        injection Hstep as <-. eapply inv_io; eauto.
Qed.

Lemma inv_exec tr :
  forall s s',
    inv cfg E Post s -> Forall (label_ok E) tr ->
    exec cfg tr s = Some s' -> inv cfg E Post s'.
Proof.
  induction tr as [|l tr IH]; intros s s' Hinv Hok Hexec; simpl in Hexec.
  - injection Hexec as <-. assumption.
  - apply Forall_cons in Hok as [Hl Hok].
    destruct (step cfg l s) as [s1|] eqn:Hstep; [|discriminate].
    simpl in Hexec.
    apply (IH s1 s'); [eapply inv_step; eassumption | assumption..].
Qed.

Lemma inv_reachable s : reachable cfg E s -> inv cfg E Post s.
Proof.
  intros (t0 & tr & Hok & Hexec).
  eapply inv_exec; [apply inv_start | eassumption..].
Qed.
End Invariant.

(** ** Counters *)

Lemma update_stats_counts st r :
  total_requests (_update_stats st r) = total_requests st + 1 /\
  (if success r
   then successful (_update_stats st r) = successful st + 1 /\
        failed (_update_stats st r) = failed st
   else successful (_update_stats st r) = successful st /\
        failed (_update_stats st r) = failed st + 1) /\
  response_times (_update_stats st r) = response_times st ++ [response_time r].
Proof. simpl. destruct (success r); auto. Qed.

Lemma tally_counts rs :
  forall st,
    total_requests (tally rs st) = total_requests st + Z.of_nat (length rs) /\
    successful (tally rs st) + failed (tally rs st)
      = successful st + failed st + Z.of_nat (length rs) /\
    length (response_times (tally rs st))
      = (length (response_times st) + length rs)%nat.
Proof.
  induction rs as [|r rs IH]; intros st; simpl tally.
  - simpl. repeat split; lia.
  - destruct (IH (_update_stats st r)) as (H1 & H2 & H3).
    destruct (update_stats_counts st r) as (U1 & U2 & U3).
    change (tally (r :: rs) st) with (tally rs (_update_stats st r)).
    rewrite H1, H2, H3, U1, U3, length_app.
    destruct (success r); destruct U2 as [-> ->]; simpl length;
      repeat split; lia.
Qed.

Lemma any_trace_ok tr : Forall (label_ok any_env) tr.
Proof.
  apply Forall_forall. intros l _.
  destruct l as [| | |i a|w [| |a]]; simpl; try exact I; destruct a; exact I.
Qed.

Lemma recorded_once cfg s :
  reachable cfg any_env s ->
  NoDup (map request_id (recorded s)) /\
  stats s = tally (recorded s)
              (fresh (start_time (stats s)) (end_time (stats s))).
Proof.
  intros Hreach.
  apply (inv_reachable cfg any_env keeps_id) in Hreach.
  - split; [|exact (inv_stats _ _ _ _ Hreach)].
    apply hits_NoDup. intros id.
    destruct (inv_occ _ _ _ _ Hreach id) as [H _]. unfold occ in H. lia.
  - intros id n r H. apply H. reflexivity.
  - intros id. apply wp_activations_id.
  - exact I.
Qed.

(** C8: one call of [_update_stats] adds one to [total_requests] and one
    to exactly one of [successful] and [failed], and appends one response
    time; so after any sequence of calls [total_requests] is
    [successful + failed] and is the length of [response_times]; and in
    every state a run can reach, the results recorded so far carry pairwise
    distinct identifiers and the statistics are exactly their tally. *)
Theorem record_once_and_counted :
  (forall st r,
      total_requests (_update_stats st r) = total_requests st + 1 /\
      (if success r
       then successful (_update_stats st r) = successful st + 1 /\
            failed (_update_stats st r) = failed st
       else successful (_update_stats st r) = successful st /\
            failed (_update_stats st r) = failed st + 1) /\
      response_times (_update_stats st r)
        = response_times st ++ [response_time r]) /\
  (forall rs,
      let st := tally rs stats_init in
      total_requests st = Z.of_nat (length rs) /\
      total_requests st = successful st + failed st /\
      Z.of_nat (length (response_times st)) = total_requests st) /\
  (forall cfg s,
      reachable cfg any_env s ->
      NoDup (map request_id (recorded s)) /\
      total_requests (stats s) = Z.of_nat (length (recorded s)) /\
      total_requests (stats s) = successful (stats s) + failed (stats s) /\
      Z.of_nat (length (response_times (stats s)))
        = total_requests (stats s)).
Proof.
  split; [exact update_stats_counts|]. split.
  - intros rs st.
    destruct (tally_counts rs stats_init) as (H1 & H2 & H3).
    subst st. simpl in H1, H2, H3. lia.
  - intros cfg s Hreach.
    destruct (recorded_once cfg s Hreach) as [Hnd Hst].
    split; [assumption|]. rewrite Hst.
    destruct (tally_counts (recorded s)
                (fresh (start_time (stats s)) (end_time (stats s))))
      as (H1 & H2 & H3).
    simpl in H1, H2, H3. lia.
Qed.

Lemma record_once_and_counted_witness :
  exists s,
    exec cfg_3_1 interrupted_trace (start cfg_3_1 0) = Some s /\
    NoDup (map request_id (recorded s)) /\
    total_requests (stats s) = successful (stats s) + failed (stats s).
Proof.
  destruct (exec cfg_3_1 interrupted_trace (start cfg_3_1 0)) as [s|] eqn:He;
    [|vm_compute in He; discriminate He].
  destruct record_once_and_counted as (_ & _ & Hrun).
  destruct (Hrun cfg_3_1 s) as (Hnd & _ & Hsum & _).
  { exists 0%Q, interrupted_trace. split; [apply any_trace_ok | exact He]. }
  exists s. repeat split; assumption.
Defined.

(** ** A target that always times out *)

Lemma only_timeouts_update n st r :
  only_timeouts n st -> timed_out_result (request_id r) r ->
  only_timeouts (S n) (_update_stats st r).
Proof.
  intros (Ht & Hs & Hf & He & Hc) (_ & Hst & Hsucc & Hty & Herr).
  unfold only_timeouts, _update_stats. simpl.
  rewrite Hsucc, Hty, Herr, Hst, Ht, Hs, Hf, He, Hc. simpl.
  fold timeout_key. unfold bump.
  repeat split; try lia.
  - destruct n.
    + rewrite lookup_empty. simpl. apply insert_empty.
    + rewrite lookup_singleton_eq. simpl. rewrite insert_singleton_eq.
      f_equal. lia.
  - destruct n.
    + rewrite lookup_empty. simpl. apply insert_empty.
    + rewrite lookup_singleton_eq. simpl. rewrite insert_singleton_eq.
      f_equal. lia.
Qed.

Lemma only_timeouts_tally rs :
  forall n st,
    only_timeouts n st ->
    Forall (fun r => timed_out_result (request_id r) r) rs ->
    only_timeouts (n + length rs) (tally rs st).
Proof.
  induction rs as [|r rs IH]; intros n st Hst Hall; simpl.
  - rewrite Nat.add_0_r. assumption.
  - apply Forall_cons in Hall as [Hr Hall].
    replace (n + S (length rs))%nat with (S n + length rs)%nat by lia.
    apply IH; [|assumption]. apply only_timeouts_update; assumption.
Qed.

Lemma all_timeouts cfg s :
  reachable cfg timeout_env s ->
  ctl s = Done ->
  Z.of_nat (length (recorded s)) = Z.max 0 (num_requests cfg) /\
  abandoned s = [] /\
  only_timeouts (length (recorded s)) (stats s) /\
  forall r, r ∈ recorded s ->
    timed_out_result (request_id r) r /\
    hits (request_id r) (attempted s) = 4%nat.
Proof.
  intros Hreach Hdone.
  apply (inv_reachable cfg timeout_env timed_out_four_times) in Hreach.
  - destruct Hreach. rewrite Hdone in inv_ctl0.
    destruct inv_ctl0 as (Hu & _ & Hall).
    assert (abandoned s = []) as Hab.
    { destruct (abandoned s) as [|id l]; [reflexivity|].
      destruct (inv_abandoned0 id) as (n & _ & res & Hres & _);
        [left|discriminate]. }
    assert (forall r, r ∈ recorded s ->
              timed_out_result (request_id r) r /\
              hits (request_id r) (attempted s) = 4%nat) as Hrec.
    { intros r Hr. destruct (inv_recorded0 r Hr) as (Hn & res & [= <-] & H).
      auto. }
    split; [|split; [assumption|split; [|assumption]]].
    + specialize (Hall ltac:(discriminate)). unfold settled in Hall.
      rewrite Hab, Hu in Hall. simpl in Hall. lia.
    + rewrite inv_stats0.
      apply (only_timeouts_tally (recorded s) 0).
      * repeat split; reflexivity.
      * apply Forall_forall. intros r Hr. apply Hrec. assumption.
  - intros id n r (_ & res & [= <-] & Hid & _). exact Hid.
  - intros id. apply (wp_activations_timeout id 3 0). reflexivity.
  - reflexivity.
Qed.

Lemma timeouts_of_worker_ok w :
  Forall (label_ok timeout_env) (timeouts_of_worker w).
Proof.
  unfold timeouts_of_worker. simpl.
  repeat (apply Forall_cons_2; [simpl; eauto|]). apply Forall_nil_2.
Qed.

Lemma all_timeouts_trace_ok : Forall (label_ok timeout_env) all_timeouts_trace.
Proof.
  unfold all_timeouts_trace.
  apply Forall_app_2; [|apply Forall_app_2].
  - repeat (apply Forall_cons_2; [exact I|]). apply Forall_nil_2.
  - apply List.Forall_flat_map. apply Forall_forall. intros i _.
    apply timeouts_of_worker_ok.
  - repeat (apply Forall_cons_2; [exact I|]). apply Forall_nil_2.
Qed.

Lemma all_timeouts_trace_done :
  exists s,
    exec cfg_20_4 all_timeouts_trace (start cfg_20_4 0) = Some s /\
    ctl s = Done.
Proof.
  assert (ctl <$> exec cfg_20_4 all_timeouts_trace (start cfg_20_4 0)
          = Some Done) as H by (vm_compute; reflexivity).
  destruct (exec cfg_20_4 all_timeouts_trace (start cfg_20_4 0)) as [s|];
    [|discriminate].
  exists s. split; [reflexivity|]. injection H as ->. reflexivity.
Qed.

(** C9, as the code has it: with 20 requests, 4 workers, no signal and
    every attempt timing out, a run that reaches its report has
    [total_requests = 20], [failed = 20], and an error histogram with the
    single key ["TimeoutError: Request timed out after 30 seconds"] counted
    20 times; each of the 20 recorded results is a ['TIMEOUT'] for which 4
    requests were sent. *)
Theorem all_timeouts_20_4 (t0 : Q) (tr : list label) (s : state) :
  Forall (label_ok timeout_env) tr ->
  exec cfg_20_4 tr (start cfg_20_4 t0) = Some s ->
  ctl s = Done ->
  total_requests (stats s) = 20 /\
  failed (stats s) = 20 /\
  successful (stats s) = 0 /\
  errors (stats s)
    = {[ "TimeoutError: Request timed out after 30 seconds" := 20 ]} /\
  length (recorded s) = 20%nat /\
  forall r, r ∈ recorded s ->
    status_code r = Sentinel "TIMEOUT" /\
    hits (request_id r) (attempted s) = 4%nat.
Proof.
  intros Hok Hexec Hdone.
  destruct (all_timeouts cfg_20_4 s) as (Hlen & _ & Hst & Hrec);
    [exists t0, tr; auto | assumption |].
  simpl in Hlen. assert (length (recorded s) = 20%nat) as Hn by lia.
  rewrite Hn in Hst. destruct Hst as (Ht & Hs & Hf & He & _).
  repeat split; try assumption; apply Hrec in H; destruct H as [H4 H5];
    [apply H4 | apply H5].
Qed.

Lemma all_timeouts_20_4_witness :
  exists s,
    exec cfg_20_4 all_timeouts_trace (start cfg_20_4 0) = Some s /\
    total_requests (stats s) = 20 /\
    failed (stats s) = 20 /\
    errors (stats s)
      = {[ "TimeoutError: Request timed out after 30 seconds" := 20 ]}.
Proof.
  destruct all_timeouts_trace_done as (s & Hexec & Hdone).
  destruct (all_timeouts_20_4 0 all_timeouts_trace s all_timeouts_trace_ok
              Hexec Hdone) as (Ht & Hf & _ & He & _).
  exists s. repeat split; assumption.
Defined.

(** The claim of C9 about the histogram key fails on that run: no key of
    the error histogram begins with ["Timeout: "]. *)
Lemma timeout_key_counterexample :
  exists s,
    exec cfg_20_4 all_timeouts_trace (start cfg_20_4 0) = Some s /\
    ctl s = Done /\
    ~ exists key n,
        errors (stats s) !! key = Some n /\
        String.prefix "Timeout: " key = true.
Proof.
  destruct all_timeouts_trace_done as (s & Hexec & Hdone).
  exists s. split; [assumption|]. split; [assumption|].
  destruct (all_timeouts cfg_20_4 s) as (Hlen & _ & Hst & _);
    [exists 0%Q, all_timeouts_trace; auto using all_timeouts_trace_ok
    | assumption |].
  simpl in Hlen. assert (length (recorded s) = 20%nat) as Hn by lia.
  rewrite Hn in Hst. destruct Hst as (_ & _ & _ & He & _).
  intros (key & n & Hkey & Hpre). rewrite He in Hkey.
  apply lookup_singleton_Some in Hkey as [<- _].
  vm_compute in Hpre. discriminate.
Qed.

(** ** The report *)

Lemma py_div_some a b : ~ (b == 0)%Q -> py_div a b = Some (a / b)%Q.
Proof.
  intros H. unfold py_div. destruct (Qeq_bool b 0) eqn:Hb; [|reflexivity].
  apply Qeq_bool_iff in Hb. contradiction.
Qed.

Lemma py_max2_ge a b : (b <= py_max2 a b)%Q.
Proof.
  unfold py_max2. destruct (Qle_bool b a) eqn:H.
  - apply Qle_bool_iff. assumption.
  - apply Qle_refl.
Qed.

Lemma inject_Z_nonzero n : n <> 0 -> ~ (inject_Z n == 0)%Q.
Proof.
  intros H Hq. apply H. unfold Qeq in Hq. simpl in Hq. lia.
Qed.

(** C10: once both timestamps are set, [_print_results] computes every
    figure of the report.  The percentages divide by
    [max(total_requests, 1) >= 1], the rate divides by
    [max(duration, 0.1) >= 0.1], and the average, minimum and maximum are
    computed exactly when [response_times] is not empty. *)
Theorem report_without_zero_division (st : Stats) (t_start t_end : Q) :
  start_time st = Some t_start ->
  end_time st = Some t_end ->
  exists rep,
    _print_results st = Some rep /\
    rep_total rep = total_requests st /\
    rep_duration rep = (t_end - t_start)%Q /\
    rep_successful_pct rep
      = (inject_Z (successful st)
         / inject_Z (Z.max (total_requests st) 1) * 100)%Q /\
    rep_failed_pct rep
      = (inject_Z (failed st)
         / inject_Z (Z.max (total_requests st) 1) * 100)%Q /\
    rep_per_sec rep
      = (inject_Z (total_requests st)
         / py_max2 (t_end - t_start) (1 # 10))%Q /\
    1 <= Z.max (total_requests st) 1 /\
    (1 # 10 <= py_max2 (t_end - t_start) (1 # 10))%Q /\
    (rep_times rep = None <-> response_times st = []).
Proof.
  intros Hs He. unfold _print_results. rewrite Hs, He. simpl.
  rewrite (py_div_some (inject_Z (successful st)))
    by (apply inject_Z_nonzero; lia).
  rewrite (py_div_some (inject_Z (failed st)))
    by (apply inject_Z_nonzero; lia).
  rewrite (py_div_some (inject_Z (total_requests st))).
  2: { intros H. pose proof (py_max2_ge (t_end - t_start) (1 # 10)) as Hge.
       rewrite H in Hge. unfold Qle in Hge. simpl in Hge. lia. }
  simpl. destruct (response_times st) as [|t ts] eqn:Hts;
    simpl; (eexists; split; [reflexivity|]); simpl;
    repeat split; try reflexivity; try lia; try discriminate;
    apply py_max2_ge.
Qed.

Lemma report_without_zero_division_witness :
  exists rep,
    _print_results
      (set_end_time 0 (set_start_time 0 stats_init)) = Some rep /\
    rep_total rep = 0 /\
    (rep_per_sec rep == 0)%Q /\
    rep_times rep = None.
Proof.
  destruct (report_without_zero_division
              (set_end_time 0 (set_start_time 0 stats_init)) 0 0
              eq_refl eq_refl)
    as (rep & Hrep & Ht & _ & _ & _ & Hrate & _ & _ & Htimes).
  exists rep. split; [assumption|]. split; [assumption|].
  split; [rewrite Hrate; reflexivity|]. apply Htimes. reflexivity.
Defined.

(** ** A run interrupted while items are still queued *)

Lemma stranded_step cfg l s s' :
  stranded s -> step cfg l s = Some s' -> stranded s'.
Proof.
  intros (Hc & Hu & Hw & He) Hstep.
  destruct l as [|d| |i a|w a]; simpl in Hstep.
  - injection Hstep as <-. repeat split; assumption.
  - destruct (Qle_bool 0 d); [|discriminate].
    injection Hstep as <-. repeat split; assumption.
  - unfold step_ctl in Hstep. rewrite Hc in Hstep.
    destruct (unfinished s =? 0) eqn:Hz; [|discriminate].
    apply Z.eqb_eq in Hz. lia.
  - rewrite Hc in Hstep. discriminate.
  - unfold step_worker in Hstep.
    destruct (workers s !! w) as [x|] eqn:Hx; [|discriminate].
    assert (x = WStop) as ->.
    { eapply Forall_forall in Hw; [eassumption|].
      eapply list_elem_of_lookup_2. eassumption. }
    discriminate.
Qed.

Lemma stranded_forever cfg tr :
  forall s s', stranded s -> exec cfg tr s = Some s' -> stranded s'.
Proof.
  induction tr as [|l tr IH]; intros s s' Hs Hexec; simpl in Hexec.
  - injection Hexec as <-. assumption.
  - destruct (step cfg l s) as [s1|] eqn:Hstep; [|discriminate].
    simpl in Hexec. eapply IH; [|eassumption].
    eapply stranded_step; eassumption.
Qed.

(** C2, evaluated on the code: 3 requests, 1 worker, the signal arriving
    while request 1 is in flight.  Request 1 is recorded, the worker leaves
    its loop, identifiers 2 and 3 stay on the queue, and [run] waits in
    [queue.join()] for ever: whatever happens next, [end_time] is never set
    and the report is never reached. *)
Theorem interrupted_run_never_reports :
  exists s,
    exec cfg_3_1 interrupted_trace (start cfg_3_1 0) = Some s /\
    running s = false /\
    map request_id (recorded s) = [1] /\
    queue s = [2; 3] /\
    unfinished s = 2 /\
    workers s = [WStop] /\
    ctl s = Join /\
    forall tr s',
      exec cfg_3_1 tr s = Some s' ->
      ctl s' = Join /\ ctl s' <> Done /\ end_time (stats s') = None.
Proof.
  assert ((fun s => (running s, map request_id (recorded s), queue s,
                     unfinished s, workers s, ctl s, end_time (stats s)))
            <$> exec cfg_3_1 interrupted_trace (start cfg_3_1 0)
          = Some (false, [1], [2; 3], 2, [WStop], Join, None)) as H
    by (vm_compute; reflexivity).
  destruct (exec cfg_3_1 interrupted_trace (start cfg_3_1 0)) as [s|];
    [|discriminate].
  injection H as H1 H2 H3 H4 H5 H6 H7.
  exists s. repeat split; try assumption.
  all: assert (stranded s')
    by (eapply stranded_forever; [|eassumption];
        repeat split; try assumption; [lia | rewrite H5; repeat constructor]).
  all: destruct H0 as (Hc & _ & _ & He); try assumption.
  rewrite Hc. discriminate.
Qed.

(** ** Timestamps and the warmup *)

Lemma exec_app cfg tr1 tr2 s :
  exec cfg (tr1 ++ tr2) s = exec cfg tr1 s ≫= exec cfg tr2.
Proof.
  revert s. induction tr1 as [|l tr1 IH]; intros s; simpl; [reflexivity|].
  destruct (step cfg l s) as [s1|]; simpl; [apply IH|reflexivity].
Qed.

Lemma timing_start cfg t0 : timing t0 (start cfg t0).
Proof.
  unfold timing, start. simpl. split; [reflexivity|].
  split; [apply Qle_refl|].
  destruct (0 <? warmup_count cfg); simpl; auto.
Qed.

Lemma timing_step cfg t0 l s s' :
  timing t0 s -> step cfg l s = Some s' -> timing t0 s'.
Proof.
  intros (Hst & Hle & Hc) Hstep.
  destruct l as [|d| |i a|w a]; simpl in Hstep.
  - injection Hstep as <-. repeat split; assumption.
  - destruct (Qle_bool 0 d) eqn:Hd; [|discriminate].
    apply Qle_bool_iff in Hd. injection Hstep as <-.
    unfold timing. simpl. split; [assumption|]. split; [lra|].
    destruct (ctl s); try assumption.
    destruct Hc as (t_end & He & H1 & H2). exists t_end.
    repeat split; try assumption. lra.
  - unfold step_ctl in Hstep.
    destruct (ctl s) as [tasks|i|i| | |] eqn:Hctl.
    + destruct (forallb is_ret tasks); [|discriminate].
      injection Hstep as <-. destruct Hc as (Hs & _ & _).
      unfold timing. simpl. rewrite Hs. simpl. auto.
    + destruct (i <? num_requests cfg); [destruct (negb (running s))|];
        injection Hstep as <-; unfold timing; simpl; auto.
    + destruct (full cfg (queue s)); [discriminate|].
      injection Hstep as <-. unfold timing; simpl; auto.
    + destruct (unfinished s =? 0); [|discriminate].
      injection Hstep as <-. unfold timing; simpl; auto.
    + injection Hstep as <-. unfold timing; simpl.
      split; [assumption|]. split; [assumption|].
      exists (clock s). split; [reflexivity|]. split; [assumption|].
      apply Qle_refl.
    + discriminate.
  - destruct (ctl s) as [tasks| | | | |] eqn:Hctl; try discriminate.
    destruct (tasks !! i) as [c|]; [|discriminate]. simpl in Hstep.
    destruct (resume (running s) (clock s) a c); [|discriminate].
    injection Hstep as <-. unfold timing. simpl. auto.
  - unfold step_worker in Hstep.
    destruct (workers s !! w) as [x|] eqn:Hw; [|discriminate].
    assert (match ctl s with
            | Warmup _ => False
            | Done =>
                exists t_end,
                  end_time (stats s) = Some t_end /\
                  (t0 <= t_end)%Q /\ (t_end <= clock s)%Q
            | _ => end_time (stats s) = None
            end) as Hc'.
    { destruct (ctl s); try assumption.
      destruct Hc as (_ & _ & Hnil). rewrite Hnil, lookup_nil in Hw.
      discriminate. }
    clear Hc.
    destruct x as [| | |id c|]; destruct a as [| |a]; try discriminate.
    + injection Hstep as <-. unfold timing; simpl.
      destruct (ctl s); try contradiction; auto.
    + injection Hstep as <-. unfold timing; simpl.
      destruct (ctl s); try contradiction; auto.
    + destruct (queue s); [discriminate|]. injection Hstep as <-.
      unfold timing; simpl. destruct (ctl s); try contradiction; auto.
    + injection Hstep as <-. unfold timing; simpl.
      destruct (ctl s); try contradiction; auto.
    + destruct c as [result|]; [|discriminate]. injection Hstep as <-.
      unfold timing; simpl.
      destruct result; simpl; destruct (ctl s); try contradiction; auto.
    + destruct (resume (running s) (clock s) a c); [|discriminate].
      injection Hstep as <-. unfold timing; simpl.
      destruct (ctl s); try contradiction; auto.
Qed.

Lemma timing_exec cfg t0 tr :
  forall s s', timing t0 s -> exec cfg tr s = Some s' -> timing t0 s'.
Proof.
  induction tr as [|l tr IH]; intros s s' Hs Hexec; simpl in Hexec.
  - injection Hexec as <-. assumption.
  - destruct (step cfg l s) as [s1|] eqn:Hstep; [|discriminate].
    simpl in Hexec. eapply IH; [|eassumption].
    eapply timing_step; eassumption.
Qed.

(** C4, as the code has it: [start_time] is the time at which [run]
    began, before the warmup, and nothing changes it afterwards.  While
    the warmup tasks run the statistics are untouched; the step that ends
    the warmup leaves the six counters empty and [start_time] as it was;
    from then on the statistics are the tally of the results the workers
    recorded.  [end_time] is set once, at the end, so the two timestamps
    bracket the warmup as well as the measured requests. *)
Theorem start_time_precedes_warmup (cfg : config) (t0 : Q)
    (tr : list label) (s : state) :
  exec cfg tr (start cfg t0) = Some s ->
  start_time (stats s) = Some t0 /\
  (t0 <= clock s)%Q /\
  (forall tasks,
      ctl s = Warmup tasks ->
      stats s = set_start_time t0 stats_init /\
      forall s',
        step cfg Ctl s = Some s' ->
        ctl s' = Produce 0 /\
        stats s' = fresh (Some t0) None /\
        recorded s' = []) /\
  stats s = tally (recorded s)
              (fresh (Some t0) (end_time (stats s))) /\
  (ctl s = Done ->
     exists t_end,
       end_time (stats s) = Some t_end /\
       (t0 <= t_end)%Q /\ (t_end <= clock s)%Q).
Proof.
  intros Hexec.
  pose proof (timing_exec cfg t0 tr _ _ (timing_start cfg t0) Hexec)
    as (Hst & Hle & Hc).
  assert (reachable cfg any_env s) as Hreach
    by (exists t0, tr; split; [apply any_trace_ok | assumption]).
  destruct (recorded_once cfg s Hreach) as [_ Htally].
  rewrite Hst in Htally.
  split; [assumption|]. split; [assumption|]. split; [|split].
  - intros tasks Hctl. rewrite Hctl in Hc. destruct Hc as (Hs & Hr & _).
    split; [assumption|]. intros s' Hstep.
    unfold step, step_ctl in Hstep. rewrite Hctl in Hstep.
    destruct (forallb is_ret tasks); [|discriminate].
    injection Hstep as <-. simpl. rewrite Hs, Hr. auto.
  - assumption.
  - intros Hctl. rewrite Hctl in Hc. assumption.
Qed.

Lemma warmed_up_run :
  (fun s => (ctl s, clock s, start_time (stats s), end_time (stats s),
             total_requests (stats s)))
    <$> exec cfg_1_10 warmup_trace (start cfg_1_10 0)
  = Some (Produce 0, 5%Q, Some 0%Q, None, 0) /\
  (fun s => (ctl s, clock s, start_time (stats s), end_time (stats s),
             total_requests (stats s)))
    <$> exec cfg_1_10 (warmup_trace ++ measured_trace) (start cfg_1_10 0)
  = Some (Done, 7%Q, Some 0%Q, Some 7%Q, 1).
Proof. split; vm_compute; reflexivity. Qed.

Lemma start_time_precedes_warmup_witness :
  exists s,
    exec cfg_1_10 (warmup_trace ++ measured_trace) (start cfg_1_10 0)
      = Some s /\
    start_time (stats s) = Some 0%Q /\
    exists t_end, end_time (stats s) = Some t_end /\ (0 <= t_end)%Q.
Proof.
  destruct warmed_up_run as [_ H]. revert H.
  destruct (exec cfg_1_10 (warmup_trace ++ measured_trace)
              (start cfg_1_10 0)) as [s|] eqn:Hexec; [|discriminate].
  intros H. injection H as Hc _ _ _ _.
  destruct (start_time_precedes_warmup cfg_1_10 0 _ s Hexec)
    as (Hst & _ & _ & _ & Hdone).
  destruct (Hdone Hc) as (t_end & He & Hle & _).
  exists s. split; [reflexivity|]. split; [assumption|].
  exists t_end. split; assumption.
Defined.

(** The claim of C4 about the timestamps fails: with one warmup request
    that takes 5 seconds and one measured request that takes 2, the
    measured phase begins at time 5 and ends at time 7, while
    [start_time] is 0 and [end_time] is 7. *)
Lemma warmup_inside_bracket_counterexample :
  0 < warmup_count cfg_1_10 /\
  exists s1 s2,
    exec cfg_1_10 warmup_trace (start cfg_1_10 0) = Some s1 /\
    ctl s1 = Produce 0 /\ clock s1 = 5%Q /\
    exec cfg_1_10 measured_trace s1 = Some s2 /\
    ctl s2 = Done /\
    total_requests (stats s2) = 1 /\
    start_time (stats s2) = Some 0%Q /\
    end_time (stats s2) = Some 7%Q /\
    start_time (stats s2) <> Some (clock s1).
Proof.
  split; [reflexivity|].
  destruct warmed_up_run as [H1 H2].
  rewrite exec_app in H2. revert H1 H2.
  destruct (exec cfg_1_10 warmup_trace (start cfg_1_10 0)) as [s1|];
    [|discriminate].
  change (Some s1 ≫= exec cfg_1_10 measured_trace)
    with (exec cfg_1_10 measured_trace s1).
  destruct (exec cfg_1_10 measured_trace s1) as [s2|] eqn:Hexec;
    [|discriminate].
  intros [= A1 A2 A3 A4 A5] [= B1 B2 B3 B4 B5].
  exists s1, s2. repeat (split; [assumption || reflexivity|]).
  rewrite B3, A2. discriminate.
Qed.

(** ** The flag and work already taken from the queue *)

Lemma interp_failure id start st ty msg w script :
  interp (failure id start st ty msg) w script
  = Some (Some (failure_dict id (w_now w - start) (st, ty, msg)), w).
Proof. reflexivity. Qed.

(** C1, as the code has it: [_make_request] tests the flag when each of
    its activations starts, the first and the retries alike.  If the flag
    is clear then, it returns [None] without sending anything.  If the
    flag is set then, the attempt runs to its end whatever signal arrives
    meanwhile.  A response whose body is read gives a result.  A failure,
    of the request or of the body read after a status code was received,
    gives a result when no clause retries it or when it is the fourth;
    otherwise the call sleeps and starts over with the flag test, so that
    a signal arriving during the attempt or during the backoff makes it
    return [None], also when a status code had been received.  The worker
    records a result when there is one and marks the item done in both
    cases. *)
Theorem result_only_if_flag_set_at_attempt (id : Z) (rc : nat) (w : world)
    (script : list answer) :
  (w_running w = false ->
     interp (_make_request id rc) w script = Some (None, w)) /\
  (w_running w = true ->
     (forall code t t' sg sg',
         exists r w',
           interp (_make_request id rc) w
                  (AReq (inr code) t sg :: ARead (inr tt) t' sg' :: script)
             = Some (Some r, w') /\
           request_id r = id) /\
     (forall e t sg,
         retried e = false \/ (max_retries <= rc)%nat ->
         exists r w',
           interp (_make_request id rc) w (AReq (inl e) t sg :: script)
             = Some (Some r, w') /\
           request_id r = id) /\
     (forall e code t sg t' sg',
         retried e = false \/ (max_retries <= rc)%nat ->
         exists r w',
           interp (_make_request id rc) w
                  (AReq (inr code) t sg :: ARead (inl e) t' sg' :: script)
             = Some (Some r, w') /\
           request_id r = id) /\
     (forall e t sg late sg',
         retried e = true -> (rc < max_retries)%nat ->
         interp (_make_request id rc) w
                (AReq (inl e) t sg :: ASleep late sg' :: script)
         = interp (_make_request id (S rc))
                  (pass (slept (pass (sent w) t sg) (backoff rc))
                        (backoff rc + late) sg')
                  script /\
         (sg || sg' = true ->
          exists w',
            interp (_make_request id rc) w
                   (AReq (inl e) t sg :: ASleep late sg' :: script)
              = Some (None, w') /\
            w_attempts w' = S (w_attempts w))) /\
     (forall e code t sg t' sg' late sg'',
         retried e = true -> (rc < max_retries)%nat ->
         interp (_make_request id rc) w
                (AReq (inr code) t sg :: ARead (inl e) t' sg'
                 :: ASleep late sg'' :: script)
         = interp (_make_request id (S rc))
                  (pass (slept (pass (pass (sent w) t sg) t' sg')
                               (backoff rc))
                        (backoff rc + late) sg'')
                  script /\
         (sg || sg' || sg'' = true ->
          exists w',
            interp (_make_request id rc) w
                   (AReq (inr code) t sg :: ARead (inl e) t' sg'
                    :: ASleep late sg'' :: script)
              = Some (None, w') /\
            w_attempts w' = S (w_attempts w)))) /\
  (forall wk s,
      stats (finish wk id None s) = stats s /\
      recorded (finish wk id None s) = recorded s /\
      abandoned (finish wk id None s) = abandoned s ++ [id] /\
      unfinished (finish wk id None s) = unfinished s - 1) /\
  (forall wk s r,
      stats (finish wk id (Some r) s) = _update_stats (stats s) r /\
      recorded (finish wk id (Some r) s) = recorded s ++ [r] /\
      unfinished (finish wk id (Some r) s) = unfinished s - 1).
Proof.
  assert (forall e, retried e = false \/ (max_retries <= rc)%nat ->
            retried e && (rc <? max_retries)%nat = false) as Hfinal.
  { intros e [-> | Hge]; [reflexivity|].
    apply Nat.ltb_ge in Hge. rewrite Hge. apply andb_false_r. }
  split; [|split; [|split]].
  - intros Hw. destruct (_make_request_attempt id rc) as [again ->].
    apply interp_stopped. assumption.
  - intros Hw. split; [|split; [|split; [|split]]].
    + intros code t t' sg sg'.
      destruct (_make_request_attempt id rc) as [again ->].
      rewrite interp_response by assumption.
      eexists _, _. split; reflexivity.
    + intros e t sg He.
      destruct (_make_request_attempt id rc) as [again ->].
      rewrite interp_raise by assumption. rewrite except_clauses_eq.
      rewrite (Hfinal e He).
      rewrite interp_failure. eexists _, _. split; reflexivity.
    + intros e code t sg t' sg' He.
      destruct (_make_request_attempt id rc) as [again ->].
      rewrite interp_read_raise by assumption. rewrite except_clauses_eq.
      rewrite (Hfinal e He).
      rewrite interp_failure. eexists _, _. split; reflexivity.
    + intros e t sg late sg' He Hlt.
      rewrite _make_request_unfold by assumption.
      rewrite interp_raise by assumption.
      rewrite interp_retry by assumption.
      split; [reflexivity|]. intros Hsig.
      destruct (_make_request_attempt id (S rc)) as [again ->].
      rewrite interp_stopped.
      * eexists. split; reflexivity.
      * simpl. rewrite Hw. destruct sg, sg'; try reflexivity.
        discriminate Hsig.
    + intros e code t sg t' sg' late sg'' He Hlt.
      rewrite _make_request_unfold by assumption.
      rewrite interp_read_raise by assumption.
      rewrite interp_retry by assumption.
      split; [reflexivity|]. intros Hsig.
      destruct (_make_request_attempt id (S rc)) as [again ->].
      rewrite interp_stopped.
      * eexists. split; reflexivity.
      * simpl. rewrite Hw. destruct sg, sg', sg''; try reflexivity.
        discriminate Hsig.
  - intros wk s. repeat split.
  - intros wk s r. repeat split.
Qed.

Lemma result_only_if_flag_set_at_attempt_witness :
  exists w',
    interp (_make_request 1 0) world0
           [AReq (inr 200) 1 true; ARead (inl timed_out) 30 false;
            ASleep 0 false]
      = Some (None, w') /\
    w_attempts w' = 1%nat.
Proof.
  destruct (result_only_if_flag_set_at_attempt 1 0 world0 [])
    as (_ & Hset & _).
  destruct (Hset eq_refl) as (_ & _ & _ & _ & Hretry).
  destruct (Hretry timed_out 200 1%Q true 30%Q false 0%Q false eq_refl
              ltac:(unfold max_retries; lia)) as [_ Hnone].
  exact (Hnone eq_refl).
Defined.

Lemma interrupted_in_backoff :
  (fun s => (running s,
             match workers s !! 0%nat with
             | Some (WCall id _) => Some id
             | _ => None
             end,
             attempted s))
    <$> exec cfg_1_1 dequeue_trace (start cfg_1_1 0)
  = Some (true, Some 1, [1]) /\
  (fun s => (ctl s, recorded s, abandoned s, attempted s, unfinished s,
             total_requests (stats s), running s))
    <$> exec cfg_1_1 (dequeue_trace ++ stop_trace) (start cfg_1_1 0)
  = Some (Done, [], [1], [1], 0, 0, false).
Proof. split; vm_compute; reflexivity. Qed.

(** The claim of C1 fails: identifier 1 is taken from the queue and its
    first attempt is sent while the flag is set; the signal arrives during
    the backoff; the retry returns [None], nothing is recorded, and the
    run ends with an empty report. *)
Lemma dequeued_without_result_counterexample :
  exists s1 s2,
    exec cfg_1_1 dequeue_trace (start cfg_1_1 0) = Some s1 /\
    running s1 = true /\
    (exists c, workers s1 !! 0%nat = Some (WCall 1 c)) /\
    attempted s1 = [1] /\
    exec cfg_1_1 stop_trace s1 = Some s2 /\
    ctl s2 = Done /\
    recorded s2 = [] /\
    abandoned s2 = [1] /\
    unfinished s2 = 0 /\
    total_requests (stats s2) = 0.
Proof.
  destruct interrupted_in_backoff as [H1 H2].
  rewrite exec_app in H2. revert H1 H2.
  destruct (exec cfg_1_1 dequeue_trace (start cfg_1_1 0)) as [s1|];
    [|discriminate].
  change (Some s1 ≫= exec cfg_1_1 stop_trace)
    with (exec cfg_1_1 stop_trace s1).
  destruct (exec cfg_1_1 stop_trace s1) as [s2|] eqn:Hexec; [|discriminate].
  intros [= A1 A2 A3] [= B1 B2 B3 B4 B5 B6 B7].
  exists s1, s2. repeat (split; [assumption || reflexivity|]).
  split; [|repeat split; assumption].
  destruct (workers s1 !! 0%nat) as [[| | |id c|]|]; try discriminate.
  injection A2 as ->. eauto.
Qed.

(** * Further properties *)

(** ** [step] case by case *)

Lemma step_transition cfg l s s' :
  step cfg l s = Some s' <-> transition cfg s l s'.
Proof.
  split.
  - intros Hstep. destruct l as [|d| |i a|w a]; simpl in Hstep.
    + injection Hstep as <-. constructor.
    + destruct (Qle_bool 0 d) eqn:Hd; [|discriminate].
      injection Hstep as <-. constructor. apply Qle_bool_iff. assumption.
    + unfold step_ctl in Hstep.
      destruct (ctl s) as [tasks|i|i| | |] eqn:Hc.
      * destruct (forallb is_ret tasks) eqn:Hall; [|discriminate].
        injection Hstep as <-. econstructor; eassumption.
      * destruct (i <? num_requests cfg) eqn:Hlt;
          [apply Z.ltb_lt in Hlt | apply Z.ltb_ge in Hlt].
        -- destruct (running s) eqn:Hrun; simpl in Hstep;
             injection Hstep as <-;
             [eapply t_next | eapply t_break]; eassumption.
        -- injection Hstep as <-. eapply t_exhausted; eassumption.
      * destruct (full cfg (queue s)) eqn:Hfull; [discriminate|].
        injection Hstep as <-. apply t_put; assumption.
      * destruct (unfinished s =? 0) eqn:Hz; [|discriminate].
        apply Z.eqb_eq in Hz. injection Hstep as <-.
        apply t_join; assumption.
      * injection Hstep as <-. apply t_gather; assumption.
      * discriminate.
    + destruct (ctl s) as [tasks| | | | |] eqn:Hc; try discriminate.
      destruct (tasks !! i) as [c|] eqn:Hi; [|discriminate].
      simpl in Hstep.
      destruct (resume (running s) (clock s) a c) as [c'|] eqn:Hres;
        [|discriminate].
      injection Hstep as <-. eapply t_warmup; eassumption.
    + unfold step_worker in Hstep.
      destruct (workers s !! w) as [[| | |id c|]|] eqn:Hw; try discriminate.
      * destruct a; try discriminate. injection Hstep as <-.
        apply t_stagger; assumption.
      * destruct a; try discriminate. injection Hstep as <-.
        apply t_test; assumption.
      * destruct a as [| |a]; try discriminate.
        -- destruct (queue s) as [|id rest] eqn:Hq; [discriminate|].
           injection Hstep as <-. apply t_get; assumption.
        -- injection Hstep as <-. apply t_poll; assumption.
      * destruct a as [| |a]; try discriminate.
        -- destruct c as [result|]; [|discriminate].
           injection Hstep as <-. apply t_finish; assumption.
        -- destruct (resume (running s) (clock s) a c) as [c'|] eqn:Hres;
             [|discriminate].
           injection Hstep as <-. eapply t_io; eassumption.
  - intros Ht. destruct Ht; simpl; unfold step_ctl, step_worker;
      repeat match goal with H : _ = _ |- _ => rewrite H end;
      simpl; try reflexivity.
    + apply Qle_bool_iff in H. rewrite H. reflexivity.
    + apply Z.ltb_lt in H0. rewrite H0. reflexivity.
    + apply Z.ltb_lt in H0. rewrite H0. reflexivity.
    + apply Z.ltb_ge in H0. rewrite H0. reflexivity.
    + rewrite H1. reflexivity.
Qed.

Lemma reachable_start cfg E t0 : reachable cfg E (start cfg t0).
Proof. exists t0, []. split; [constructor | reflexivity]. Qed.

Lemma reachable_step cfg E s l s' :
  reachable cfg E s -> label_ok E l -> step cfg l s = Some s' ->
  reachable cfg E s'.
Proof.
  intros (t0 & tr & Hok & Hexec) Hl Hstep.
  exists t0, (tr ++ [l]). split.
  - apply Forall_app_2; [assumption|]. repeat constructor. assumption.
  - rewrite exec_app, Hexec. simpl. rewrite Hstep. reflexivity.
Qed.

Lemma reachable_exec cfg E tr :
  forall s s',
    reachable cfg E s -> Forall (label_ok E) tr ->
    exec cfg tr s = Some s' -> reachable cfg E s'.
Proof.
  induction tr as [|l tr IH]; intros s s' Hs Hok Hexec; simpl in Hexec.
  - injection Hexec as <-. assumption.
  - apply Forall_cons in Hok as [Hl Hok].
    destruct (step cfg l s) as [s1|] eqn:Hstep; [|discriminate].
    simpl in Hexec. eapply IH; [|eassumption..].
    eapply reachable_step; eassumption.
Qed.

(** To show that something holds of every state a run can reach: show it
    of the start, and show that each step keeps it. *)
Lemma run_invariant cfg (P : state -> Prop) :
  (forall t0, P (start cfg t0)) ->
  (forall s l s',
      reachable cfg any_env s -> P s -> transition cfg s l s' -> P s') ->
  forall s, reachable cfg any_env s -> P s.
Proof.
  intros Hstart Hstep s (t0 & tr & _ & Hexec).
  assert (forall tr s0 s,
             reachable cfg any_env s0 -> P s0 ->
             exec cfg tr s0 = Some s -> P s) as Hall.
  { clear tr Hexec. induction tr as [|l tr IH]; intros s0 s1 Hr Hp Hexec;
      simpl in Hexec.
    - injection Hexec as <-. assumption.
    - destruct (step cfg l s0) as [s2|] eqn:Hs; [|discriminate].
      simpl in Hexec. apply (IH s2 s1); [| |assumption].
      + eapply reachable_step; [eassumption| |eassumption].
        pose proof (any_trace_ok [l]) as Hl.
        apply Forall_cons in Hl as [Hl _]. exact Hl.
      + apply (Hstep s0 l s2 Hr Hp). apply step_transition. assumption. }
  eapply Hall; [apply reachable_start | apply Hstart | eassumption].
Qed.

Lemma reachable_inv cfg s :
  reachable cfg any_env s -> inv cfg any_env keeps_id s.
Proof.
  apply inv_reachable.
  - intros id n r H. apply H. reflexivity.
  - intros id. apply wp_activations_id.
  - exact I.
Qed.

(** ** Where the identifiers are *)

Lemma busy_le_length ws : (sum_list_with busy ws <= length ws)%nat.
Proof.
  induction ws as [|x ws IH]; simpl; [lia|]. destruct x; simpl; lia.
Qed.

Lemma holds_le_busy id ws :
  (sum_list_with (holds id) ws <= sum_list_with busy ws)%nat.
Proof.
  induction ws as [|x ws IH]; simpl; [lia|].
  pose proof (holds_busy id x). lia.
Qed.

Lemma shape_start cfg t0 : shape cfg (start cfg t0).
Proof.
  unfold start. destruct (0 <? warmup_count cfg) eqn:Hw;
    constructor; unfold taken, occ; simpl;
    rewrite ?create_workers_free by reflexivity; try reflexivity; try lia.
  all: try (intros id; rewrite ?create_workers_free by reflexivity;
            unfold hits; simpl; lia).
  unfold create_workers. rewrite length_map, length_seq. reflexivity.
Qed.

(** Moving between places where no item is held changes nothing. *)
Lemma shape_same cfg s s' :
  shape cfg s ->
  match ctl s, ctl s' with
  | Warmup _, Warmup _ => True
  | Warmup _, _ | _, Warmup _ => False
  | _, _ => True
  end ->
  length (workers s') = length (workers s) ->
  (forall m : worker -> nat,
      (forall x, m x <= busy x)%nat ->
      sum_list_with m (workers s') = sum_list_with m (workers s)) ->
  queue s' = queue s -> recorded s' = recorded s ->
  abandoned s' = abandoned s ->
  shape cfg s'.
Proof.
  intros [Hw Hb Hf Hk] Hc Hlen Hsum Hq Hr Ha.
  assert (taken s' = taken s) as Ht
    by (unfold taken; rewrite Hr, Ha, (Hsum busy) by auto; reflexivity).
  constructor; rewrite ?Hq, ?Ht.
  - rewrite Hlen, Hw. destruct (ctl s), (ctl s'); auto; contradiction.
  - assumption.
  - assumption.
  - intros id. rewrite <- Hk. unfold occ.
    rewrite Hq, Hr, Ha, (Hsum (holds id)) by (apply holds_busy).
    reflexivity.
Qed.

Lemma sum_insert_same {A : Type} (m : A -> nat) (l : list A) i old x :
  l !! i = Some old -> m x = m old ->
  sum_list_with m (<[i := x]> l) = sum_list_with m l.
Proof.
  intros Hl Hm. pose proof (sum_list_with_insert m l i old x Hl). lia.
Qed.

Lemma shape_step cfg s l s' :
  reachable cfg any_env s -> shape cfg s -> transition cfg s l s' ->
  shape cfg s'.
Proof.
  intros Hreach Hshape Ht.
  pose proof (reachable_inv cfg s Hreach) as Hinv.
  destruct Ht.
  - (* signal *) eapply shape_same; eauto. simpl. destruct (ctl s); auto.
  - eapply shape_same; eauto. simpl. destruct (ctl s); auto.
  - (* launch *)
    pose proof (inv_ctl _ _ _ _ Hinv) as Hc. rewrite H in Hc.
    destruct Hc as (_ & _ & _ & Hr & Ha & _).
    constructor; unfold taken, occ; simpl; rewrite ?Hr, ?Ha; simpl.
    + unfold create_workers. rewrite length_map, length_seq. reflexivity.
    + lia.
    + rewrite create_workers_free by reflexivity. reflexivity.
    + intros id. rewrite !create_workers_free by reflexivity.
      unfold hits. simpl. lia.
  - eapply shape_same; eauto. simpl. rewrite H. exact I.
  - eapply shape_same; eauto. simpl. rewrite H. exact I.
  - eapply shape_same; eauto. simpl. rewrite H. exact I.
  - (* put *)
    pose proof (inv_ctl _ _ _ _ Hinv) as Hc. rewrite H in Hc.
    destruct Hc as [Hi Hs].
    pose proof (inv_unfinished _ _ _ _ Hinv) as Hu.
    destruct Hshape as [Hw Hb Hf Hk].
    assert (i = Z.of_nat (taken s + length (queue s))) as Hput.
    { unfold settled in Hs. unfold taken. lia. }
    constructor; unfold taken, occ in *; simpl; rewrite ?length_app; simpl.
    + rewrite Hw, H. reflexivity.
    + intros Hpos. specialize (Hb Hpos). unfold full in H0.
      apply andb_false_iff in H0 as [H0|H0];
        [apply Z.ltb_ge in H0 | apply Z.leb_gt in H0]; lia.
    + replace (Z.of_nat (length (queue s) + 1))
        with (Z.of_nat (S (length (queue s)))) by lia.
      rewrite seqZ_S, <- Hf. f_equal. f_equal. lia.
    + intros id. rewrite hits_app. specialize (Hk id).
      destruct (decide (i + 1 = id)) as [<-|Hne].
      * rewrite hits_one. lia.
      * rewrite hits_other by assumption. lia.
  - (* join *)
    pose proof (inv_unfinished _ _ _ _ Hinv) as Hu.
    assert (sum_list_with busy (workers s) = 0%nat) as Hz by lia.
    eapply shape_same; eauto; simpl.
    + rewrite H. exact I.
    + apply length_map.
    + intros m Hm.
      rewrite !sum_list_with_zero; [reflexivity| |].
      * intros x Hx. apply (sum_list_with_in _ busy) in Hx.
        specialize (Hm x). lia.
      * intros x Hx. apply list_elem_of_fmap in Hx as (? & -> & _).
        specialize (Hm WStop). simpl in Hm. lia.
  - eapply shape_same; eauto. simpl. rewrite H. exact I.
  - eapply shape_same; eauto. simpl. rewrite H. exact I.
  - (* stagger *)
    pose proof (inv_running_ctl _ _ _ _ _ _ Hinv H) as Hnw.
    eapply shape_same; eauto; simpl.
    + destruct (ctl s); auto.
    + apply length_insert.
    + intros m Hm. eapply sum_insert_same; [eassumption|].
      pose proof (Hm WTest). pose proof (Hm WStagger). simpl in *. lia.
  - (* test *)
    pose proof (inv_running_ctl _ _ _ _ _ _ Hinv H) as Hnw.
    eapply shape_same; eauto; simpl.
    + destruct (ctl s); auto.
    + apply length_insert.
    + intros m Hm. eapply sum_insert_same; [eassumption|].
      pose proof (Hm WTest). pose proof (Hm WGet). pose proof (Hm WStop).
      destruct (running s); simpl in *; lia.
  - (* get *)
    pose proof (inv_running_ctl _ _ _ _ _ _ Hinv H) as Hnw.
    destruct Hshape as [Hw Hb Hf Hk].
    pose proof (sum_list_with_insert busy _ _ _
                  (WCall id (_make_request id 0)) H) as Hbusy.
    simpl in Hbusy.
    constructor; unfold taken, occ in *; simpl.
    + rewrite length_insert, Hw. destruct (ctl s); auto.
    + intros Hpos. specialize (Hb Hpos). rewrite H0 in Hb. simpl in Hb. lia.
    + rewrite H0 in Hf. simpl length in Hf.
      rewrite seqZ_cons in Hf by lia. injection Hf as Hid Hrest.
      rewrite Hrest at 1. f_equal; lia.
    + intros id0. specialize (Hk id0). rewrite H0 in Hk.
      rewrite hits_cons in Hk. simpl length in Hk.
      pose proof (sum_list_with_insert (holds id0) _ _ _
                    (WCall id (_make_request id 0)) H) as Hh.
      simpl in Hh. lia.
  - (* poll *)
    pose proof (inv_running_ctl _ _ _ _ _ _ Hinv H) as Hnw.
    eapply shape_same; eauto; simpl.
    + destruct (ctl s); auto.
    + apply length_insert.
    + intros m Hm. eapply sum_insert_same; [eassumption|].
      pose proof (Hm WTest). pose proof (Hm WGet). simpl in *. lia.
  - (* io *)
    pose proof (inv_running_ctl _ _ _ _ _ _ Hinv H) as Hnw.
    destruct Hshape as [Hw Hb Hf Hk].
    constructor; unfold taken, occ in *; simpl.
    + rewrite length_insert, Hw. destruct (ctl s); auto.
    + assumption.
    + rewrite (sum_insert_same busy _ _ _ _ H) by reflexivity. assumption.
    + intros id0. rewrite (sum_insert_same busy _ _ _ _ H) by reflexivity.
      rewrite (sum_insert_same (holds id0) _ _ _ _ H) by reflexivity.
      apply Hk.
  - (* finish *)
    pose proof (inv_running_ctl _ _ _ _ _ _ Hinv H) as Hnw.
    pose proof (inv_call _ _ _ _ Hinv _ _ _ H) as Hpost. simpl in Hpost.
    destruct Hshape as [Hw Hb Hf Hk].
    pose proof (sum_list_with_insert busy _ _ _ WTest H) as Hbusy.
    simpl in Hbusy.
    assert (taken (finish w id result s) = taken s) as Htaken.
    { unfold taken. simpl. destruct result; rewrite length_app; simpl; lia. }
    constructor; rewrite ?Htaken; simpl.
    + rewrite length_insert, Hw. destruct (ctl s); auto.
    + assumption.
    + assumption.
    + intros id0. rewrite <- Hk. unfold occ. simpl.
      pose proof (sum_list_with_insert (holds id0) _ _ _ WTest H) as Hh.
      simpl in Hh.
      destruct result as [res|].
      * rewrite map_app, hits_app. simpl map.
        rewrite (Hpost res eq_refl).
        destruct (decide (id = id0)) as [->|Hne].
        -- rewrite hits_one. lia.
        -- rewrite hits_other by assumption. lia.
      * rewrite hits_app.
        destruct (decide (id = id0)) as [->|Hne].
        -- rewrite hits_one. lia.
        -- rewrite hits_other by assumption. lia.
Qed.


Lemma reachable_shape cfg s : reachable cfg any_env s -> shape cfg s.
Proof.
  apply run_invariant.
  - apply shape_start.
  - intros s0 l s' Hr Hs Ht. eapply shape_step; eassumption.
Qed.

Lemma interrupted_reachable :
  exists s,
    exec cfg_3_1 interrupted_trace (start cfg_3_1 0) = Some s /\
    reachable cfg_3_1 any_env s.
Proof.
  destruct (exec cfg_3_1 interrupted_trace (start cfg_3_1 0)) as [s|] eqn:He;
    [|vm_compute in He; discriminate He].
  exists s. split; [reflexivity|].
  exists 0%Q, interrupted_trace. split; [apply any_trace_ok | exact He].
Qed.

Lemma dequeued_reachable :
  exists s c,
    exec cfg_1_1 dequeue_trace (start cfg_1_1 0) = Some s /\
    reachable cfg_1_1 any_env s /\
    workers s !! 0%nat = Some (WCall 1 c).
Proof.
  destruct interrupted_in_backoff as [H _]. revert H.
  destruct (exec cfg_1_1 dequeue_trace (start cfg_1_1 0)) as [s|] eqn:He;
    [|discriminate].
  intros [= _ Hw _].
  destruct (workers s !! 0%nat) as [[| | |id c|]|] eqn:Hl; try discriminate.
  injection Hw as ->.
  exists s, c. split; [reflexivity|]. split; [|exact Hl].
  exists 0%Q, dequeue_trace. split; [apply any_trace_ok | exact He].
Qed.



(** X2: the queue's count of unfinished items is always the number of
    identifiers queued plus the number held by workers; it is never
    negative, and it is positive whenever a worker is about to call
    [queue.task_done()], which therefore never raises. *)
Theorem task_done_in_time (cfg : config) (s : state) :
  reachable cfg any_env s ->
  unfinished s
    = Z.of_nat (length (queue s) + sum_list_with busy (workers s)) /\
  0 <= unfinished s /\
  forall w id c,
    workers s !! w = Some (WCall id c) ->
    1 <= unfinished s /\
    forall result, 0 <= unfinished (finish w id result s).
Proof.
  intros Hreach.
  pose proof (inv_unfinished _ _ _ _ (reachable_inv cfg s Hreach)) as Hu.
  split; [assumption|]. split; [lia|].
  intros w id c Hw.
  pose proof (sum_list_with_lookup busy _ _ _ Hw) as Hb. simpl in Hb.
  split; [lia|]. intros result. simpl. lia.
Qed.

Lemma task_done_in_time_witness :
  exists s c,
    exec cfg_1_1 dequeue_trace (start cfg_1_1 0) = Some s /\
    workers s !! 0%nat = Some (WCall 1 c) /\
    1 <= unfinished s.
Proof.
  destruct dequeued_reachable as (s & c & He & Hr & Hw).
  destruct (task_done_in_time cfg_1_1 s Hr) as (_ & _ & Hbusy).
  destruct (Hbusy _ _ _ Hw) as [Hpos _].
  exists s, c. repeat split; assumption.
Defined.

Lemma taken_settled cfg s :
  reachable cfg any_env s ->
  Z.of_nat (taken s + length (queue s)) = settled s.
Proof.
  intros Hreach.
  pose proof (inv_unfinished _ _ _ _ (reachable_inv cfg s Hreach)) as Hu.
  unfold taken, settled. lia.
Qed.

Lemma identifiers_once cfg s :
  reachable cfg any_env s ->
  forall id, 1 <= id <= settled s -> occ id s = 1%nat.
Proof.
  intros Hreach id Hid.
  destruct (reachable_shape cfg s Hreach) as [_ _ _ Hk].
  destruct (inv_occ _ _ _ _ (reachable_inv cfg s Hreach) id) as [Hle _].
  rewrite <- (taken_settled cfg s Hreach) in Hid. apply Hk in Hid. lia.
Qed.

(** X3: no identifier is lost or duplicated, and the queue is first in,
    first out.  If [k] identifiers have been put so far, they are
    [1 .. k]; each of them is in exactly one place (on the queue, held by
    a worker, recorded, or abandoned) and no other identifier is anywhere;
    the queue holds the most recent of them in increasing order, so the
    workers take the identifiers in the order 1, 2, 3, ... *)
Theorem identifiers_kept_in_order (cfg : config) (s : state) :
  reachable cfg any_env s ->
  let k := settled s in
  let n := Z.of_nat (length (queue s)) in
  0 <= k <= Z.max 0 (num_requests cfg) /\
  queue s = seqZ (k - n + 1) n /\
  (forall id, 1 <= id <= k -> occ id s = 1%nat) /\
  (forall id, ~ 1 <= id <= k -> occ id s = 0%nat).
Proof.
  intros Hreach k n. subst k n.
  pose proof (reachable_inv cfg s Hreach) as Hinv.
  destruct (reachable_shape cfg s Hreach) as [_ _ Hf Hk].
  pose proof (taken_settled cfg s Hreach) as Hs.
  split; [|split; [|split]].
  - split; [lia|].
    pose proof (inv_ctl _ _ _ _ Hinv) as Hc.
    destruct (ctl s); try lia.
    destruct Hc as (_ & _ & Hu & Hr & Ha & _). unfold settled.
    rewrite Hr, Ha, Hu. simpl. lia.
  - rewrite Hf at 1. f_equal. lia.
  - intros id Hid. destruct (inv_occ _ _ _ _ Hinv id) as [Hle _].
    rewrite <- Hs in Hid. apply Hk in Hid. lia.
  - intros id Hid. destruct (occ id s) eqn:Ho; [reflexivity|].
    exfalso. apply Hid. rewrite <- Hs. apply Hk. lia.
Qed.

Lemma identifiers_kept_in_order_witness :
  exists s,
    exec cfg_3_1 interrupted_trace (start cfg_3_1 0) = Some s /\
    queue s = seqZ (settled s - Z.of_nat (length (queue s)) + 1)
                   (Z.of_nat (length (queue s))) /\
    occ 1 s = 1%nat /\ occ 4 s = 0%nat.
Proof.
  destruct interrupted_reachable as (s & He & Hr).
  destruct (identifiers_kept_in_order cfg_3_1 s Hr) as (Hk & Hq & Hin & Hout).
  assert (settled s = 3) as Hs.
  { assert (settled <$> exec cfg_3_1 interrupted_trace (start cfg_3_1 0)
            = Some 3) as H by (vm_compute; reflexivity).
    rewrite He in H. injection H as H. exact H. }
  exists s. split; [exact He|]. split; [exact Hq|].
  split; [apply Hin | apply Hout]; lia.
Defined.

(** X4: the report is reached only after a full drain.  Once
    [queue.join()] has returned, the queue is empty, no worker holds an
    identifier, and every identifier put so far is either recorded or
    abandoned, exactly once; [total_requests] is the number put minus the
    number abandoned. *)
Theorem report_means_drained (cfg : config) (s : state) :
  reachable cfg any_env s ->
  ctl s = Gather \/ ctl s = Done ->
  queue s = [] /\
  unfinished s = 0 /\
  sum_list_with busy (workers s) = 0%nat /\
  (forall id,
      1 <= id <= settled s ->
      (hits id (map request_id (recorded s)) + hits id (abandoned s))%nat
      = 1%nat) /\
  total_requests (stats s)
    = settled s - Z.of_nat (length (abandoned s)).
Proof.
  intros Hreach Hc.
  pose proof (reachable_inv cfg s Hreach) as Hinv.
  pose proof (inv_unfinished _ _ _ _ Hinv) as Hu.
  assert (unfinished s = 0) as Hz.
  { pose proof (inv_ctl _ _ _ _ Hinv) as H.
    destruct Hc as [Hc|Hc]; rewrite Hc in H; tauto. }
  assert (queue s = []) as Hq
    by (destruct (queue s); [reflexivity|simpl in Hu; lia]).
  assert (sum_list_with busy (workers s) = 0%nat) as Hb by lia.
  split; [assumption|]. split; [assumption|]. split; [assumption|]. split.
  - intros id Hid.
    pose proof (identifiers_once cfg s Hreach id Hid) as Hin.
    unfold occ in Hin. rewrite Hq in Hin.
    pose proof (holds_le_busy id (workers s)). unfold hits at 3 in Hin.
    simpl in Hin. lia.
  - destruct (recorded_once cfg s Hreach) as [_ Hst]. rewrite Hst.
    destruct (tally_counts (recorded s)
                (fresh (start_time (stats s)) (end_time (stats s))))
      as (Ht & _). rewrite Ht. unfold settled. simpl. lia.
Qed.

Lemma report_means_drained_witness :
  exists s,
    exec cfg_1_1 (dequeue_trace ++ stop_trace) (start cfg_1_1 0) = Some s /\
    queue s = [] /\
    total_requests (stats s) = settled s - Z.of_nat (length (abandoned s)).
Proof.
  destruct interrupted_in_backoff as [_ H]. revert H.
  destruct (exec cfg_1_1 (dequeue_trace ++ stop_trace) (start cfg_1_1 0))
    as [s|] eqn:He; [|discriminate].
  intros [= Hc _ _ _ _ _ _].
  destruct (report_means_drained cfg_1_1 s) as (Hq & _ & _ & _ & Ht).
  - exists 0%Q, (dequeue_trace ++ stop_trace).
    split; [apply any_trace_ok | exact He].
  - right. exact Hc.
  - exists s. repeat split; assumption.
Defined.

(** ** After the flag is cleared *)

Lemma exec_invariant cfg (P : state -> Prop) :
  (forall s l s',
      reachable cfg any_env s -> P s -> transition cfg s l s' -> P s') ->
  forall tr s s',
    reachable cfg any_env s -> P s -> exec cfg tr s = Some s' -> P s'.
Proof.
  intros Hstep. induction tr as [|l tr IH]; intros s s' Hr Hp Hexec;
    simpl in Hexec.
  - injection Hexec as <-. assumption.
  - destruct (step cfg l s) as [s1|] eqn:Hs; [|discriminate].
    simpl in Hexec. apply (IH s1 s'); [| |assumption].
    + eapply reachable_step; [eassumption| |eassumption].
      pose proof (any_trace_ok [l]) as Hl.
      apply Forall_cons in Hl as [Hl _]. exact Hl.
    + apply (Hstep s l s1 Hr Hp). apply step_transition. assumption.
Qed.

Lemma sends_at_most_mono {R : Type} (c : coro R) :
  forall b b', (b <= b')%nat -> sends_at_most c b -> sends_at_most c b'.
Proof.
  induction c as [r|X e k IH]; intros b b' Hle H; simpl in *; [exact I|].
  destruct e; simpl in *; eauto.
  destruct b as [|b]; [contradiction|].
  destruct b' as [|b']; [lia|]. intros r. eapply IH; [|apply H]. lia.
Qed.

Lemma winds_down_sends {R : Type} (c : coro R) :
  winds_down c -> sends_at_most c 1.
Proof. destruct c; simpl; tauto. Qed.

Lemma resume_stopped {R : Type} (now : Q) (a : io) (c c' : coro R) b :
  resume false now a c = Some c' ->
  sends_at_most c b ->
  if sends c
  then exists b', b = S b' /\ sends_at_most c' b'
  else sends_at_most c' b.
Proof.
  intros Hres H. destruct c as [r|X e k]; [discriminate|].
  destruct e; destruct a; simpl in *; try discriminate;
    injection Hres as <-; auto.
  destruct b as [|b]; [contradiction|]. eauto.
Qed.

Lemma resume_winds_down {R : Type} (now : Q) (a : io) (c c' : coro R) :
  resume true now a c = Some c' -> winds_down c -> winds_down c'.
Proof.
  intros Hres H. destruct c as [r|X e k]; [discriminate|].
  destruct H as [_ H].
  destruct e; destruct a; simpl in *; try discriminate;
    injection Hres as <-; auto.
Qed.

Lemma activations_stopped id depth rc :
  sends_at_most (activations depth id rc) 0 /\
  returns_none (activations depth id rc).
Proof.
  split.
  - destruct depth; simpl; exact I.
  - intros n. destruct depth; simpl; intros b ->; reflexivity.
Qed.

Lemma winds_down_except id rc start again e :
  winds_down again -> sends_at_most again 0 ->
  winds_down (except_clauses id rc start again e) /\
  sends_at_most (except_clauses id rc start again e) 0.
Proof.
  intros Hw Hs. rewrite except_clauses_eq.
  destruct (retried e && (rc <? max_retries)%nat); simpl.
  - repeat split; try assumption. apply winds_down_sends. assumption.
  - repeat split; auto.
Qed.

Lemma winds_down_attempt id rc again :
  winds_down again -> sends_at_most again 0 ->
  winds_down (attempt id rc again).
Proof.
  intros Hw Hs.
  assert (forall start e,
             winds_down (except_clauses id rc start again e) /\
             sends_at_most (except_clauses id rc start again e) 0) as Hex
    by (intros; apply winds_down_except; assumption).
  assert (forall start e,
             sends_at_most (except_clauses id rc start again e) 1) as Hex1
    by (intros; apply winds_down_sends, Hex).
  unfold attempt. simpl.
  split; [exact I|]. split.
  - intros t [e|code]; [apply Hex|]. simpl.
    intros t0 [e|[]]; [apply Hex | exact I].
  - intros t. split.
    + intros [e|code]; [apply Hex|]. simpl.
      intros t0 [e|[]]; [apply Hex | exact I].
    + intros [e|code]; [apply Hex|]. simpl. split.
      * intros t0 [e|[]]; [apply Hex1 | exact I].
      * intros t0. split.
        -- intros [e|[]]; [apply Hex1 | exact I].
        -- intros [e|[]]; [apply Hex | simpl; auto].
Qed.

Lemma winds_down_activations id depth :
  forall rc, winds_down (activations depth id rc).
Proof.
  induction depth as [|depth IH]; intros rc; cbn [activations];
    apply winds_down_attempt.
  - simpl. auto.
  - exact I.
  - apply IH.
  - apply activations_stopped.
Qed.

Lemma stops_winding cfg s :
  reachable cfg any_env s ->
  forall w id c,
    workers s !! w = Some (WCall id c) ->
    sends_at_most c 1 /\ (running s = true -> winds_down c).
Proof.
  apply (run_invariant cfg (fun s =>
    forall w id c,
      workers s !! w = Some (WCall id c) ->
      sends_at_most c 1 /\ (running s = true -> winds_down c))).
  - intros t0 w id c Hw. unfold start in Hw. simpl in Hw.
    destruct (0 <? warmup_count cfg);
      [rewrite lookup_nil in Hw; discriminate|].
    apply create_workers_idle in Hw as [?|?]; discriminate.
  - intros s0 l s' _ IH Ht. destruct Ht; simpl; intros w0 id0 c0 Hw0;
      try (eapply IH; eassumption).
    + split; [apply (IH _ _ _ Hw0) | discriminate].
    + apply create_workers_idle in Hw0 as [?|?]; discriminate.
    + rewrite list_lookup_fmap in Hw0.
      destruct (workers s0 !! w0); discriminate.
    + apply list_lookup_insert_Some in Hw0 as [(_ & [=] & _)|[_ Hw0]].
      eauto.
    + apply list_lookup_insert_Some in Hw0 as [(_ & Heq & _)|[_ Hw0]];
        [destruct (running s0); discriminate | eauto].
    + apply list_lookup_insert_Some in Hw0 as [(_ & [= <- <-] & _)|[_ Hw0]];
        [|eauto].
      pose proof (winds_down_activations id 3 0).
      split; [apply winds_down_sends|]; auto.
    + apply list_lookup_insert_Some in Hw0 as [(_ & [=] & _)|[_ Hw0]].
      eauto.
    + apply list_lookup_insert_Some in Hw0 as [(_ & [= <- <-] & _)|[_ Hw0]];
        [|eauto].
      destruct (IH _ _ _ H) as [Hs Hwd].
      destruct (running s0) eqn:Hrun.
      * pose proof (resume_winds_down _ _ _ _ H0 (Hwd eq_refl)).
        split; [apply winds_down_sends|]; auto.
      * split; [|discriminate].
        pose proof (resume_stopped _ _ _ _ _ H0 Hs) as Hr.
        destruct (sends c); [|assumption].
        destruct Hr as (b' & [= <-] & Hr).
        eapply sends_at_most_mono; [|eassumption]. lia.
    + apply list_lookup_insert_Some in Hw0 as [(_ & [=] & _)|[_ Hw0]].
      eauto.
Qed.

Lemma budget_workers cost ws :
  (forall w id c, ws !! w = Some (WCall id c) -> cost c 1%nat) ->
  budget cost ws (sum_list_with busy ws).
Proof.
  induction ws as [|x ws IH]; intros H; simpl; [constructor|].
  assert (budget cost ws (sum_list_with busy ws)) as Hws
    by (apply IH; intros w id c Hw; apply (H (S w) id c Hw)).
  destruct x as [| | |id c|];
    try (apply budget_idle; [reflexivity|assumption]).
  apply budget_call; [|assumption]. apply (H 0%nat id c). reflexivity.
Qed.

Lemma budget_free cost ws :
  (forall x, x ∈ ws -> busy x = 0%nat) -> budget cost ws 0.
Proof.
  induction ws as [|x ws IH]; intros H; [constructor|].
  apply budget_idle; [apply H; left|]. apply IH. intros y Hy. apply H.
  right. assumption.
Qed.

Lemma budget_cons cost x b ws n :
  costs cost x b -> budget cost ws n -> budget cost (x :: ws) (b + n).
Proof.
  intros Hx Hws. destruct x; simpl in Hx; subst;
    try (apply budget_idle; [reflexivity|assumption]).
  apply budget_call; assumption.
Qed.

Lemma budget_replace cost ws n :
  budget cost ws n ->
  forall w old,
    ws !! w = Some old ->
    exists b m,
      n = (b + m)%nat /\ costs cost old b /\
      forall x b', costs cost x b' ->
        budget cost (<[w := x]> ws) (b' + m).
Proof.
  induction 1 as [|x ws n Hx Hws IH|id c b ws n Hc Hws IH];
    intros w old Hw.
  - rewrite lookup_nil in Hw. discriminate.
  - destruct w as [|w]; simpl in Hw.
    + injection Hw as <-. exists 0%nat, n. split; [reflexivity|]. split.
      * destruct x; simpl in *; auto; discriminate.
      * intros y b' Hy. simpl. apply budget_cons; assumption.
    + destruct (IH w old Hw) as (b & m & -> & Hold & Hrep).
      exists b, m. split; [reflexivity|]. split; [assumption|].
      intros y b' Hy. simpl. apply budget_idle; auto.
  - destruct w as [|w]; simpl in Hw.
    + injection Hw as <-. exists b, n. split; [reflexivity|].
      split; [assumption|].
      intros y b' Hy. simpl. apply budget_cons; assumption.
    + destruct (IH w old Hw) as (b0 & m & -> & Hold & Hrep).
      exists b0, (b + m)%nat. split; [lia|]. split; [assumption|].
      intros y b' Hy. simpl.
      replace (b' + (b + m))%nat with (b + (b' + m))%nat by lia.
      apply budget_call; auto.
Qed.

Lemma budget_idle_insert cost ws n w old x :
  budget cost ws n -> ws !! w = Some old -> busy x = 0%nat ->
  exists m, (m <= n)%nat /\ budget cost (<[w := x]> ws) m.
Proof.
  intros Hb Hw Hx.
  destruct (budget_replace _ _ _ Hb w old Hw) as (b & m & -> & _ & Hrep).
  exists m. split; [lia|]. apply (Hrep x 0%nat).
  destruct x; simpl in *; auto; discriminate.
Qed.

Lemma wp_count {R : Type} (E : env) (P : R -> Prop) (c : coro R) :
  forall n m, wp E c n (fun _ r => P r) -> wp E c m (fun _ r => P r).
Proof.
  induction c as [r|X e k IH]; intros n m H; simpl in *; [exact H|].
  destruct e; simpl in *; eauto.
Qed.

Lemma resume_returns_none (now : Q) (a : io) (c c' : coro (option Result)) :
  resume false now a c = Some c' -> returns_none c -> returns_none c'.
Proof.
  intros Hres H n.
  apply (wp_count _ (fun r => r = None) _ (if sends c then 1 else 0)%nat).
  apply (wp_resume stop_env false now a c c' 0 _ Hres); [reflexivity| |apply H].
  destruct a; exact I.
Qed.

Lemma resume_yields (now : Q) (a : io) (c c' : coro (option Result)) b :
  resume false now a c = Some c' ->
  yields_at_most c b -> yields_at_most c' b.
Proof.
  destruct b; simpl; [apply resume_returns_none|auto].
Qed.

Lemma winding_yields cfg K s l s' :
  winding yields_at_most (fun s => length (recorded s)) K s ->
  transition cfg s l s' ->
  winding yields_at_most (fun s => length (recorded s)) K s'.
Proof.
  intros [Hrun (n & Hb & Hle)] Ht. unfold winding.
  destruct Ht; simpl;
    try (split; [first [reflexivity|assumption]|];
         first [ exists n; split; [assumption|lia]
               | match goal with
                 | Hw : workers s !! _ = Some _ |- _ =>
                     destruct (budget_idle_insert _ _ _ _ _
                                 (if running s then WGet else WStop)
                                 Hb Hw) as (m & Hm & Hb');
                     [destruct (running s); reflexivity|];
                     exists m; split; [assumption|lia]
                 end
               | match goal with
                 | Hw : workers s !! _ = Some _ |- _ =>
                     destruct (budget_idle_insert _ _ _ _ _ WTest Hb Hw)
                       as (m & Hm & Hb'); [reflexivity|];
                     exists m; split; [assumption|lia]
                 end ]).
  - (* the workers are created *)
    split; [assumption|]. exists 0%nat. split; [|lia].
    apply budget_free. intros x Hx. apply list_elem_of_lookup in Hx.
    destruct Hx as [w Hw].
    destruct (create_workers_idle _ _ _ Hw) as [-> | ->]; reflexivity.
  - (* the workers are cancelled *)
    split; [assumption|]. exists 0%nat. split; [|lia].
    apply budget_free. intros x Hx. apply list_elem_of_fmap in Hx.
    destruct Hx as (y & -> & _). reflexivity.
  - (* a call starts: it can only return None *)
    split; [assumption|].
    destruct (budget_replace _ _ _ Hb w _ H) as (b & m & -> & Hold & Hrep).
    simpl in Hold. subst b. exists m. split; [|lia].
    apply (Hrep (WCall id (_make_request id 0)) 0%nat).
    exact (proj2 (activations_stopped id _ 0)).
  - (* a call advances *)
    split; [assumption|].
    destruct (budget_replace _ _ _ Hb w _ H) as (b & m & -> & Hold & Hrep).
    simpl in Hold. rewrite Hrun in H0. exists (b + m)%nat.
    split; [|lia]. apply (Hrep (WCall id c') b).
    exact (resume_yields _ _ _ _ _ H0 Hold).
  - (* a call returns *)
    split; [assumption|].
    destruct (budget_replace _ _ _ Hb w _ H) as (b & m & -> & Hold & Hrep).
    exists m. split; [apply (Hrep WTest 0%nat); reflexivity|].
    destruct result as [r|]; [|lia].
    rewrite length_app. simpl.
    destruct b as [|b]; [|lia].
    specialize (Hold 0%nat). discriminate Hold.
Qed.

(** The identifiers put so far, [settled s], once the flag is clear. *)
Lemma stopped_puts cfg lo hi s l s' :
  reachable cfg any_env s ->
  running s = false /\ lo <= settled s /\ settled s + put_pending (ctl s) <= hi ->
  transition cfg s l s' ->
  running s' = false /\ lo <= settled s' /\
  settled s' + put_pending (ctl s') <= hi.
Proof.
  intros Hr (Hrun & Hlo & Hhi) Ht.
  pose proof (inv_ctl _ _ _ _ (reachable_inv _ _ Hr)) as Hctl.
  unfold settled in *.
  destruct Ht; simpl in *;
    try match goal with H : ctl s = _ |- _ => rewrite H in * end;
    simpl in *; try (repeat split; first [assumption|congruence|lia]).
  (* what is left: a call returns *)
  destruct result; simpl; rewrite ?length_app; simpl;
    repeat split; first [assumption|lia].
Qed.

Lemma interrupted_split :
  exists s1 s2,
    reachable cfg_3_1 any_env s1 /\ running s1 = false /\
    exec cfg_3_1 (drop 12 interrupted_trace) s1 = Some s2.
Proof.
  destruct interrupted_reachable as (s2 & He & _).
  rewrite <- (take_drop 12 interrupted_trace), exec_app in He.
  assert (running <$> exec cfg_3_1 (take 12 interrupted_trace)
                        (start cfg_3_1 0) = Some false) as Hf
    by (vm_compute; reflexivity).
  destruct (exec cfg_3_1 (take 12 interrupted_trace) (start cfg_3_1 0))
    as [s1|] eqn:H1; [|discriminate].
  exists s1, s2. split; [|split].
  - exists 0%Q, (take 12 interrupted_trace).
    split; [apply any_trace_ok | exact H1].
  - injection Hf as ->. reflexivity.
  - exact He.
Qed.

(** X5.  [_signal_handler] is the only writer of [self.running] after
    [__init__], and it only clears it: once the flag is clear it stays
    clear, whatever happens next.  From then on [run] puts at most one more
    identifier on the queue, the one whose [put] was already pending;
    [settled] counts the identifiers put so far. *)
Theorem cleared_flag_stops_the_producer cfg s1 tr s2 :
  reachable cfg any_env s1 ->
  running s1 = false ->
  exec cfg tr s1 = Some s2 ->
  running s2 = false /\
  settled s1 <= settled s2 <= settled s1 + put_pending (ctl s1).
Proof.
  intros Hr Hrun Hexec.
  assert (running s2 = false /\ settled s1 <= settled s2 /\
          settled s2 + put_pending (ctl s2) <= settled s1 + put_pending (ctl s1))
    as (H1 & H2 & H3).
  { apply (exec_invariant cfg
             (fun s => running s = false /\ settled s1 <= settled s /\
                       settled s + put_pending (ctl s)
                       <= settled s1 + put_pending (ctl s1)))
      with (tr := tr) (s := s1); [|assumption|repeat split; [assumption|lia|lia]
                                  |assumption].
    intros s l s' Hs Hp Ht. eapply stopped_puts; eassumption. }
  split; [assumption|]. split; [assumption|].
  destruct (ctl s2); simpl in H3; lia.
Qed.

Lemma cleared_flag_stops_the_producer_witness :
  exists s1 s2,
    exec cfg_3_1 (drop 12 interrupted_trace) s1 = Some s2 /\
    running s2 = false /\
    settled s1 <= settled s2 <= settled s1 + put_pending (ctl s1).
Proof.
  destruct interrupted_split as (s1 & s2 & Hr & Hf & He).
  exists s1, s2. split; [exact He|].
  exact (cleared_flag_stops_the_producer cfg_3_1 s1 _ s2 Hr Hf He).
Defined.

(** ** What the histograms hold *)

Lemma total_of_bump k d : total_of (bump k d) = total_of d + 1.
Proof.
  unfold total_of, bump.
  destruct (d !! k) as [v|] eqn:Hk; simpl.
  - rewrite <- insert_delete_eq.
    rewrite map_fold_insert_L; [|intros; lia|apply lookup_delete_eq].
    rewrite (map_fold_delete_L _ _ k v d); [lia|intros; lia|assumption].
  - rewrite map_fold_insert_L; [lia|intros; lia|assumption].
Qed.

Lemma counts_from_one_bump k d :
  counts_from_one d -> counts_from_one (bump k d).
Proof.
  intros H k' n. unfold bump.
  destruct (decide (k' = k)) as [->|Hne].
  - rewrite lookup_insert_eq. intros [= <-].
    destruct (d !! k) as [v|] eqn:Hk; simpl; [|lia].
    specialize (H k v Hk). lia.
  - rewrite lookup_insert_ne by congruence. apply H.
Qed.

Lemma tally_histograms rs :
  forall st,
    total_of (status_codes (tally rs st))
      = total_of (status_codes st) + Z.of_nat (length rs) /\
    total_of (errors (tally rs st)) + plain_failures rs + failed st
      = total_of (errors st) + failed (tally rs st) /\
    (counts_from_one (status_codes st) ->
     counts_from_one (status_codes (tally rs st))) /\
    (counts_from_one (errors st) -> counts_from_one (errors (tally rs st))).
Proof.
  unfold plain_failures.
  induction rs as [|r rs IH]; intros st; simpl tally.
  - simpl. repeat split; auto; lia.
  - destruct (IH (_update_stats st r)) as (H1 & H2 & H3 & H4).
    cbn [sum_list_with length]. simpl in H1, H2, H3, H4.
    rewrite total_of_bump in H1.
    split; [lia|]. split.
    + destruct (success r); [lia|].
      destruct (error_type r); [rewrite total_of_bump in H2|]; lia.
    + split.
      * intros H. apply H3, counts_from_one_bump, H.
      * intros H. apply H4. destruct (success r); [assumption|].
        destruct (error_type r); [apply counts_from_one_bump|]; assumption.
Qed.

Lemma reachable_shaped cfg s :
  reachable cfg any_env s -> inv cfg any_env shaped s.
Proof.
  apply inv_reachable.
  - intros id n r H. apply (H r). reflexivity.
  - intros id. apply wp_activations_shaped.
  - exact I.
Qed.

(** X7.  [_update_stats] keeps the two histograms in step with the
    counters.  In every state a run can reach, the counts of
    [status_codes] add up to [total_requests]; every failure is either in
    [errors] or is a response whose status code lies outside [200, 400),
    which [_update_stats] counts as failed without an entry in [errors];
    and no key is kept with a count below one. *)
Theorem histograms_add_up cfg s :
  reachable cfg any_env s ->
  total_of (status_codes (stats s)) = total_requests (stats s) /\
  total_of (errors (stats s)) + plain_failures (recorded s)
    = failed (stats s) /\
  counts_from_one (status_codes (stats s)) /\
  counts_from_one (errors (stats s)) /\
  forall r,
    r ∈ recorded s -> success r = false -> error_type r = None ->
    exists code, status_code r = Code code /\ ~ 200 <= code < 400.
Proof.
  intros Hr.
  destruct (recorded_once cfg s Hr) as [_ Hst].
  destruct (tally_histograms (recorded s)
              (fresh (start_time (stats s)) (end_time (stats s))))
    as (H1 & H2 & H3 & H4).
  destruct (tally_counts (recorded s)
              (fresh (start_time (stats s)) (end_time (stats s))))
    as (H5 & _).
  rewrite <- Hst in H1, H2, H3, H4, H5. simpl in H1, H2, H5.
  change (total_of ∅) with 0 in H1, H2.
  split; [lia|]. split; [lia|]. split; [|split].
  - apply H3. intros k n Hk. simpl in Hk. rewrite lookup_empty in Hk.
    discriminate.
  - apply H4. intros k n Hk. simpl in Hk. rewrite lookup_empty in Hk.
    discriminate.
  - intros r Hin Hs Hty.
    destruct (inv_recorded _ _ _ _ (reachable_shaped cfg s Hr) r Hin r eq_refl)
      as (_ & _ & Hcode & _).
    destruct (Hcode Hty) as (code & Hc & Hsucc). exists code.
    split; [assumption|]. rewrite Hs in Hsucc. lia.
Qed.

Lemma histograms_add_up_witness :
  exists s,
    exec cfg_3_1 interrupted_trace (start cfg_3_1 0) = Some s /\
    total_of (status_codes (stats s)) = total_requests (stats s) /\
    total_of (errors (stats s)) + plain_failures (recorded s)
      = failed (stats s).
Proof.
  destruct interrupted_reachable as (s & He & Hr).
  destruct (histograms_add_up cfg_3_1 s Hr) as (H1 & H2 & _).
  exists s. repeat split; assumption.
Defined.

(** ** Requests per identifier *)

Lemma reachable_any cfg E s : reachable cfg E s -> reachable cfg any_env s.
Proof.
  intros (t0 & tr & _ & Hexec). exists t0, tr.
  split; [apply any_trace_ok | exact Hexec].
Qed.

Lemma wp_bound {R : Type} (P : nat -> R -> Prop) (K : nat) (c : coro R) :
  (forall m r, P m r -> (m <= K)%nat) ->
  forall n, wp any_env c n P -> (n <= K)%nat.
Proof.
  intros HP. induction c as [r|X e k IH]; intros n H; simpl in H.
  - eapply HP, H.
  - destruct e; simpl in H.
    + apply (IH true), H. exact I.
    + apply (IH 0%Q), H.
    + apply Nat.lt_le_incl. apply (IH (inr 0) (S n)), H. exact I.
    + apply (IH (inr tt)), H. exact I.
    + apply (IH tt), H.
Qed.

Lemma wp_activations_counted (E : env) (id : Z) (depth : nat) :
  forall rc n,
    (rc + depth = max_retries)%nat -> (n <= rc)%nat ->
    wp E (activations depth id rc) n (counted_out id).
Proof.
  unfold counted_out, max_retries.
  induction depth as [|depth IH]; intros rc n Hrc Hn; cbn [activations];
    apply wp_attempt.
  all: try (intros; split; [lia|]; intros res [= <-]; split;
            [reflexivity|lia]).
  all: try (intros; split; [lia|]; intros res Hres; discriminate Hres).
  intros e _ Hlt _. apply IH; lia.
Qed.

Lemma reachable_counted cfg s :
  reachable cfg any_env s -> inv cfg any_env counted_out s.
Proof.
  apply inv_reachable.
  - intros id n r [_ H]. apply (H r). reflexivity.
  - intros id. apply wp_activations_counted; unfold max_retries; lia.
  - exact I.
Qed.

Lemma hits_bounded cfg s :
  reachable cfg any_env s ->
  forall id, (hits id (attempted s) <= S max_retries)%nat.
Proof.
  revert s.
  apply (run_invariant cfg
           (fun s => forall id, (hits id (attempted s) <= S max_retries)%nat)).
  - intros t0 id. unfold start.
    destruct (0 <? warmup_count cfg); simpl; lia.
  - intros s l s' Hr IH Ht.
    assert (reachable cfg any_env s') as Hr'.
    { eapply reachable_step; [exact Hr| |apply step_transition; exact Ht].
      pose proof (any_trace_ok [l]) as Hl.
      apply Forall_cons in Hl as [Hl _]. exact Hl. }
    destruct Ht; try exact IH.
    (* only a call that advances appends to [attempted] *)
    simpl. destruct (sends c) eqn:Hs; [|exact IH].
    intros id'. destruct (decide (id' = id)) as [->|Hne].
    + pose proof (inv_call _ _ _ _ (reachable_counted cfg _ Hr') w id c')
          as Hc.
      simpl in Hc.
      eapply (wp_bound (counted_out id)); [|apply Hc].
      * intros m r [Hm _]. exact Hm.
      * apply list_lookup_insert_eq.
        apply lookup_lt_Some in H. assumption.
    + rewrite hits_app, hits_other by congruence. specialize (IH id'). lia.
Qed.

Lemma sum_hits_cons (x : Z) (l ids : list Z) :
  sum_list_with (fun id => hits id (x :: l)) ids
  = (sum_list_with (fun id => if decide (x = id) then 1%nat else 0%nat) ids
     + sum_list_with (fun id => hits id l) ids)%nat.
Proof.
  induction ids as [|id ids IH]; cbn [sum_list_with]; [reflexivity|].
  rewrite IH, hits_cons. lia.
Qed.

Lemma sum_list_with_le {A : Type} (f : A -> nat) (K : nat) (l : list A) :
  (forall x, (f x <= K)%nat) -> (sum_list_with f l <= K * length l)%nat.
Proof.
  intros H. induction l as [|x l IH]; simpl; [lia|]. specialize (H x). lia.
Qed.

Lemma once_in_seqZ (x m : Z) (n : nat) :
  m <= x < m + Z.of_nat n ->
  sum_list_with (fun id => if decide (x = id) then 1%nat else 0%nat)
    (seqZ m (Z.of_nat n)) = 1%nat.
Proof.
  revert m. induction n as [|n IH]; intros m Hx; [lia|].
  rewrite Nat2Z.inj_succ, seqZ_cons by lia. simpl.
  replace (Z.pred (Z.succ (Z.of_nat n))) with (Z.of_nat n) by lia.
  destruct (decide (x = m)) as [->|Hne].
  - rewrite sum_list_with_zero; [reflexivity|].
    intros y Hy. apply elem_of_seqZ in Hy.
    rewrite decide_False by lia. reflexivity.
  - rewrite IH by lia. reflexivity.
Qed.

Lemma length_by_hits (l : list Z) (n : nat) :
  (forall x, x ∈ l -> 1 <= x <= Z.of_nat n) ->
  sum_list_with (fun id => hits id l) (seqZ 1 (Z.of_nat n)) = length l.
Proof.
  induction l as [|x l IH]; intros H.
  - apply sum_list_with_zero. reflexivity.
  - rewrite sum_hits_cons, IH, once_in_seqZ; [reflexivity| |].
    + assert (1 <= x <= Z.of_nat n) by (apply H; left). lia.
    + intros y Hy. apply H. right. assumption.
Qed.

(** ** Runs that no signal interrupts *)

Lemma complete_run cfg E Post s :
  inv cfg E Post s ->
  ~ env_flag E false ->
  (forall id n, ~ Post id n None) ->
  ctl s = Done ->
  abandoned s = [] /\
  map request_id (recorded s) ≡ₚ seqZ 1 (Z.max 0 (num_requests cfg)) /\
  forall id,
    1 <= id <= num_requests cfg ->
    exists r,
      r ∈ recorded s /\ request_id r = id /\
      Post id (hits id (attempted s)) (Some r).
Proof.
  intros Hinv Hnever Hsome Hdone.
  pose proof (inv_ctl _ _ _ _ Hinv) as Hctl. rewrite Hdone in Hctl.
  destruct Hctl as (Hu & _ & Hall). specialize (Hall Hnever).
  assert (abandoned s = []) as Hab.
  { destruct (abandoned s) as [|id l] eqn:Ha; [reflexivity|].
    destruct (inv_abandoned _ _ _ _ Hinv id) as [n Hn];
      [rewrite Ha; left|]. destruct (Hsome _ _ Hn). }
  unfold settled in Hall. rewrite Hab, Hu in Hall. simpl in Hall.
  assert (map request_id (recorded s)
          ≡ₚ seqZ 1 (Z.max 0 (num_requests cfg))) as Hperm.
  { apply submseteq_length_Permutation.
    - apply NoDup_submseteq.
      + apply hits_NoDup. intros id.
        destruct (inv_occ _ _ _ _ Hinv id) as [H _]. unfold occ in H. lia.
      + intros id Hin. apply elem_of_seqZ.
        destruct (inv_occ _ _ _ _ Hinv id) as [_ H].
        rewrite Hdone in H. simpl in H.
        apply hits_elem in Hin. unfold occ in H. lia.
    - rewrite length_seqZ, length_map. lia. }
  split; [assumption|]. split; [assumption|].
  intros id Hid.
  assert (id ∈ map request_id (recorded s)) as Hin
    by (rewrite Hperm; apply elem_of_seqZ; lia).
  apply list_elem_of_fmap in Hin as (r & -> & Hr).
  exists r. split; [assumption|]. split; [reflexivity|].
  apply (inv_recorded _ _ _ _ Hinv r Hr).
Qed.

Lemma wp_activations_answered (id : Z) (depth : nat) :
  forall rc n,
    (rc + depth = max_retries)%nat -> (n <= rc)%nat ->
    wp calm_env (activations depth id rc) n (answered id).
Proof.
  unfold answered, max_retries.
  induction depth as [|depth IH]; intros rc n Hrc Hn; cbn [activations];
    apply wp_attempt.
  all: try (intros H; discriminate H).
  all: try (intros; split; [lia|]; eexists; split; reflexivity).
  - intros e _ Hlt _. unfold max_retries in Hlt. lia.
  - intros e _ Hlt _. apply IH; lia.
Qed.

Lemma reachable_answered cfg s :
  reachable cfg calm_env s -> inv cfg calm_env answered s.
Proof.
  apply inv_reachable.
  - intros id n r (_ & res & [= <-] & H). exact H.
  - intros id. apply wp_activations_answered; unfold max_retries; lia.
  - reflexivity.
Qed.

(** X9.  A run that no signal interrupts and that reaches its report has
    dealt with every identifier: whatever the outcome of each request and
    body read, [recorded] holds exactly one result for each of
    [1 .. num_requests], obtained with one to four requests, nothing was
    dropped, and [total_requests], which is [successful + failed], is
    [num_requests], or 0 when [num_requests] is negative. *)
Theorem uninterrupted_run_is_complete cfg s :
  reachable cfg calm_env s ->
  ctl s = Done ->
  abandoned s = [] /\
  map request_id (recorded s) ≡ₚ seqZ 1 (Z.max 0 (num_requests cfg)) /\
  total_requests (stats s) = Z.max 0 (num_requests cfg) /\
  successful (stats s) + failed (stats s) = Z.max 0 (num_requests cfg) /\
  forall id,
    1 <= id <= num_requests cfg ->
    (1 <= hits id (attempted s) <= 4)%nat.
Proof.
  intros Hr Hdone.
  destruct (complete_run cfg calm_env answered s) as (Hab & Hperm & Hall);
    [apply reachable_answered; assumption
    |discriminate
    |intros id n (_ & res & Hres & _); discriminate Hres
    |assumption|].
  destruct (recorded_once cfg s (reachable_any _ _ _ Hr)) as [_ Hst].
  destruct (tally_counts (recorded s)
              (fresh (start_time (stats s)) (end_time (stats s))))
    as (H1 & H2 & _).
  rewrite <- Hst in H1, H2. simpl in H1, H2.
  assert (length (recorded s) = Z.to_nat (Z.max 0 (num_requests cfg))) as Hlen.
  { rewrite <- (length_map request_id), Hperm, length_seqZ. reflexivity. }
  split; [assumption|]. split; [assumption|].
  split; [lia|]. split; [lia|].
  intros id Hid. destruct (Hall id Hid) as (r & _ & _ & Hn & _).
  unfold max_retries in Hn. exact Hn.
Qed.

Lemma measured_run_reachable :
  exists s,
    exec cfg_1_10 (warmup_trace ++ measured_trace) (start cfg_1_10 0)
      = Some s /\
    ctl s = Done /\
    reachable cfg_1_10 calm_env s /\
    reachable cfg_1_10 (status_env 200) s.
Proof.
  destruct warmed_up_run as [_ H]. revert H.
  destruct (exec cfg_1_10 (warmup_trace ++ measured_trace) (start cfg_1_10 0))
    as [s|] eqn:He; [|discriminate].
  intros [= Hc _ _ _ _]. exists s. split; [reflexivity|].
  split; [assumption|].
  split; exists 0%Q, (warmup_trace ++ measured_trace);
    (split; [|exact He]);
    repeat (apply Forall_cons_2; [simpl; auto|]); apply Forall_nil_2.
Qed.

Lemma uninterrupted_run_is_complete_witness :
  exists s,
    exec cfg_1_10 (warmup_trace ++ measured_trace) (start cfg_1_10 0)
      = Some s /\
    abandoned s = [] /\
    map request_id (recorded s) ≡ₚ [1] /\
    total_requests (stats s) = 1.
Proof.
  destruct measured_run_reachable as (s & He & Hdone & Hr & _).
  destruct (uninterrupted_run_is_complete cfg_1_10 s Hr Hdone)
    as (H1 & H2 & H3 & _).
  exists s. repeat split; assumption.
Defined.

(** ** A target that always answers with the same status *)

Lemma wp_activations_served (code id : Z) (depth : nat) (rc : nat) :
  wp (status_env code) (activations depth id rc) 0 (served code id).
Proof.
  destruct depth; cbn [activations]; unfold attempt; simpl;
    intros b ->; simpl; intros t r ->; simpl; intros t' r' ->; simpl;
    (split; [reflexivity|]); eexists; repeat split.
Qed.

Lemma reachable_served cfg code s :
  reachable cfg (status_env code) s ->
  inv cfg (status_env code) (served code) s.
Proof.
  apply inv_reachable.
  - intros id n r (_ & res & [= <-] & H & _). exact H.
  - intros id. apply wp_activations_served.
  - reflexivity.
Qed.

Lemma only_status_update code n st r :
  only_status code n st ->
  status_code r = Code code ->
  success r = (200 <=? code) && (code <? 400) ->
  error_type r = None ->
  only_status code (S n) (_update_stats st r).
Proof.
  intros (Ht & Hs & Hf & He & Hc) Hst Hsucc Hty.
  unfold only_status, _update_stats. simpl.
  rewrite Hsucc, Hty, Hst, Ht, Hs, Hf, He, Hc. simpl. unfold bump.
  destruct ((200 <=? code) && (code <? 400)); repeat split; try lia;
    destruct n;
    try (rewrite lookup_empty; simpl; apply insert_empty);
    rewrite lookup_singleton_eq; simpl; rewrite insert_singleton_eq;
    f_equal; lia.
Qed.

Lemma only_status_tally code rs :
  forall n st,
    only_status code n st ->
    Forall (fun r => status_code r = Code code /\
                     success r = (200 <=? code) && (code <? 400) /\
                     error_type r = None) rs ->
    only_status code (n + length rs) (tally rs st).
Proof.
  induction rs as [|r rs IH]; intros n st Hst Hall; simpl.
  - rewrite Nat.add_0_r. assumption.
  - apply Forall_cons in Hall as [(H1 & H2 & H3) Hall].
    replace (n + S (length rs))%nat with (S n + length rs)%nat by lia.
    apply IH; [|assumption]. apply only_status_update; assumption.
Qed.

Lemma sum_list_with_ones {A : Type} (f : A -> nat) (l : list A) :
  (forall x, x ∈ l -> f x = 1%nat) -> sum_list_with f l = length l.
Proof.
  induction l as [|y l IH]; intros H; simpl; [reflexivity|].
  rewrite (H y), IH; [reflexivity| |]; intros; [apply H|]; set_solver.
Qed.

(** ** The report of a run *)

Lemma fold_min_le (l : list Q) :
  forall m,
    (fold_left (fun m y => if Qle_bool m y then m else y) l m <= m)%Q /\
    forall x, x ∈ l ->
      (fold_left (fun m y => if Qle_bool m y then m else y) l m <= x)%Q.
Proof.
  induction l as [|y l IH]; intros m; simpl.
  - split; [apply Qle_refl|]. intros x Hx. inversion Hx.
  - destruct (Qle_bool m y) eqn:Hle.
    + apply Qle_bool_iff in Hle. destruct (IH m) as [H1 H2].
      split; [assumption|]. intros x Hx.
      apply elem_of_cons in Hx as [->|Hx]; [lra|auto].
    + assert (y <= m)%Q as Hym.
      { destruct (Qlt_le_dec y m) as [H|H]; [lra|].
        apply Qle_bool_iff in H. congruence. }
      destruct (IH y) as [H1 H2]. split; [lra|]. intros x Hx.
      apply elem_of_cons in Hx as [->|Hx]; [assumption|auto].
Qed.

Lemma fold_max_ge (l : list Q) :
  forall m,
    (m <= fold_left (fun m y => if Qle_bool y m then m else y) l m)%Q /\
    forall x, x ∈ l ->
      (x <= fold_left (fun m y => if Qle_bool y m then m else y) l m)%Q.
Proof.
  induction l as [|y l IH]; intros m; simpl.
  - split; [apply Qle_refl|]. intros x Hx. inversion Hx.
  - destruct (Qle_bool y m) eqn:Hle.
    + apply Qle_bool_iff in Hle. destruct (IH m) as [H1 H2].
      split; [assumption|]. intros x Hx.
      apply elem_of_cons in Hx as [->|Hx]; [lra|auto].
    + assert (m <= y)%Q as Hym.
      { destruct (Qlt_le_dec m y) as [H|H]; [lra|].
        apply Qle_bool_iff in H. congruence. }
      destruct (IH y) as [H1 H2]. split; [lra|]. intros x Hx.
      apply elem_of_cons in Hx as [->|Hx]; [assumption|auto].
Qed.

Lemma py_min_least l m : py_min l = Some m -> forall x, x ∈ l -> (m <= x)%Q.
Proof.
  destruct l as [|y l]; [discriminate|]. intros [= <-] x Hx.
  destruct (fold_min_le l y) as [H1 H2].
  apply elem_of_cons in Hx as [->|Hx]; auto.
Qed.

Lemma py_max_greatest l m :
  py_max l = Some m -> forall x, x ∈ l -> (x <= m)%Q.
Proof.
  destruct l as [|y l]; [discriminate|]. intros [= <-] x Hx.
  destruct (fold_max_ge l y) as [H1 H2].
  apply elem_of_cons in Hx as [->|Hx]; auto.
Qed.

Lemma reachable_timing cfg s :
  reachable cfg any_env s -> exists t0, timing t0 s.
Proof.
  intros (t0 & tr & _ & Hexec). exists t0.
  eapply timing_exec; [apply timing_start | exact Hexec].
Qed.

(** ** Failures that are not retried *)

(** X12.  A failure that no clause retries ends the call at once, at any
    [retry_count]: an [aiohttp.ClientResponseError] gives its own numeric
    status with [success] false, even for a status in [200, 400), and any
    other exception gives ['ERROR'] with the name of its class.  One
    request was sent, nothing was slept, and a signal arriving meanwhile
    changes nothing.  The same holds when the failure comes from reading
    the body: the status code already received is discarded, and the
    response time then includes the time spent reading. *)
Theorem unretried_failure_is_final (id : Z) (rc : nat) (w : world) (e : exn)
    (script : list answer) :
  w_running w = true ->
  retried e = false ->
  let by_status := isinstance e ClientResponseError in
  let res elapsed :=
    {| request_id := id;
       status_code :=
         if by_status then Code (exc_status e) else Sentinel "ERROR";
       response_time := elapsed;
       success := false;
       error_type :=
         Some (if by_status then "ClientResponseError"
               else class_name (exc_class e));
       error :=
         Some (if by_status
               then "HTTP " +:+ pretty (exc_status e) +:+ ": "
                    +:+ exc_message e
               else exc_str e) |} in
  (forall elapsed sigint,
      interp (_make_request id rc) w (AReq (inl e) elapsed sigint :: script)
      = Some (Some (res (w_now w + elapsed - w_now w)%Q),
              pass (sent w) elapsed sigint)) /\
  (forall code elapsed sigint elapsed' sigint',
      interp (_make_request id rc) w
             (AReq (inr code) elapsed sigint
              :: ARead (inl e) elapsed' sigint' :: script)
      = Some (Some (res (w_now w + elapsed + elapsed' - w_now w)%Q),
              pass (pass (sent w) elapsed sigint) elapsed' sigint')).
Proof.
  intros Hw He by_status res.
  destruct (_make_request_attempt id rc) as [again ->].
  assert (forall start,
             except_clauses id rc start again e
             = failure id start (res 0%Q).(status_code)
                 (default "" (res 0%Q).(error_type))
                 (default "" (res 0%Q).(error))) as Hexc.
  { intros start. rewrite except_clauses_eq, He. simpl.
    unfold verdict. unfold retried in He.
    apply orb_false_iff in He as [He Hp].
    apply orb_false_iff in He as [Ht Hc].
    rewrite Ht, Hc, Hp. subst by_status.
    destruct (isinstance e ClientResponseError); reflexivity. }
  split.
  - intros elapsed sigint. rewrite interp_raise by assumption.
    rewrite Hexc. reflexivity.
  - intros code elapsed sigint elapsed' sigint'.
    simpl. rewrite Hw. simpl. rewrite Hexc. reflexivity.
Qed.

Lemma unretried_failure_is_final_witness :
  exists r w',
    interp (_make_request 7 2) world0 [AReq (inl by_status_200) 1 true]
      = Some (Some r, w') /\
    status_code r = Code 200 /\
    success r = false /\
    error r = Some "HTTP 200: OK" /\
    w_attempts w' = 1%nat /\
    w_sleeps w' = [].
Proof.
  destruct (unretried_failure_is_final 7 2 world0 by_status_200 []
              eq_refl eq_refl) as [H _].
  eexists _, _. split; [apply H|]. repeat split.
Defined.

(** ** The warm-up *)

Lemma warmup_count_eq cfg :
  warmup_count cfg = Z.min 10 (concurrency cfg / 10) /\
  (0 < warmup_count cfg <-> 10 <= concurrency cfg) /\
  warmup_count cfg <= 10.
Proof.
  unfold warmup_count. split; [|split].
  - destruct (Z.le_gt_cases (concurrency cfg / 10) 50); lia.
  - Z.to_euclidean_division_equations. lia.
  - lia.
Qed.

Lemma warmup_tasks_kept cfg s :
  reachable cfg any_env s ->
  forall tasks,
    ctl s = Warmup tasks ->
    0 < warmup_count cfg /\ length tasks = Z.to_nat (warmup_count cfg).
Proof.
  revert s.
  apply (run_invariant cfg
           (fun s => forall tasks,
              ctl s = Warmup tasks ->
              0 < warmup_count cfg /\
              length tasks = Z.to_nat (warmup_count cfg))).
  - intros t0 tasks. unfold start. simpl.
    destruct (0 <? warmup_count cfg) eqn:Hw; [|discriminate].
    apply Z.ltb_lt in Hw. intros [= <-].
    rewrite length_map, length_seq. auto.
  - intros s l s' _ IH Ht tasks'.
    destruct Ht; simpl; try discriminate; try apply IH.
    intros [= <-]. rewrite length_insert. eapply IH. eassumption.
Qed.

(** X13.  [run] warms up only when [concurrency] is at least 10: the
    number of warm-up calls is [min(10, concurrency // 10)], between 1 and
    10, and the third argument 50 of [min] never matters.  While the
    warm-up tasks are being gathered their number does not change, no
    worker exists yet, nothing is queued, and no result has been passed to
    [_update_stats]: warm-up results never reach the statistics. *)
Theorem warmup_from_ten_workers cfg s tasks :
  reachable cfg any_env s ->
  ctl s = Warmup tasks ->
  10 <= concurrency cfg /\
  Z.of_nat (length tasks) = Z.min 10 (concurrency cfg / 10) /\
  (1 <= length tasks <= 10)%nat /\
  workers s = [] /\ queue s = [] /\ recorded s = [] /\
  total_requests (stats s) = 0.
Proof.
  intros Hr Hc.
  destruct (warmup_tasks_kept cfg s Hr tasks Hc) as [Hpos Hlen].
  destruct (warmup_count_eq cfg) as (Heq & Hiff & Hle).
  pose proof (inv_ctl _ _ _ _ (reachable_inv cfg s Hr)) as Hctl.
  rewrite Hc in Hctl. destruct Hctl as (Hw & Hq & _ & Hrec & _).
  destruct (recorded_once cfg s Hr) as [_ Hst].
  split; [apply Hiff; assumption|]. split; [lia|]. split; [lia|].
  split; [assumption|]. split; [assumption|]. split; [assumption|].
  rewrite Hst, Hrec. reflexivity.
Qed.

Lemma warmup_from_ten_workers_witness :
  exists s tasks,
    exec cfg_1_10 (take 3 warmup_trace) (start cfg_1_10 0) = Some s /\
    ctl s = Warmup tasks /\
    Z.of_nat (length tasks) = 1 /\
    workers s = [].
Proof.
  assert ((fun s => if ctl s is Warmup _ then true else false)
            <$> exec cfg_1_10 (take 3 warmup_trace) (start cfg_1_10 0)
          = Some true) as Hc by (vm_compute; reflexivity).
  destruct (exec cfg_1_10 (take 3 warmup_trace) (start cfg_1_10 0))
    as [s|] eqn:He; [|discriminate].
  injection Hc as Hc.
  destruct (ctl s) as [tasks| | | | |] eqn:Hctl; try discriminate.
  destruct (warmup_from_ten_workers cfg_1_10 s tasks)
    as (_ & Hlen & _ & Hw & _).
  - exists 0%Q, (take 3 warmup_trace). split; [apply any_trace_ok | exact He].
  - exact Hctl.
  - exists s, tasks. repeat split; assumption.
Defined.

(** ** [main]: the headers given with [-H] *)

Lemma split1_colon (key value : str) :
  colon ∉ key -> split1 (key ++ colon :: value) = [key; value].
Proof.
  induction key as [|c key IH]; intros Hk; simpl.
  - reflexivity.
  - apply not_elem_of_cons in Hk as [Hc Hk].
    destruct (c =? colon) eqn:Heq; [apply Z.eqb_eq in Heq; congruence|].
    rewrite IH by assumption. reflexivity.
Qed.

Lemma has_colon_split (header : str) :
  has_colon header = true ->
  exists key value,
    header = key ++ colon :: value /\ colon ∉ key.
Proof.
  unfold has_colon. intros H. apply bool_decide_eq_true in H.
  induction header as [|c header IH]; [inversion H|].
  destruct (decide (c = colon)) as [->|Hne].
  - exists [], header. split; [reflexivity|]. apply not_elem_of_nil.
  - apply elem_of_cons in H as [H|H]; [congruence|].
    destruct (IH H) as (key & value & -> & Hk).
    exists (c :: key), value. split; [reflexivity|].
    apply not_elem_of_cons. split; [congruence|assumption].
Qed.

Lemma lstrip_suffix isspace (s : str) :
  exists removed, s = removed ++ lstrip isspace s /\
                  forallb isspace removed = true.
Proof.
  induction s as [|c s (removed & IH & Hsp)]; simpl.
  - exists []. split; reflexivity.
  - destruct (isspace c) eqn:Hc.
    + exists (c :: removed). simpl. rewrite Hc, Hsp. split; [|reflexivity].
      f_equal. exact IH.
    + exists []. split; reflexivity.
Qed.

Lemma lstrip_head isspace (s : str) :
  match lstrip isspace s with
  | [] => True
  | c :: _ => isspace c = false
  end.
Proof.
  induction s as [|c s IH]; simpl; [exact I|].
  destruct (isspace c) eqn:Hc; [exact IH|exact Hc].
Qed.

Lemma lstrip_id isspace (s : str) :
  match s with [] => True | c :: _ => isspace c = false end ->
  lstrip isspace s = s.
Proof. destruct s as [|c s]; simpl; [reflexivity|]. intros ->. reflexivity. Qed.

Lemma lstrip_idemp isspace (s : str) :
  lstrip isspace (lstrip isspace s) = lstrip isspace s.
Proof. apply lstrip_id, lstrip_head. Qed.

Lemma elem_of_lstrip isspace (s : str) c :
  c ∈ lstrip isspace s -> c ∈ s.
Proof.
  destruct (lstrip_suffix isspace s) as (removed & Hs & _).
  intros H. rewrite Hs. apply elem_of_app. right. exact H.
Qed.

Lemma elem_of_strip isspace (s : str) c : c ∈ strip isspace s -> c ∈ s.
Proof.
  unfold strip, rstrip. rewrite elem_of_reverse. intros H.
  apply elem_of_lstrip in H. rewrite elem_of_reverse in H.
  apply elem_of_lstrip in H. exact H.
Qed.

Lemma rstrip_prefix isspace (s : str) :
  exists removed, s = rstrip isspace s ++ removed.
Proof.
  unfold rstrip.
  destruct (lstrip_suffix isspace (reverse s)) as (removed & Hs & _).
  exists (reverse removed).
  rewrite <- reverse_app, <- Hs, reverse_involutive. reflexivity.
Qed.

Lemma rstrip_idemp isspace (s : str) :
  rstrip isspace (rstrip isspace s) = rstrip isspace s.
Proof.
  unfold rstrip. rewrite reverse_involutive, lstrip_idemp. reflexivity.
Qed.

Lemma strip_stripped isspace (s : str) :
  stripped isspace (strip isspace s).
Proof.
  unfold stripped, strip.
  rewrite (lstrip_id isspace (rstrip isspace (lstrip isspace s))).
  - apply rstrip_idemp.
  - destruct (rstrip_prefix isspace (lstrip isspace s)) as [removed H].
    pose proof (lstrip_head isspace s) as Hh. rewrite H in Hh.
    destruct (rstrip isspace (lstrip isspace s)); [exact I|exact Hh].
Qed.

Lemma lstrip_pad isspace (pad s : str) :
  forallb isspace pad = true ->
  lstrip isspace (pad ++ s) = lstrip isspace s.
Proof.
  induction pad as [|c pad IH]; simpl; [reflexivity|].
  intros H. apply andb_true_iff in H as [-> H]. apply IH, H.
Qed.

Lemma strip_pad isspace (pad s : str) :
  forallb isspace pad = true ->
  strip isspace (pad ++ s) = strip isspace s.
Proof. intros H. unfold strip. rewrite lstrip_pad by assumption. reflexivity. Qed.

Lemma add_headers_app isspace (given1 given2 : list str) :
  forall headers,
    add_headers isspace (given1 ++ given2) headers
    = add_headers isspace given1 headers ≫= add_headers isspace given2.
Proof.
  induction given1 as [|h given1 IH]; intros headers; simpl; [reflexivity|].
  destruct (has_colon h); [|apply IH].
  destruct (split1 h) as [|key [|value [|]]]; try reflexivity. apply IH.
Qed.

Lemma parse_headers_given isspace (given : list str) :
  parse_headers isspace (Some given) = add_headers isspace given ∅.
Proof. destruct given; reflexivity. Qed.

(** Where an entry of the parsed headers comes from. *)
Lemma add_headers_sound isspace (all : list str)
    (P : str -> str -> Prop) :
  (forall header raw_key raw_value,
      header ∈ all -> header = raw_key ++ colon :: raw_value ->
      colon ∉ raw_key ->
      P (strip isspace raw_key) (strip isspace raw_value)) ->
  forall given headers,
    (forall header, header ∈ given -> header ∈ all) ->
    (forall key value, headers !! key = Some value -> P key value) ->
    exists headers',
      add_headers isspace given headers = Some headers' /\
      forall key value, headers' !! key = Some value -> P key value.
Proof.
  intros HP. induction given as [|h given IH]; intros headers Hsub Hd; simpl.
  - exists headers. split; [reflexivity|assumption].
  - assert (forall header, header ∈ given -> header ∈ all) as Hsub'
      by (intros header Hin; apply Hsub; right; assumption).
    destruct (has_colon h) eqn:Hc; [|apply IH; assumption].
    destruct (has_colon_split h Hc) as (raw_key & raw_value & Hh & Hk).
    rewrite Hh, split1_colon by assumption.
    apply IH; [assumption|].
    intros key value.
    destruct (decide (key = strip isspace raw_key)) as [->|Hne].
    + rewrite lookup_insert_eq. intros [= <-].
      apply (HP h); [apply Hsub; left|assumption..].
    + rewrite lookup_insert_ne by congruence. apply Hd.
Qed.

Lemma headers_sound_total isspace (given : list str) :
  exists headers, add_headers isspace given ∅ = Some headers.
Proof.
  destruct (add_headers_sound isspace given (fun _ _ => True))
    with (given := given) (headers := (∅ : gmap str str))
    as (headers & H & _); auto.
  exists headers. exact H.
Qed.

(** X14.  Parsing the [-H] options never fails, whatever strings are
    given: the test [':' in header] guarantees that [split(':', 1)] gives
    the two pieces that are unpacked.  Every entry of the resulting dict
    comes from one of the given headers, cut at its first colon, so that
    further colons stay in the value; its key and its value carry no
    whitespace at either end, and its key holds no colon.  Headers without
    a colon leave no entry. *)
Theorem headers_cut_at_first_colon (isspace : Z -> bool)
    (arg : option (list str)) :
  exists headers,
    parse_headers isspace arg = Some headers /\
    forall key value,
      headers !! key = Some value ->
      stripped isspace key /\ stripped isspace value /\ (colon ∉ key) /\
      exists given raw_key raw_value,
        arg = Some given /\
        (raw_key ++ colon :: raw_value ∈ given) /\
        (colon ∉ raw_key) /\
        key = strip isspace raw_key /\
        value = strip isspace raw_value.
Proof.
  destruct arg as [given|].
  - rewrite parse_headers_given.
    apply (add_headers_sound isspace given).
    + intros header raw_key raw_value Hin -> Hk.
      split; [apply strip_stripped|]. split; [apply strip_stripped|].
      split.
      * intros Hc. apply Hk. eapply elem_of_strip. exact Hc.
      * exists given, raw_key, raw_value. auto.
    + auto.
    + intros key value H. rewrite lookup_empty in H. discriminate.
  - exists ∅. split; [reflexivity|].
    intros key value H. rewrite lookup_empty in H. discriminate.
Qed.

(** X15.  A header written as [key], a colon, any whitespace and [value]
    is read back as that key with that value, provided [key] holds no
    colon and neither carries whitespace at its ends; it replaces whatever
    an earlier header gave for the same key.  A header without a colon is
    skipped without a word and changes nothing. *)
Theorem last_header_wins (isspace : Z -> bool) (given : list str)
    (key value pad : str) :
  colon ∉ key ->
  stripped isspace key ->
  stripped isspace value ->
  forallb isspace pad = true ->
  (exists headers,
      parse_headers isspace (Some (given ++ [key ++ colon :: pad ++ value]))
        = Some headers /\
      headers !! key = Some value) /\
  forall header,
    has_colon header = false ->
    parse_headers isspace (Some (given ++ [header]))
    = parse_headers isspace (Some given).
Proof.
  intros Hk Hsk Hsv Hpad. split.
  - destruct (headers_sound_total isspace given) as [headers Hh].
    exists (<[key := value]> headers). split; [|apply lookup_insert_eq].
    rewrite parse_headers_given, add_headers_app, Hh. simpl.
    assert (has_colon (key ++ colon :: pad ++ value) = true) as ->.
    { apply bool_decide_eq_true. apply elem_of_app. right. left. }
    rewrite split1_colon by assumption.
    rewrite strip_pad by assumption. rewrite Hsk, Hsv. reflexivity.
  - intros header Hc.
    rewrite !parse_headers_given, add_headers_app.
    destruct (add_headers isspace given ∅) as [headers|]; [|reflexivity].
    simpl. rewrite Hc. reflexivity.
Qed.

Lemma last_header_wins_witness :
  exists headers,
    parse_headers py_isspace
      (Some ([[88; 58; 49]] ++ [[88] ++ colon :: [32] ++ [97; 58; 98]]))
      = Some headers /\
    headers !! [88] = Some [97; 58; 98].
Proof.
  destruct (last_header_wins py_isspace [[88; 58; 49]] [88] [97; 58; 98] [32])
    as [H _].
  - intros H. apply list_elem_of_singleton in H. discriminate H.
  - reflexivity.
  - reflexivity.
  - reflexivity.
  - exact H.
Defined.

(** ** Where a run can go without a signal *)

Lemma leads_refl cfg s : leads cfg s s.
Proof. exists []. split; [constructor|reflexivity]. Qed.

Lemma leads_trans cfg s1 s2 s3 :
  leads cfg s1 s2 -> leads cfg s2 s3 -> leads cfg s1 s3.
Proof.
  intros (tr1 & Hok1 & H1) (tr2 & Hok2 & H2). exists (tr1 ++ tr2).
  split; [apply Forall_app_2; assumption|].
  rewrite exec_app, H1. exact H2.
Qed.

Lemma leads_step cfg s l s' :
  label_ok calm_env l -> transition cfg s l s' -> leads cfg s s'.
Proof.
  intros Hl Ht. exists [l]. split; [repeat constructor; assumption|].
  simpl. apply step_transition in Ht. rewrite Ht. reflexivity.
Qed.

Lemma leads_reachable cfg s s' :
  reachable cfg calm_env s -> leads cfg s s' -> reachable cfg calm_env s'.
Proof.
  intros Hr (tr & Hok & Hexec). eapply reachable_exec; eassumption.
Qed.

Lemma calm_running cfg s : reachable cfg calm_env s -> running s = true.
Proof. intros Hr. exact (inv_flag _ _ _ _ (reachable_answered cfg s Hr)). Qed.

(** A call in flight can be brought to its end. *)
Lemma drive_worker cfg (c : coro (option Result)) :
  forall s w id,
    workers s !! w = Some (WCall id c) ->
    exists r s',
      leads cfg s s' /\
      workers s' = <[w := WCall id (Ret r)]> (workers s) /\
      ctl s' = ctl s /\ queue s' = queue s /\ unfinished s' = unfinished s.
Proof.
  induction c as [r|X e k IH]; intros s w id Hw.
  - exists r, s. split; [apply leads_refl|].
    rewrite list_insert_id by assumption. auto.
  - assert (exists a x,
               resume (running s) (clock s) a (Do e k) = Some (k x) /\
               io_ok calm_env a) as (a & x & Hres & Hok).
    { destruct e;
        [exists Tau, (running s) | exists Tau, (clock s)
        |exists (Responds (inr 200)), (inr 200)
        |exists (BodyRead (inr tt)), (inr tt) | exists Wakes, tt];
        split; reflexivity || exact I. }
    pose proof (t_io cfg s w id _ a _ Hw Hres) as Ht.
    apply (leads_step cfg s (Work w (Io a)) _ Hok) in Ht.
    match type of Ht with leads _ _ ?t => set (s1 := t) in * end.
    destruct (IH x s1 w id) as (r & s' & Hl & Hws & Hc & Hq & Hu).
    { simpl. apply list_lookup_insert_eq. eapply lookup_lt_Some, Hw. }
    exists r, s'. split; [eapply leads_trans; eassumption|].
    rewrite Hws, Hc, Hq, Hu. simpl.
    rewrite list_insert_insert_eq. auto.
Qed.

(** A warm-up task can be brought to its end. *)
Lemma drive_task cfg (c : coro (option Result)) :
  forall s i tasks,
    ctl s = Warmup tasks -> tasks !! i = Some c ->
    exists r s',
      leads cfg s s' /\ ctl s' = Warmup (<[i := Ret r]> tasks).
Proof.
  induction c as [r|X e k IH]; intros s i tasks Hc Hi.
  - exists r, s. split; [apply leads_refl|].
    rewrite list_insert_id by assumption. assumption.
  - assert (exists a x,
               resume (running s) (clock s) a (Do e k) = Some (k x) /\
               io_ok calm_env a) as (a & x & Hres & Hok).
    { destruct e;
        [exists Tau, (running s) | exists Tau, (clock s)
        |exists (Responds (inr 200)), (inr 200)
        |exists (BodyRead (inr tt)), (inr tt) | exists Wakes, tt];
        split; reflexivity || exact I. }
    pose proof (t_warmup cfg s i a tasks _ _ Hc Hi Hres) as Ht.
    apply (leads_step cfg s (WarmupTask i a) _ Hok) in Ht.
    match type of Ht with leads _ _ ?t => set (s1 := t) in * end.
    destruct (IH x s1 i (<[i := k x]> tasks)) as (r & s' & Hl & Hc').
    { reflexivity. }
    { apply list_lookup_insert_eq. eapply lookup_lt_Some, Hi. }
    exists r, s'. split; [eapply leads_trans; eassumption|].
    rewrite Hc', list_insert_insert_eq. reflexivity.
Qed.

(** While the flag is set, a worker stops only when [run] cancels it. *)
Lemma no_worker_stops cfg s :
  reachable cfg any_env s ->
  running s = true -> ctl s <> Gather -> ctl s <> Done ->
  forall w, workers s !! w <> Some WStop.
Proof.
  revert s.
  apply (run_invariant cfg
           (fun s => running s = true -> ctl s <> Gather -> ctl s <> Done ->
                     forall w, workers s !! w <> Some WStop)).
  - intros t0. unfold start. simpl. intros _ _ _ w Hw.
    destruct (0 <? warmup_count cfg).
    + rewrite lookup_nil in Hw. discriminate.
    + apply create_workers_idle in Hw as [?|?]; discriminate.
  - intros s l s' _ IH Ht.
    assert (forall w x,
               x <> WStop ->
               running s = true -> ctl s <> Gather -> ctl s <> Done ->
               forall w', <[w := x]> (workers s) !! w' <> Some WStop)
      as Hins.
    { intros w x Hx Hrun Hg Hd w' Hw'.
      apply list_lookup_insert_Some in Hw' as [(_ & Heq & _)|[_ Hw']].
      - congruence.
      - exact (IH Hrun Hg Hd w' Hw'). }
    destruct Ht; simpl; try discriminate; try exact IH;
      try (intros Hrun Hg Hd; apply Hins; try discriminate; congruence).
    + (* the workers are created *)
      intros _ _ _ w Hw.
      apply create_workers_idle in Hw as [?|?]; discriminate.
    + intros Hrun _ _. apply IH; congruence.
    + intros Hrun _ _. apply IH; congruence.
    + intros Hrun _ _. apply IH; congruence.
    + intros Hrun _ _. apply IH; congruence.
    + congruence.
    + congruence.
    + intros Hrun _ _. apply IH; congruence.
    + intros Hrun Hg Hd. apply Hins; try assumption.
      rewrite Hrun. discriminate.
Qed.

Lemma busy_positive ws :
  sum_list_with busy ws <> 0%nat ->
  exists w id c, ws !! w = Some (WCall id c).
Proof.
  induction ws as [|x ws IH]; simpl; [congruence|]. intros H.
  destruct x as [| | |id c|]; try (destruct (IH H) as (w & id & c & Hw);
                                   exists (S w), id, c; exact Hw).
  exists 0%nat, id, c. reflexivity.
Qed.

Lemma pending_positive tasks :
  pending tasks <> 0%nat ->
  exists i c, tasks !! i = Some c /\ is_ret c = false.
Proof.
  unfold pending. induction tasks as [|c tasks IH]; simpl; [congruence|].
  intros H. destruct (is_ret c) eqn:Hc.
  - destruct (IH H) as (i & c' & Hi & Hc'). exists (S i), c'. auto.
  - exists 0%nat, c. auto.
Qed.

Lemma pending_none tasks : pending tasks = 0%nat -> forallb is_ret tasks = true.
Proof.
  unfold pending. induction tasks as [|c tasks IH]; simpl; [reflexivity|].
  destruct (is_ret c); simpl; [exact IH|lia].
Qed.

(** Every call in flight can be brought to its end and handed back. *)
Lemma settle cfg (n : nat) :
  forall s,
    sum_list_with busy (workers s) = n ->
    exists s',
      leads cfg s s' /\
      sum_list_with busy (workers s') = 0%nat /\
      ctl s' = ctl s /\ queue s' = queue s.
Proof.
  induction n as [|n IH]; intros s Hn.
  - exists s. split; [apply leads_refl|]. auto.
  - destruct (busy_positive (workers s)) as (w & id & c & Hw); [lia|].
    destruct (drive_worker cfg c s w id Hw)
      as (r & s1 & Hl & Hws & Hc & Hq & _).
    assert (workers s1 !! w = Some (WCall id (Ret r))) as Hw1.
    { rewrite Hws. apply list_lookup_insert_eq. eapply lookup_lt_Some, Hw. }
    pose proof (t_finish cfg s1 w id r Hw1) as Ht.
    apply (leads_step cfg s1 (Work w Proceed) _ I) in Ht.
    destruct (IH (finish w id r s1)) as (s' & Hl' & Hb & Hc' & Hq').
    { simpl.
      pose proof (sum_list_with_insert busy (workers s) w _
                    (WCall id (Ret r)) Hw) as H1.
      pose proof (sum_list_with_insert busy (workers s1) w _ WTest Hw1)
        as H2.
      rewrite <- Hws in H1. simpl in H1, H2. lia. }
    exists s'. split; [|split; [assumption|]].
    + eapply leads_trans; [exact Hl|]. eapply leads_trans; eassumption.
    + simpl in Hc', Hq'. split; congruence.
Qed.

(** Every warm-up task can be brought to its end. *)
Lemma warm_up cfg (n : nat) :
  forall s tasks,
    ctl s = Warmup tasks -> pending tasks = n ->
    exists s' tasks',
      leads cfg s s' /\ ctl s' = Warmup tasks' /\
      forallb is_ret tasks' = true.
Proof.
  induction n as [|n IH]; intros s tasks Hc Hn.
  - exists s, tasks. split; [apply leads_refl|].
    split; [assumption|]. apply pending_none, Hn.
  - destruct (pending_positive tasks) as (i & c & Hi & Hret); [lia|].
    destruct (drive_task cfg c s i tasks Hc Hi) as (r & s1 & Hl & Hc1).
    destruct (IH s1 (<[i := Ret r]> tasks) Hc1) as (s' & tasks' & Hl' & H).
    { pose proof (sum_list_with_insert
                    (fun c => if is_ret c then 0%nat else 1%nat)
                    tasks i _ (Ret r) Hi) as H1.
      unfold pending in *. rewrite Hret in H1. simpl in H1. lia. }
    exists s', tasks'. split; [eapply leads_trans; eassumption|exact H].
Qed.

(** Worker 0, when it holds no call and has not stopped, can reach
    [queue.get()]. *)
Lemma worker_to_get cfg s x :
  running s = true ->
  workers s !! 0%nat = Some x ->
  x <> WStop -> busy x = 0%nat ->
  exists s',
    leads cfg s s' /\ workers s' !! 0%nat = Some WGet /\
    ctl s' = ctl s /\ queue s' = queue s.
Proof.
  intros Hrun Hw Hstop Hbusy.
  assert (0 < length (workers s))%nat as Hlen
    by (eapply lookup_lt_Some, Hw).
  assert (forall s0,
             running s0 = true -> workers s0 !! 0%nat = Some WTest ->
             exists s',
               leads cfg s0 s' /\ workers s' !! 0%nat = Some WGet /\
               ctl s' = ctl s0 /\ queue s' = queue s0) as Htest.
  { intros s0 Hrun0 Hw0.
    pose proof (t_test cfg s0 0%nat Hw0) as Ht. rewrite Hrun0 in Ht.
    apply (leads_step cfg s0 (Work 0 Proceed) _ I) in Ht.
    eexists. split; [exact Ht|]. simpl. split; [|auto].
    apply list_lookup_insert_eq. eapply lookup_lt_Some, Hw0. }
  destruct x as [| | |id c|]; try congruence; try discriminate.
  - pose proof (t_stagger cfg s 0%nat Hw) as Ht.
    apply (leads_step cfg s (Work 0 Proceed) _ I) in Ht.
    destruct (Htest (with_worker 0 WTest s)) as (s' & Hl & H);
      [assumption|simpl; apply list_lookup_insert_eq; assumption|].
    exists s'. split; [eapply leads_trans; eassumption|exact H].
  - apply Htest; assumption.
  - exists s. split; [apply leads_refl|]. auto.
Qed.

(** With a worker at hand, the queue can be emptied. *)
Lemma drain cfg (n : nat) :
  0 < concurrency cfg ->
  forall s,
    reachable cfg calm_env s ->
    producing (ctl s) ->
    length (queue s) = n ->
    exists s',
      leads cfg s s' /\ queue s' = [] /\
      sum_list_with busy (workers s') = 0%nat /\ ctl s' = ctl s.
Proof.
  intros Hpos. induction n as [|n IH]; intros s Hr Hp Hn.
  - destruct (settle cfg _ s eq_refl) as (s' & Hl & Hb & Hc & Hq).
    exists s'. split; [assumption|]. split; [|auto].
    rewrite Hq. destruct (queue s); [reflexivity|discriminate].
  - destruct (settle cfg _ s eq_refl) as (s1 & Hl1 & Hb1 & Hc1 & Hq1).
    pose proof (leads_reachable _ _ _ Hr Hl1) as Hr1.
    pose proof (calm_running _ _ Hr1) as Hrun1.
    pose proof (reachable_any _ _ _ Hr1) as Ha1.
    assert (producing (ctl s1)) as Hp1 by (rewrite Hc1; exact Hp).
    destruct (workers s1 !! 0%nat) as [x|] eqn:Hx.
    2: { apply lookup_ge_None in Hx.
         rewrite (shape_workers _ _ (reachable_shape _ _ Ha1)) in Hx.
         destruct (ctl s1); simpl in Hp1; try contradiction; lia. }
    destruct (worker_to_get cfg s1 x Hrun1 Hx)
      as (s2 & Hl2 & Hw2 & Hc2 & Hq2).
    { intros ->. eapply (no_worker_stops cfg s1 Ha1 Hrun1); [| |exact Hx];
        intros Heq; rewrite Heq in Hp1; exact Hp1. }
    { pose proof (sum_list_with_lookup busy _ _ _ Hx). lia. }
    destruct (queue s) as [|id rest] eqn:Hqs; [discriminate|].
    assert (queue s2 = id :: rest) as Hq2' by congruence.
    pose proof (t_get cfg s2 0%nat id rest Hw2 Hq2') as Ht.
    apply (leads_step cfg s2 (Work 0 Proceed) _ I) in Ht.
    match type of Ht with leads _ _ ?t => set (s3 := t) in * end.
    assert (leads cfg s s3) as Hl3
      by (eapply leads_trans; [exact Hl1|];
          eapply leads_trans; eassumption).
    destruct (IH s3) as (s' & Hl' & Hq' & Hb' & Hc').
    + exact (leads_reachable _ _ _ Hr Hl3).
    + simpl. rewrite Hc2. exact Hp1.
    + simpl. simpl in Hn. lia.
    + exists s'. split; [eapply leads_trans; eassumption|].
      split; [assumption|]. split; [assumption|].
      rewrite Hc'. simpl. congruence.
Qed.

(** A pending [put] can be completed. *)
Lemma put_through cfg s i :
  0 < concurrency cfg ->
  reachable cfg calm_env s ->
  ctl s = Put i ->
  exists s', leads cfg s s' /\ ctl s' = Produce (i + 1).
Proof.
  intros Hpos Hr Hc.
  destruct (drain cfg (length (queue s)) Hpos s Hr)
    as (s1 & Hl & Hq & _ & Hc1); [rewrite Hc; exact I|reflexivity|].
  rewrite Hc in Hc1.
  assert (full cfg (queue s1) = false) as Hfull.
  { rewrite Hq. unfold full. simpl. apply andb_false_iff. right.
    apply Z.leb_gt. lia. }
  pose proof (t_put cfg s1 i Hc1 Hfull) as Ht.
  apply (leads_step cfg s1 Ctl _ I) in Ht.
  eexists. split; [eapply leads_trans; eassumption|reflexivity].
Qed.

(** The loop of [run] can be gone through to its end. *)
Lemma produce_all cfg (k : nat) :
  0 < concurrency cfg ->
  forall i s,
    reachable cfg calm_env s ->
    ctl s = Produce i ->
    Z.to_nat (num_requests cfg - i) = k ->
    exists s', leads cfg s s' /\ ctl s' = Join.
Proof.
  intros Hpos. induction k as [|k IH]; intros i s Hr Hc Hk.
  - pose proof (t_exhausted cfg s i Hc ltac:(lia)) as Ht.
    apply (leads_step cfg s Ctl _ I) in Ht.
    eexists. split; [exact Ht|reflexivity].
  - pose proof (t_next cfg s i Hc ltac:(lia) (calm_running _ _ Hr)) as Ht.
    apply (leads_step cfg s Ctl _ I) in Ht.
    destruct (put_through cfg (with_ctl (Put i) s) i Hpos)
      as (s1 & Hl1 & Hc1);
      [exact (leads_reachable _ _ _ Hr Ht)|reflexivity|].
    assert (leads cfg s s1) as Hl by (eapply leads_trans; eassumption).
    destruct (IH (i + 1) s1) as (s' & Hl' & Hc');
      [exact (leads_reachable _ _ _ Hr Hl)|assumption|lia|].
    exists s'. split; [eapply leads_trans; eassumption|assumption].
Qed.

(** Once the loop is over, the run can be brought to its report. *)
Lemma join_through cfg s :
  0 < concurrency cfg ->
  reachable cfg calm_env s ->
  ctl s = Join ->
  exists s', leads cfg s s' /\ ctl s' = Done.
Proof.
  intros Hpos Hr Hc.
  destruct (drain cfg (length (queue s)) Hpos s Hr)
    as (s1 & Hl & Hq & Hb & Hc1); [rewrite Hc; exact I|reflexivity|].
  rewrite Hc in Hc1.
  pose proof (leads_reachable _ _ _ Hr Hl) as Hr1.
  pose proof (inv_unfinished _ _ _ _
                (reachable_inv _ _ (reachable_any _ _ _ Hr1))) as Hu.
  rewrite Hq, Hb in Hu. simpl in Hu.
  pose proof (t_join cfg s1 Hc1 Hu) as Ht.
  apply (leads_step cfg s1 Ctl _ I) in Ht.
  match type of Ht with leads _ _ ?t => set (s2 := t) in * end.
  pose proof (t_gather cfg s2 eq_refl) as Ht2.
  apply (leads_step cfg s2 Ctl _ I) in Ht2.
  eexists. split.
  - eapply leads_trans; [exact Hl|]. eapply leads_trans; [exact Ht|exact Ht2].
  - reflexivity.
Qed.

(** X16.  With at least one worker, a run that no signal has interrupted
    can always be brought to its report: from every state it can reach
    there are steps, none of them a signal, that end with [end_time] set
    and [_print_results] called.  The puts, [task_done] calls and the
    final [queue.join()] balance, so the run cannot lock up by itself. *)
Theorem uninterrupted_run_can_finish cfg s :
  0 < concurrency cfg ->
  reachable cfg calm_env s ->
  exists tr s',
    Forall (label_ok calm_env) tr /\
    exec cfg tr s = Some s' /\
    ctl s' = Done /\ running s' = true.
Proof.
  intros Hpos Hr.
  assert (exists s', leads cfg s s' /\ ctl s' = Done) as (s' & Hl & Hd).
  { assert (forall i s0,
               reachable cfg calm_env s0 -> ctl s0 = Produce i ->
               exists s', leads cfg s0 s' /\ ctl s' = Done) as Hprod.
    { intros i s0 Hr0 Hc0.
      destruct (produce_all cfg _ Hpos i s0 Hr0 Hc0 eq_refl)
        as (s1 & Hl1 & Hc1).
      destruct (join_through cfg s1 Hpos) as (s2 & Hl2 & Hc2);
        [exact (leads_reachable _ _ _ Hr0 Hl1)|assumption|].
      exists s2. split; [eapply leads_trans; eassumption|assumption]. }
    destruct (ctl s) as [tasks|i|i| | |] eqn:Hc.
    - destruct (warm_up cfg _ s tasks Hc eq_refl)
        as (s1 & tasks' & Hl1 & Hc1 & Hret).
      pose proof (t_launch cfg s1 tasks' Hc1 Hret) as Ht.
      apply (leads_step cfg s1 Ctl _ I) in Ht.
      match type of Ht with leads _ _ ?t => set (s2 := t) in * end.
      assert (leads cfg s s2) as Hl2 by (eapply leads_trans; eassumption).
      destruct (Hprod 0 s2) as (s' & Hl' & Hd);
        [exact (leads_reachable _ _ _ Hr Hl2)|reflexivity|].
      exists s'. split; [eapply leads_trans; eassumption|assumption].
    - apply (Hprod i s Hr Hc).
    - destruct (put_through cfg s i Hpos Hr Hc) as (s1 & Hl1 & Hc1).
      destruct (Hprod (i + 1) s1) as (s' & Hl' & Hd);
        [exact (leads_reachable _ _ _ Hr Hl1)|assumption|].
      exists s'. split; [eapply leads_trans; eassumption|assumption].
    - apply (join_through cfg s Hpos Hr Hc).
    - pose proof (t_gather cfg s Hc) as Ht.
      apply (leads_step cfg s Ctl _ I) in Ht.
      eexists. split; [exact Ht|reflexivity].
    - exists s. split; [apply leads_refl|assumption]. }
  pose proof (calm_running _ _ (leads_reachable _ _ _ Hr Hl)) as Hrun.
  destruct Hl as (tr & Hok & Hexec). exists tr, s'. auto.
Qed.

Lemma uninterrupted_run_can_finish_witness :
  exists tr s',
    exec cfg_1_10 tr (start cfg_1_10 0) = Some s' /\ ctl s' = Done.
Proof.
  destruct (uninterrupted_run_can_finish cfg_1_10 (start cfg_1_10 0) eq_refl
              (reachable_start _ _ _)) as (tr & s' & _ & He & Hd & _).
  exists tr, s'. split; assumption.
Defined.

(** ** A run without workers *)

Lemma no_workers cfg s :
  concurrency cfg <= 0 -> reachable cfg any_env s -> workers s = [].
Proof.
  intros Hc Hr. pose proof (shape_workers _ _ (reachable_shape _ _ Hr)) as H.
  apply length_zero_iff_nil. destruct (ctl s); lia.
Qed.

Lemma no_workers_no_results cfg s :
  concurrency cfg <= 0 ->
  reachable cfg any_env s ->
  recorded s = [] /\ abandoned s = [] /\ attempted s = [] /\
  warmed s = [].
Proof.
  intros Hc. revert s.
  apply (run_invariant cfg
           (fun s => recorded s = [] /\ abandoned s = [] /\
                     attempted s = [] /\ warmed s = [])).
  - intros t0. repeat split.
  - intros s l s' Hr IH Ht.
    pose proof (no_workers cfg s Hc Hr) as Hw.
    destruct Ht; simpl; try exact IH;
      try (rewrite Hw, lookup_nil in *; discriminate).
    (* no warm-up call exists *)
    destruct (warmup_tasks_kept cfg s Hr tasks H) as [Hpos _].
    apply (warmup_count_eq cfg) in Hpos. lia.
Qed.

(** X17.  [argparse] accepts [-c 0] and negative values.  Then [run]
    creates no worker, warms nothing up, and the queue has no bound:
    nothing is ever taken from the queue, no request is sent and no result
    recorded.  The report
    can be reached only when no identifier was put at all, and a run with
    [num_requests >= 1] that no signal interrupts never reaches it:
    [queue.join()] waits for ever. *)
Theorem no_workers_no_report cfg s :
  concurrency cfg <= 0 ->
  reachable cfg any_env s ->
  workers s = [] /\ recorded s = [] /\ attempted s = [] /\
  warmed s = [] /\
  unfinished s = Z.of_nat (length (queue s)) /\
  (ctl s = Gather \/ ctl s = Done -> settled s = 0) /\
  (reachable cfg calm_env s -> 1 <= num_requests cfg ->
   ctl s <> Gather /\ ctl s <> Done).
Proof.
  intros Hc Hr.
  pose proof (no_workers cfg s Hc Hr) as Hw.
  destruct (no_workers_no_results cfg s Hc Hr) as (Hrec & Hab & Hat & Hwd).
  pose proof (inv_unfinished _ _ _ _ (reachable_inv _ _ Hr)) as Hu.
  rewrite Hw in Hu. simpl in Hu. rewrite Nat.add_0_r in Hu.
  assert (ctl s = Gather \/ ctl s = Done -> settled s = 0) as Hzero.
  { intros Hd. pose proof (inv_ctl _ _ _ _ (reachable_inv _ _ Hr)) as Hctl.
    unfold settled. rewrite Hrec, Hab. simpl.
    destruct Hd as [Hd|Hd]; rewrite Hd in Hctl; tauto. }
  split; [assumption|]. split; [assumption|]. split; [assumption|].
  split; [assumption|]. split; [assumption|]. split; [assumption|].
  intros Hcalm Hn.
  pose proof (inv_ctl _ _ _ _ (reachable_answered _ _ Hcalm)) as Hctl.
  split; intros Hd; rewrite Hd in Hctl; destruct Hctl as (_ & _ & Hall);
    rewrite Hall in Hzero by discriminate;
    [specialize (Hzero (or_introl Hd)) | specialize (Hzero (or_intror Hd))];
    lia.
Qed.

Lemma no_workers_no_report_witness :
  exists s,
    exec cfg_1_0 [Ctl; Ctl; Ctl] (start cfg_1_0 0) = Some s /\
    workers s = [] /\ unfinished s = 1 /\ ctl s <> Done.
Proof.
  assert ((fun s => unfinished s) <$>
            exec cfg_1_0 [Ctl; Ctl; Ctl] (start cfg_1_0 0) = Some 1) as Hu
    by (vm_compute; reflexivity).
  destruct (exec cfg_1_0 [Ctl; Ctl; Ctl] (start cfg_1_0 0)) as [s|] eqn:He;
    [|discriminate].
  injection Hu as Hu.
  assert (reachable cfg_1_0 calm_env s) as Hr.
  { exists 0%Q, [Ctl; Ctl; Ctl]. split; [|exact He].
    repeat (apply Forall_cons_2; [exact I|]). apply Forall_nil_2. }
  destruct (no_workers_no_report cfg_1_0 s)
    as (Hw & _ & _ & _ & _ & _ & Hn).
  - discriminate.
  - exact (reachable_any _ _ _ Hr).
  - exists s. split; [reflexivity|]. split; [assumption|].
    split; [assumption|]. apply Hn; [assumption|reflexivity].
Defined.

(** ** Invariants in any environment *)

Lemma reachable_invariant cfg E (P : state -> Prop) :
  (forall t0, P (start cfg t0)) ->
  (forall s l s',
      reachable cfg E s -> P s -> label_ok E l -> transition cfg s l s' ->
      P s') ->
  forall s, reachable cfg E s -> P s.
Proof.
  intros Hstart Hstep s (t0 & tr & Hok & Hexec).
  assert (forall tr s0 s,
             reachable cfg E s0 -> P s0 -> Forall (label_ok E) tr ->
             exec cfg tr s0 = Some s -> P s) as Hall.
  { clear tr Hok Hexec.
    induction tr as [|l tr IH]; intros s0 s1 Hr Hp Hok Hexec;
      simpl in Hexec.
    - injection Hexec as <-. assumption.
    - apply Forall_cons in Hok as [Hl Hok].
      destruct (step cfg l s0) as [s2|] eqn:Hs; [|discriminate].
      simpl in Hexec. apply (IH s2 s1); [| |assumption..].
      + eapply reachable_step; eassumption.
      + apply (Hstep s0 l s2 Hr Hp Hl). apply step_transition. assumption. }
  eapply Hall; [apply reachable_start | apply Hstart | eassumption..].
Qed.

(** ** The requests of the warm-up calls *)

Lemma forallb_lookup {A : Type} (f : A -> bool) (l : list A) i x :
  forallb f l = true -> l !! i = Some x -> f x = true.
Proof.
  revert i. induction l as [|y l IH]; intros [|i] H Hi; simpl in *;
    try discriminate; apply andb_true_iff in H as [H1 H2].
  - injection Hi as <-. assumption.
  - eapply IH; eassumption.
Qed.

Section Warm.
Variables (cfg : config) (E : env).
Variable Post : Z -> nat -> option Result -> Prop.
Hypothesis Post_start : forall id, wp E (_make_request id 0) 0 (Post id).
Hypothesis flag_set : env_flag E true.

Lemma warm_start t0 : warm cfg E Post (start cfg t0).
Proof.
  unfold start.
  destruct (0 <? warmup_count cfg) eqn:Hw;
    [apply Z.ltb_lt in Hw | apply Z.ltb_ge in Hw]; constructor; simpl.
  - intros id Hin. inversion Hin.
  - intros tasks [= <-]. rewrite length_map, length_seq. lia.
  - intros tasks i c [= <-] Hi.
    apply list_lookup_fmap_Some in Hi as (j & -> & Hj).
    apply lookup_seq in Hj as [-> _]. apply Post_start.
  - intros Hnil. apply (f_equal length) in Hnil.
    rewrite length_map, length_seq in Hnil. simpl in Hnil. lia.
  - intros id Hin. inversion Hin.
  - discriminate.
  - discriminate.
  - intros _ id Hid. lia.
Qed.

Lemma warm_same s s' :
  warm cfg E Post s ->
  warmed s' = warmed s ->
  ctl s' = ctl s \/ (tasks_of (ctl s) = [] /\ tasks_of (ctl s') = []
                     /\ forall tasks, ctl s' <> Warmup tasks) ->
  warm cfg E Post s'.
Proof.
  intros [Hids Hlen Htask Hdone] Hw [Hc|(Hn & Hn' & Hc)].
  - constructor; rewrite ?Hw, ?Hc; assumption.
  - constructor; rewrite ?Hw.
    + assumption.
    + intros tasks Ht. destruct (Hc _ Ht).
    + intros tasks i c Ht. destruct (Hc _ Ht).
    + intros _. apply Hdone, Hn.
Qed.

Lemma warm_step s l s' :
  reachable cfg E s ->
  warm cfg E Post s -> label_ok E l -> transition cfg s l s' ->
  warm cfg E Post s'.
Proof.
  intros Hr Hwarm Hl Ht.
  assert (env_flag E (running s)) as Hflag.
  { refine (inv_flag _ _ _ _ (inv_reachable cfg E keeps_id _ _ flag_set s Hr)).
    - intros id n r H. apply H. reflexivity.
    - intros id. apply wp_activations_id. }
  destruct Ht;
    try (apply (warm_same s); [assumption|reflexivity|left; reflexivity]).
  - (* the warm-up is over *)
    destruct Hwarm as [Hids Hlen Htask Hdone]. constructor; simpl.
    + assumption.
    + discriminate.
    + discriminate.
    + intros _ id Hid. specialize (Hlen _ H).
      destruct (tasks !! Z.to_nat id) as [c|] eqn:Hc.
      2: { apply lookup_ge_None in Hc. lia. }
      pose proof (Htask _ _ _ H Hc) as Hwp.
      rewrite Z2Nat.id in Hwp by lia.
      pose proof (forallb_lookup _ _ _ _ H0 Hc) as Hret.
      destruct c as [r|]; [|discriminate]. exists r. exact Hwp.
  - apply (warm_same s); [assumption|reflexivity|right].
    rewrite H. simpl. repeat split. discriminate.
  - apply (warm_same s); [assumption|reflexivity|right].
    rewrite H. simpl. repeat split. discriminate.
  - apply (warm_same s); [assumption|reflexivity|right].
    rewrite H. simpl. repeat split. discriminate.
  - apply (warm_same s); [assumption|reflexivity|right].
    rewrite H. simpl. repeat split. discriminate.
  - apply (warm_same s); [assumption|reflexivity|right].
    rewrite H. simpl. repeat split. discriminate.
  - apply (warm_same s); [assumption|reflexivity|right].
    rewrite H. simpl. repeat split. discriminate.
  - (* a warm-up call advances *)
    destruct Hwarm as [Hids Hlen Htask Hdone]. simpl in Hl.
    pose proof (lookup_lt_Some _ _ _ H0) as Hi.
    pose proof (Hlen _ H) as Hn.
    constructor; simpl.
    + intros id Hin. destruct (sends c); [|auto].
      apply elem_of_app in Hin as [Hin|Hin]; [auto|].
      apply list_elem_of_singleton in Hin. lia.
    + intros tasks' [= <-]. rewrite length_insert. assumption.
    + intros tasks' j cj [= <-] Hj.
      destruct (decide (j = i)) as [->|Hne].
      * rewrite list_lookup_insert_eq in Hj by assumption.
        injection Hj as <-.
        pose proof (wp_resume E _ _ _ _ _ _ _ H1 Hflag Hl
                      (Htask _ _ _ H H0)) as Hwp.
        destruct (sends c); [|exact Hwp].
        rewrite hits_app, hits_one.
        replace (hits (Z.of_nat i) (warmed s) + 1)%nat
          with (S (hits (Z.of_nat i) (warmed s))) by lia.
        exact Hwp.
      * rewrite list_lookup_insert_ne in Hj by congruence.
        pose proof (Htask _ _ _ H Hj) as Hwp.
        destruct (sends c); [|exact Hwp].
        rewrite hits_app, hits_other by lia.
        rewrite Nat.add_0_r. exact Hwp.
    + intros Hnil. apply (f_equal length) in Hnil.
      rewrite length_insert in Hnil. simpl in Hnil. lia.
Qed.

Lemma warm_reachable s : reachable cfg E s -> warm cfg E Post s.
Proof.
  apply reachable_invariant; [apply warm_start|].
  intros s0 l s' Hr Hp Hl Ht. eapply warm_step; eassumption.
Qed.
End Warm.

Lemma length_by_hits_from (l : list Z) (m : Z) (n : nat) :
  (forall x, x ∈ l -> m <= x < m + Z.of_nat n) ->
  sum_list_with (fun id => hits id l) (seqZ m (Z.of_nat n)) = length l.
Proof.
  induction l as [|x l IH]; intros H.
  - apply sum_list_with_zero. reflexivity.
  - rewrite sum_hits_cons, IH, once_in_seqZ; [reflexivity| |].
    + apply H. left.
    + intros y Hy. apply H. right. assumption.
Qed.

Lemma warmed_bounded cfg s :
  reachable cfg any_env s ->
  forall id, (hits id (warmed s) <= S max_retries)%nat.
Proof.
  intros Hr id.
  assert (warm cfg any_env counted_out s) as [Hids Hlen Htask Hdone].
  { apply warm_reachable; [|exact I|assumption].
    intros id'. apply wp_activations_counted; unfold max_retries; lia. }
  destruct (decide (0 <= id < warmup_count cfg)) as [Hid|Hid].
  2: { assert (hits id (warmed s) = 0%nat) as ->; [|lia].
       apply hits_none. intros Hin. apply Hid, Hids, Hin. }
  destruct (ctl s) as [tasks| | | | |] eqn:Hc;
    try (destruct (Hdone eq_refl id Hid) as [r [H _]]; exact H).
  specialize (Hlen _ eq_refl).
  destruct (tasks !! Z.to_nat id) as [c|] eqn:Hi.
  2: { apply lookup_ge_None in Hi. lia. }
  pose proof (Htask _ _ _ eq_refl Hi) as Hwp.
  rewrite Z2Nat.id in Hwp by lia.
  eapply (wp_bound (counted_out id)); [|exact Hwp].
  intros m r [Hm _]. exact Hm.
Qed.

(** X8.  However a run goes, one call of [_make_request] sends at most
    four requests: the first and [max_retries = 3] retries.  The workers
    call it once for each identifier of [1 .. num_requests] and [run]
    once for each warm-up identifier of [0 .. warmup_count - 1]; the two
    ranges overlap, so that one identifier can see up to eight requests.
    Each recorded result needed at least one request.  In all a run sends
    at most [4 * num_requests] requests from its workers and
    [4 * warmup_count], that is at most 40, during the warm-up. *)
Theorem at_most_four_requests_each cfg s :
  reachable cfg any_env s ->
  (forall id, (hits id (attempted s) <= 4)%nat) /\
  (forall id, id ∈ attempted s -> 1 <= id <= num_requests cfg) /\
  (forall id, (hits id (warmed s) <= 4)%nat) /\
  (forall id, id ∈ warmed s -> 0 <= id < warmup_count cfg) /\
  (forall r, r ∈ recorded s ->
     (1 <= hits (request_id r) (attempted s))%nat) /\
  Z.of_nat (length (attempted s)) <= 4 * Z.max 0 (num_requests cfg) /\
  Z.of_nat (length (warmed s)) <= 4 * Z.max 0 (warmup_count cfg) /\
  Z.of_nat (length (warmed s)) <= 40.
Proof.
  intros Hr.
  pose proof (hits_bounded cfg s Hr) as Hb. unfold max_retries in Hb.
  pose proof (warmed_bounded cfg s Hr) as Hwb. unfold max_retries in Hwb.
  pose proof (reachable_counted cfg s Hr) as Hinv.
  assert (forall id, id ∈ attempted s ->
            1 <= id <= Z.max 0 (num_requests cfg)) as Hids.
  { intros id Hin.
    destruct (inv_attempted _ _ _ _ Hinv id Hin) as [Hid _].
    pose proof (inv_ctl _ _ _ _ Hinv) as Hctl.
    destruct (ctl s); simpl in Hid; lia. }
  assert (forall id, id ∈ warmed s -> 0 <= id < warmup_count cfg) as Hwids.
  { apply (warm_ids cfg any_env counted_out).
    apply warm_reachable; [|exact I|assumption].
    intros id'. apply wp_activations_counted; unfold max_retries; lia. }
  assert (Z.of_nat (length (warmed s)) <= 4 * Z.max 0 (warmup_count cfg))
    as Hlen.
  { rewrite <- (length_by_hits_from (warmed s) 0
                  (Z.to_nat (Z.max 0 (warmup_count cfg))))
      by (intros x Hx; specialize (Hwids x Hx); lia).
    pose proof (sum_list_with_le (fun id => hits id (warmed s)) 4
                  (seqZ 0 (Z.of_nat (Z.to_nat (Z.max 0 (warmup_count cfg)))))
                  Hwb) as Hle.
    rewrite length_seqZ in Hle. lia. }
  split; [exact Hb|]. split; [|split; [exact Hwb|split; [exact Hwids|]]].
  - intros id Hin. specialize (Hids id Hin). lia.
  - split; [|split; [|split; [exact Hlen|]]].
    + intros r Hin.
      destruct (inv_recorded _ _ _ _ Hinv r Hin) as [_ H].
      apply (H r). reflexivity.
    + rewrite <- (length_by_hits (attempted s)
                    (Z.to_nat (Z.max 0 (num_requests cfg))))
        by (intros x Hx; specialize (Hids x Hx); lia).
      pose proof (sum_list_with_le (fun id => hits id (attempted s)) 4
                    (seqZ 1 (Z.of_nat
                               (Z.to_nat (Z.max 0 (num_requests cfg)))))
                    Hb) as Hle.
      rewrite length_seqZ in Hle. lia.
    + destruct (warmup_count_eq cfg) as (_ & _ & Hten). lia.
Qed.

Lemma at_most_four_requests_each_witness :
  exists s,
    exec cfg_1_10 (warmup_trace ++ measured_trace) (start cfg_1_10 0)
      = Some s /\
    (forall id, (hits id (attempted s) <= 4)%nat) /\
    (forall id, (hits id (warmed s) <= 4)%nat) /\
    Z.of_nat (length (warmed s)) <= 40.
Proof.
  destruct measured_run_reachable as (s & He & _ & Hr & _).
  destruct (at_most_four_requests_each cfg_1_10 s (reachable_any _ _ _ Hr))
    as (H1 & _ & H3 & _ & _ & _ & _ & H8).
  exists s. repeat split; assumption.
Defined.

(** X10.  Against a target that answers every request with the same status
    [code], a run that no signal interrupts sends exactly one request for
    each call of [_make_request] and never retries, whatever the status:
    one for each identifier of [1 .. num_requests] from the workers and
    one for each identifier of [0 .. warmup_count - 1] during the warm-up,
    [num_requests + warmup_count] in all.  Its report counts
    [num_requests] results, all of them successful when
    [200 <= code < 400] and all of them failed otherwise; [status_codes]
    has the single key [str(code)], and [errors] is empty even when every
    request failed: a failure by status code alone leaves no error
    entry. *)
Theorem same_status_every_time cfg code s :
  reachable cfg (status_env code) s ->
  ctl s = Done ->
  let n := Z.max 0 (num_requests cfg) in
  let k := Z.max 0 (warmup_count cfg) in
  total_requests (stats s) = n /\
  successful (stats s) = (if (200 <=? code) && (code <? 400) then n else 0) /\
  failed (stats s) = (if (200 <=? code) && (code <? 400) then 0 else n) /\
  status_codes (stats s) = (if n =? 0 then ∅ else {[ pretty code := n ]}) /\
  errors (stats s) = ∅ /\
  (forall id, 1 <= id <= num_requests cfg ->
     hits id (attempted s) = 1%nat) /\
  (forall id, 0 <= id < warmup_count cfg -> hits id (warmed s) = 1%nat) /\
  Z.of_nat (length (attempted s)) = n /\
  Z.of_nat (length (warmed s)) = k /\
  Z.of_nat (length (attempted s) + length (warmed s)) = n + k.
Proof.
  intros Hr Hdone n k.
  pose proof (reachable_served cfg code s Hr) as Hinv.
  destruct (complete_run cfg _ (served code) s Hinv) as (Hab & Hperm & Hall);
    [discriminate
    |intros id m (_ & res & Hres & _); discriminate Hres
    |assumption|].
  destruct (recorded_once cfg s (reachable_any _ _ _ Hr)) as [_ Hst].
  assert (length (recorded s) = Z.to_nat n) as Hlen.
  { rewrite <- (length_map request_id), Hperm, length_seqZ. reflexivity. }
  assert (only_status code (0 + length (recorded s)) (stats s)) as Hs.
  { rewrite Hst. apply only_status_tally.
    - unfold only_status. simpl. destruct (_ && _); repeat split.
    - apply Forall_forall. intros r Hin.
      destruct (inv_recorded _ _ _ _ Hinv r Hin)
        as (_ & res & [= <-] & _ & H1 & H2 & H3).
      auto. }
  simpl in Hs. rewrite Hlen in Hs. destruct Hs as (H1 & H2 & H3 & H4 & H5).
  assert (forall id, 1 <= id <= num_requests cfg ->
            hits id (attempted s) = 1%nat) as Hone.
  { intros id Hid. destruct (Hall id Hid) as (r & _ & _ & Hn & _).
    exact Hn. }
  assert (warm cfg (status_env code) (served code) s)
    as [Hwids _ _ Hwdone].
  { apply warm_reachable; [|reflexivity|assumption].
    intros id. apply wp_activations_served. }
  rewrite Hdone in Hwdone.
  assert (forall id, 0 <= id < warmup_count cfg ->
            hits id (warmed s) = 1%nat) as Hwone.
  { intros id Hid. destruct (Hwdone eq_refl id Hid) as (r & Hn & _).
    exact Hn. }
  assert (Z.of_nat (length (attempted s)) = n) as Hsent.
  { rewrite <- (length_by_hits (attempted s) (Z.to_nat n)).
    + rewrite sum_list_with_ones; [rewrite length_seqZ; lia|].
      intros id Hid. apply elem_of_seqZ in Hid. apply Hone. lia.
    + intros x Hx.
      destruct (inv_attempted _ _ _ _ Hinv x Hx) as [Hid _].
      rewrite Hdone in Hid. simpl in Hid. lia. }
  assert (Z.of_nat (length (warmed s)) = k) as Hwarmed.
  { rewrite <- (length_by_hits_from (warmed s) 0 (Z.to_nat k)).
    + rewrite sum_list_with_ones; [rewrite length_seqZ; lia|].
      intros id Hid. apply elem_of_seqZ in Hid. apply Hwone. lia.
    + intros x Hx. specialize (Hwids x Hx). lia. }
  split; [lia|]. split; [rewrite H2; destruct (_ && _); lia|].
  split; [rewrite H3; destruct (_ && _); lia|].
  split; [|repeat split; try assumption; lia].
  rewrite H5. destruct (Z.to_nat n) eqn:Hn.
  - replace n with 0 by lia. reflexivity.
  - destruct (n =? 0) eqn:Hz; [lia|]. f_equal. lia.
Qed.

Lemma same_status_every_time_witness :
  exists s,
    exec cfg_1_10 (warmup_trace ++ measured_trace) (start cfg_1_10 0)
      = Some s /\
    total_requests (stats s) = 1 /\
    successful (stats s) = 1 /\
    status_codes (stats s) = {[ "200" := 1 ]} /\
    errors (stats s) = ∅ /\
    Z.of_nat (length (attempted s) + length (warmed s)) = 2.
Proof.
  destruct measured_run_reachable as (s & He & Hdone & _ & Hr).
  destruct (same_status_every_time cfg_1_10 200 s Hr Hdone)
    as (H1 & H2 & _ & H4 & H5 & _ & _ & _ & _ & H10).
  exists s. repeat split; assumption.
Defined.

(** ** After the flag is cleared: all calls *)

Lemma owing_nil_inv cost m : owing cost [] m -> m = 0%nat.
Proof. inversion 1. reflexivity. Qed.

Lemma owing_tasks cost tasks :
  (forall i c, tasks !! i = Some c -> cost c 1%nat) ->
  (forall r, cost (Ret r) 0%nat) ->
  owing cost tasks (pending tasks).
Proof.
  unfold pending. induction tasks as [|c tasks IH]; intros H Hret; simpl.
  - constructor.
  - assert (owing cost tasks
              (sum_list_with (fun c => if is_ret c then 0%nat else 1%nat)
                 tasks)) as Hrest
      by (apply IH; [intros i c' Hi; apply (H (S i) c' Hi)|assumption]).
    apply owing_cons; [|assumption].
    destruct c as [r|X e k]; simpl; [apply Hret|].
    apply (H 0%nat). reflexivity.
Qed.

Lemma owing_replace cost tasks n :
  owing cost tasks n ->
  forall i old,
    tasks !! i = Some old ->
    exists b m,
      n = (b + m)%nat /\ cost old b /\
      forall c b', cost c b' -> owing cost (<[i := c]> tasks) (b' + m).
Proof.
  induction 1 as [|c b cs n Hc Hcs IH]; intros i old Hi.
  - rewrite lookup_nil in Hi. discriminate.
  - destruct i as [|i]; simpl in Hi.
    + injection Hi as <-. exists b, n. split; [reflexivity|].
      split; [assumption|]. intros c' b' Hc'. simpl.
      apply owing_cons; assumption.
    + destruct (IH i old Hi) as (b0 & m & -> & Hold & Hrep).
      exists b0, (b + m)%nat. split; [lia|]. split; [assumption|].
      intros c' b' Hc'. simpl.
      replace (b' + (b + m))%nat with (b + (b' + m))%nat by lia.
      apply owing_cons; auto.
Qed.

Lemma pending_le_length tasks : (pending tasks <= length tasks)%nat.
Proof.
  unfold pending. induction tasks as [|c tasks IH]; simpl; [lia|].
  destruct (is_ret c); lia.
Qed.

Lemma winding_down_step cfg K s l s' :
  winding_down K s -> transition cfg s l s' -> winding_down K s'.
Proof.
  intros [Hrun (n & m & Hb & Ho & Hle)] Ht. unfold winding_down.
  assert (forall x, busy x = 0%nat ->
            forall w old, workers s !! w = Some old ->
            exists n', (n' <= n)%nat /\
                       budget sends_at_most (<[w := x]> (workers s)) n')
    as Hidle.
  { intros x Hx w old Hw.
    apply (budget_idle_insert _ _ _ _ old x Hb Hw Hx). }
  destruct Ht; simpl.
  - split; [reflexivity|]. exists n, m. auto.
  - split; [assumption|]. exists n, m. auto.
  - (* the workers are created *)
    split; [assumption|]. exists 0%nat, 0%nat.
    split; [|split; [constructor|lia]].
    apply budget_free. intros x Hx. apply list_elem_of_lookup in Hx.
    destruct Hx as [w Hw].
    destruct (create_workers_idle _ _ _ Hw) as [-> | ->]; reflexivity.
  - congruence.
  - rewrite H in Ho. apply owing_nil_inv in Ho. subst m.
    split; [assumption|]. exists n, 0%nat.
    split; [assumption|]. split; [constructor|lia].
  - rewrite H in Ho. apply owing_nil_inv in Ho. subst m.
    split; [assumption|]. exists n, 0%nat.
    split; [assumption|]. split; [constructor|lia].
  - rewrite H in Ho. apply owing_nil_inv in Ho. subst m.
    split; [assumption|]. exists n, 0%nat.
    split; [assumption|]. split; [constructor|lia].
  - (* the workers are cancelled *)
    split; [assumption|]. exists 0%nat, 0%nat.
    split; [|split; [constructor|lia]].
    apply budget_free. intros x Hx. apply list_elem_of_fmap in Hx.
    destruct Hx as (y & -> & _). reflexivity.
  - rewrite H in Ho. apply owing_nil_inv in Ho. subst m.
    split; [assumption|]. exists n, 0%nat.
    split; [assumption|]. split; [constructor|lia].
  - (* a warm-up call advances *)
    split; [assumption|]. rewrite H in Ho. simpl in Ho.
    destruct (owing_replace _ _ _ Ho i c H0) as (b & m' & -> & Hold & Hrep).
    rewrite Hrun in H1.
    pose proof (resume_stopped _ _ _ _ _ H1 Hold) as Hres.
    destruct (sends c).
    + destruct Hres as (b' & -> & Hc'). exists n, (b' + m')%nat.
      split; [assumption|]. split; [apply Hrep; exact Hc'|].
      rewrite length_app. simpl. lia.
    + exists n, (b + m')%nat.
      split; [assumption|]. split; [apply Hrep; exact Hres|lia].
  - destruct (Hidle WTest eq_refl w _ H) as (n' & Hn' & Hb').
    split; [assumption|]. exists n', m. split; [assumption|].
    split; [assumption|lia].
  - destruct (Hidle (if running s then WGet else WStop)
                ltac:(destruct (running s); reflexivity) w _ H)
      as (n' & Hn' & Hb').
    split; [assumption|]. exists n', m. split; [assumption|].
    split; [assumption|lia].
  - (* a call starts: it sends nothing *)
    split; [assumption|].
    destruct (budget_replace _ _ _ Hb w _ H) as (b & n' & -> & Hold & Hrep).
    simpl in Hold. subst b. exists n', m. split; [|split; [assumption|lia]].
    apply (Hrep (WCall id (_make_request id 0)) 0%nat).
    exact (proj1 (activations_stopped id _ 0)).
  - destruct (Hidle WTest eq_refl w _ H) as (n' & Hn' & Hb').
    split; [assumption|]. exists n', m. split; [assumption|].
    split; [assumption|lia].
  - (* a call advances *)
    split; [assumption|].
    destruct (budget_replace _ _ _ Hb w _ H) as (b & n' & -> & Hold & Hrep).
    simpl in Hold. rewrite Hrun in H0.
    pose proof (resume_stopped _ _ _ _ _ H0 Hold) as Hres.
    destruct (sends c).
    + destruct Hres as (b' & -> & Hc'). exists (b' + n')%nat, m.
      split; [apply (Hrep (WCall id c') b'); exact Hc'|].
      split; [assumption|]. rewrite length_app. simpl. lia.
    + exists (b + n')%nat, m.
      split; [apply (Hrep (WCall id c') b); exact Hres|].
      split; [assumption|lia].
  - destruct (Hidle WTest eq_refl w _ H) as (n' & Hn' & Hb').
    split; [assumption|]. exists n', m. split; [assumption|].
    split; [assumption|lia].
Qed.

(** Also a warm-up call sends at most one more request once the flag is
    cleared. *)
Lemma tasks_winding cfg s :
  reachable cfg any_env s ->
  forall i c,
    tasks_of (ctl s) !! i = Some c ->
    sends_at_most c 1 /\ (running s = true -> winds_down c).
Proof.
  apply (run_invariant cfg (fun s =>
    forall i c,
      tasks_of (ctl s) !! i = Some c ->
      sends_at_most c 1 /\ (running s = true -> winds_down c))).
  - intros t0 i c. unfold start. simpl.
    destruct (0 <? warmup_count cfg); simpl;
      [|rewrite lookup_nil; discriminate].
    intros Hi. apply list_lookup_fmap_Some in Hi as (j & -> & _).
    pose proof (winds_down_activations (Z.of_nat j) 3 0).
    split; [apply winds_down_sends|]; auto.
  - intros s0 l s' _ IH Ht. destruct Ht; simpl; intros i0 c0 Hi0;
      try (rewrite lookup_nil in Hi0; discriminate);
      try (eapply IH; eassumption).
    + split; [apply (IH _ _ Hi0) | discriminate].
    + rewrite H in IH. simpl in IH.
      apply list_lookup_insert_Some in Hi0 as [(_ & <- & _)|[_ Hi0]];
        [|eauto].
      destruct (IH _ _ H0) as [Hs Hwd].
      destruct (running s0) eqn:Hrun.
      * pose proof (resume_winds_down _ _ _ _ H1 (Hwd eq_refl)).
        split; [apply winds_down_sends|]; auto.
      * split; [|discriminate].
        pose proof (resume_stopped _ _ _ _ _ H1 Hs) as Hr.
        destruct (sends c); [|assumption].
        destruct Hr as (b' & [= <-] & Hr).
        eapply sends_at_most_mono; [|eassumption]. lia.
Qed.

(** X6.  After the flag is cleared, every call of [_make_request] that is
    in flight, whether a worker or the warm-up awaits it, sends at most
    one more request (the one its current attempt had already decided to
    send), and a call started afterwards sends none and returns [None]:
    [_make_request] tests [self.running] first, also when it retries.  So
    from a state with the flag clear the run sends at most one more
    request per worker holding a call and per warm-up call that has not
    returned, and records at most one more result per worker holding a
    call; there are at most [concurrency] such calls. *)
Theorem cleared_flag_winds_down cfg s1 tr s2 :
  reachable cfg any_env s1 ->
  running s1 = false ->
  exec cfg tr s1 = Some s2 ->
  let in_flight :=
    (sum_list_with busy (workers s1) + pending (tasks_of (ctl s1)))%nat in
  (length (attempted s2) + length (warmed s2)
   <= length (attempted s1) + length (warmed s1) + in_flight)%nat /\
  (length (recorded s2)
   <= length (recorded s1) + sum_list_with busy (workers s1))%nat /\
  (in_flight <= Z.to_nat (concurrency cfg))%nat /\
  (forall w id c,
      workers s1 !! w = Some (WCall id c) -> sends_at_most c 1) /\
  (forall i c, tasks_of (ctl s1) !! i = Some c -> sends_at_most c 1) /\
  (forall id rc,
      sends_at_most (_make_request id rc) 0 /\
      returns_none (_make_request id rc)).
Proof.
  intros Hr Hrun Hexec in_flight.
  assert (forall w id c,
             workers s1 !! w = Some (WCall id c) -> sends_at_most c 1)
    as Hworkers
    by (intros w id c Hw; apply (stops_winding cfg s1 Hr w id c Hw)).
  assert (forall i c, tasks_of (ctl s1) !! i = Some c -> sends_at_most c 1)
    as Htasks
    by (intros i c Hi; apply (tasks_winding cfg s1 Hr i c Hi)).
  split; [|split; [|split; [|split; [|split]]]];
    try assumption.
  - assert (winding_down
              (length (attempted s1) + length (warmed s1) + in_flight) s2)
      as (_ & n & m & _ & _ & Hle).
    { apply (exec_invariant cfg
               (winding_down
                  (length (attempted s1) + length (warmed s1) + in_flight)))
        with (tr := tr) (s := s1); [|assumption| |assumption].
      - intros s l s' _ Hp Ht. eapply winding_down_step; eassumption.
      - split; [assumption|].
        exists (sum_list_with busy (workers s1)),
               (pending (tasks_of (ctl s1))).
        split; [apply budget_workers; exact Hworkers|].
        split; [|subst in_flight; lia].
        apply owing_tasks; [exact Htasks|]. intros r. exact I. }
    lia.
  - assert (winding yields_at_most (fun s => length (recorded s))
              (length (recorded s1) + sum_list_with busy (workers s1)) s2)
      as (_ & n & _ & Hle).
    { apply (exec_invariant cfg
               (winding yields_at_most (fun s => length (recorded s))
                  (length (recorded s1) + sum_list_with busy (workers s1))))
        with (tr := tr) (s := s1); [|assumption| |assumption].
      - intros s l s' _ Hp Ht. eapply winding_yields; eassumption.
      - split; [assumption|]. exists (sum_list_with busy (workers s1)).
        split; [|lia]. apply budget_workers. intros w id c Hw. exact I. }
    lia.
  - subst in_flight.
    pose proof (shape_workers _ _ (reachable_shape _ _ Hr)) as Hw.
    pose proof (busy_le_length (workers s1)) as Hb.
    destruct (ctl s1) as [tasks| | | | |] eqn:Hc; simpl;
      try (unfold pending; simpl; lia).
    destruct (warmup_tasks_kept cfg s1 Hr tasks Hc) as [Hpos Hlen].
    destruct (warmup_count_eq cfg) as (Heq & _ & _).
    pose proof (pending_le_length tasks) as Hp.
    assert (warmup_count cfg <= concurrency cfg)
      by (rewrite Heq in *; Z.to_euclidean_division_equations; lia).
    lia.
  - intros id rc. unfold _make_request. apply activations_stopped.
Qed.

Lemma cleared_flag_winds_down_witness :
  exists s1 s2,
    exec cfg_3_1 (drop 12 interrupted_trace) s1 = Some s2 /\
    (length (attempted s2) + length (warmed s2)
     <= length (attempted s1) + length (warmed s1)
        + (sum_list_with busy (workers s1)
           + pending (tasks_of (ctl s1))))%nat /\
    (length (recorded s2)
     <= length (recorded s1) + sum_list_with busy (workers s1))%nat.
Proof.
  destruct interrupted_split as (s1 & s2 & Hr & Hf & He).
  destruct (cleared_flag_winds_down cfg_3_1 s1 _ s2 Hr Hf He)
    as (H1 & H2 & _).
  exists s1, s2. repeat split; assumption.
Defined.

(** ** What the report says *)

Lemma fold_min_in (l : list Q) :
  forall m,
    fold_left (fun m y => if Qle_bool m y then m else y) l m ∈ m :: l.
Proof.
  induction l as [|y l IH]; intros m; simpl; [left|].
  destruct (Qle_bool m y).
  - specialize (IH m). apply elem_of_cons in IH as [->|IH];
      [left|right; right; exact IH].
  - right. apply IH.
Qed.

Lemma fold_max_in (l : list Q) :
  forall m,
    fold_left (fun m y => if Qle_bool y m then m else y) l m ∈ m :: l.
Proof.
  induction l as [|y l IH]; intros m; simpl; [left|].
  destruct (Qle_bool y m).
  - specialize (IH m). apply elem_of_cons in IH as [->|IH];
      [left|right; right; exact IH].
  - right. apply IH.
Qed.

(** X11.  The report of a run.  When [run] reaches [_print_results] both
    timestamps are set and every figure is computed.  The figures of the
    model are exact where Python's are rounded floats; what is stated
    here holds of both.  With no result recorded, the two percentages and
    the rate are 0.  With results that all succeeded the percentages are
    100 and 0, and 0 and 100 with results that all failed.  The rate is
    never negative.  The response times are summarised exactly when a
    result was recorded, and then the minimum and the maximum are two of
    the recorded times, with every recorded time between them. *)
Theorem report_of_a_run cfg s :
  reachable cfg any_env s ->
  ctl s = Done ->
  exists rep,
    _print_results (stats s) = Some rep /\
    rep_total rep = Z.of_nat (length (recorded s)) /\
    (rep_total rep = 0 ->
     (rep_successful_pct rep == 0)%Q /\ (rep_failed_pct rep == 0)%Q /\
     (rep_per_sec rep == 0)%Q) /\
    (0 < rep_total rep -> failed (stats s) = 0 ->
     (rep_successful_pct rep == 100)%Q /\ (rep_failed_pct rep == 0)%Q) /\
    (0 < rep_total rep -> successful (stats s) = 0 ->
     (rep_successful_pct rep == 0)%Q /\ (rep_failed_pct rep == 100)%Q) /\
    (0 <= rep_per_sec rep)%Q /\
    (rep_times rep = None <-> rep_total rep = 0) /\
    forall avg_time min_time max_time,
      rep_times rep = Some (avg_time, min_time, max_time) ->
      min_time ∈ response_times (stats s) /\
      max_time ∈ response_times (stats s) /\
      forall t, t ∈ response_times (stats s) ->
        (min_time <= t <= max_time)%Q.
Proof.
  intros Hr Hdone.
  destruct (reachable_timing cfg s Hr) as (t0 & Hst & _ & Hc).
  rewrite Hdone in Hc. destruct Hc as (t_end & Hend & _).
  destruct (recorded_once cfg s Hr) as [_ Htally].
  destruct (tally_counts (recorded s)
              (fresh (start_time (stats s)) (end_time (stats s))))
    as (H1 & H2 & H3).
  rewrite <- Htally in H1, H2, H3. simpl in H1, H2, H3.
  set (total := total_requests (stats s)) in *.
  set (m := py_max2 (t_end - t0) (1 # 10)).
  assert (1 # 10 <= m)%Q as Hm by apply py_max2_ge.
  assert (0 <= inject_Z total)%Q as Htotal by (unfold Qle; simpl; lia).
  assert (forall a b : Z,
             0 < total -> a = total -> b = 0 ->
             (inject_Z a / inject_Z (Z.max total 1) * 100 == 100)%Q /\
             (inject_Z b / inject_Z (Z.max total 1) * 100 == 0)%Q) as Hall.
  { intros a b Hpos -> ->. rewrite Z.max_l by lia.
    assert (~ inject_Z total == 0)%Q as Hnz by (apply inject_Z_nonzero; lia).
    split; [field; exact Hnz|].
    change (inject_Z 0) with 0%Q. field. exact Hnz. }
  assert (total = 0 ->
          (inject_Z (successful (stats s)) / inject_Z (Z.max total 1) * 100
           == 0)%Q /\
          (inject_Z (failed (stats s)) / inject_Z (Z.max total 1) * 100
           == 0)%Q /\
          (inject_Z total / m == 0)%Q) as Hzero.
  { intros Hz.
    assert (recorded s = []) as Hrec
      by (destruct (recorded s); [reflexivity|simpl in H1; lia]).
    rewrite Hz. rewrite Htally, Hrec. simpl.
    split; [reflexivity|]. split; [reflexivity|].
    change (inject_Z 0) with 0%Q. field. lra. }
  assert (0 <= inject_Z total / m)%Q as Hrate
    by (apply Qle_shift_div_l; lra).
  unfold _print_results. rewrite Hst, Hend. simpl. fold total m.
  rewrite (py_div_some (inject_Z (successful (stats s))))
    by (apply inject_Z_nonzero; lia).
  rewrite (py_div_some (inject_Z (failed (stats s))))
    by (apply inject_Z_nonzero; lia).
  rewrite (py_div_some (inject_Z total)) by lra.
  simpl.
  destruct (response_times (stats s)) as [|t ts] eqn:Hts; simpl;
    (eexists; split; [reflexivity|]); simpl;
    (split; [lia|]); (split; [exact Hzero|]);
    (split; [intros Hpos Hf; apply Hall; lia|]);
    (split; [intros Hpos Hs;
             destruct (Hall (failed (stats s)) (successful (stats s)))
               as [Ha Hb]; [lia..|]; split; assumption|]);
    (split; [exact Hrate|]).
  - split; [|discriminate]. simpl in H3. split; [lia|reflexivity].
  - split; [simpl in H3; split; [discriminate|lia]|].
    intros a mn mx [= <- <- <-].
    split; [apply fold_min_in|]. split; [apply fold_max_in|].
    intros x Hx. split.
    + apply (py_min_least (t :: ts)); [reflexivity|assumption].
    + apply (py_max_greatest (t :: ts)); [reflexivity|assumption].
Qed.

Lemma report_of_a_run_witness :
  exists s rep,
    exec cfg_1_10 (warmup_trace ++ measured_trace) (start cfg_1_10 0)
      = Some s /\
    _print_results (stats s) = Some rep /\
    rep_total rep = Z.of_nat (length (recorded s)) /\
    (0 <= rep_per_sec rep)%Q.
Proof.
  destruct measured_run_reachable as (s & He & Hdone & Hr & _).
  destruct (report_of_a_run cfg_1_10 s (reachable_any _ _ _ Hr) Hdone)
    as (rep & Hrep & Ht & _ & _ & _ & Hrate & _).
  exists s, rep. repeat split; assumption || apply Hrate.
Defined.
